(** * SimpleTune: the pitch-detection core of [app.js]

    A shallow embedding of the tuner's signal path ([detectPitch],
    [autoCorrelate], [updateDisplay], [getNoteFromFrequency],
    [updateStringIndicators]) and of its session controls
    ([startListening], [stopListening], [toggleStringLock],
    [resetDisplay]).

    Numbers.  A JavaScript number is an IEEE-754 double.  The model reads
    every arithmetic expression of the source over the real numbers [R]:
    rounding error, NaN and the infinities are left out.  Values that the
    source only ever holds as integers (loop counters, lags, MIDI numbers,
    cents after [Math.round]) are [Z].  The two places where the source
    relies on an infinity are written out where they occur
    ([minDistance] in [updateStringIndicators], the one-segment meter in
    [updateDisplay]).

    [autoCorrelate] picks a lag by comparing rounded quotients, so which
    lag wins can turn on the last bit.  The module [Binary64] therefore
    holds a second embedding of [autoCorrelate], on binary64 numbers with
    the IEEE operations ([+], [*], [/], [Math.sqrt], [>]), and what is
    stated about the lag that wins is stated there.

    State.  The module-level [let] variables and the DOM nodes the script
    writes to are the fields of one [Session] record, threaded through every
    function.  A [TypeError] escaping a function is the [Threw] outcome, which
    carries the state as the throw left it. *)

From Stdlib Require Import Floats.
From Stdlib Require Uint63.
From Stdlib Require Import Reals Lra Lia ZArith List String Bool.
Import ListNotations.

Open Scope R_scope.

(** ** Constants of the script *)

Record GuitarString := {
  gs_note : string;
  gs_octave : Z;
  gs_freq : R;
  gs_label : string
}.

Definition GUITAR_STRINGS : list GuitarString :=
  [ {| gs_note := "E"; gs_octave := 2; gs_freq := 82.41;  gs_label := "E2" |};
    {| gs_note := "A"; gs_octave := 2; gs_freq := 110.00; gs_label := "A" |};
    {| gs_note := "D"; gs_octave := 3; gs_freq := 146.83; gs_label := "D" |};
    {| gs_note := "G"; gs_octave := 3; gs_freq := 196.00; gs_label := "G" |};
    {| gs_note := "B"; gs_octave := 3; gs_freq := 246.94; gs_label := "B" |};
    {| gs_note := "E"; gs_octave := 4; gs_freq := 329.63; gs_label := "E4" |} ].

Definition NOTE_NAMES : list string :=
  ["C"; "C#"; "D"; "D#"; "E"; "F"; "F#"; "G"; "G#"; "A"; "A#"; "B"]%string.

Definition A4_FREQ : R := 440.
Definition A4_MIDI : R := 69.
Definition IN_TUNE_CENTS : Z := 5.
Definition MIN_VOLUME : R := 0.01.
Definition EMA_ALPHA : R := 0.2.

(** ** The [Math] functions the script calls *)

(** [a > b] and [a < b] on numbers, as booleans. *)
Definition Rgtb (a b : R) : bool := if Rlt_dec b a then true else false.
Definition Rltb (a b : R) : bool := if Rlt_dec a b then true else false.

(** [Math.floor]. *)
Definition Math_floor (x : R) : Z := Int_part x.

(** [Math.round]: the nearest integer, a half rounding up. *)
Definition Math_round (x : R) : Z := Int_part (x + / 2).

(** [Math.log2], for a positive argument; the frequency [detectPitch]
    hands to [updateDisplay] is positive (lemma
    [detectPitch_smoothed_positive]), and so is every string target. *)
Definition Math_log2 (x : R) : R := ln x / ln 2.

(** ** autoCorrelate *)

(** [buffer[i]] for an index inside the array; every read of
    [autoCorrelate] is (lemma [autoCorrelate_reads_in_range]). *)
Definition sample (buffer : list R) (i : Z) : R := nth (Z.to_nat i) buffer 0.

(** The three accumulators of the inner loop. *)
Record Sums := { sum : R; sumSq1 : R; sumSq2 : R }.

(** One pass of the inner loop body, at index [i]. *)
Definition accumulate (buffer : list R) (offset : Z) (acc : Sums) (i : nat) : Sums :=
  let val1 := sample buffer (Z.of_nat i) in
  let val2 := sample buffer (Z.of_nat i + offset) in
  {| sum := sum acc + val1 * val2;
     sumSq1 := sumSq1 acc + val1 * val1;
     sumSq2 := sumSq2 acc + val2 * val2 |}.

(** [for (let i = 0; i < MAX_SAMPLES - offset; i++)]. *)
Definition correlate (buffer : list R) (MAX_SAMPLES offset : Z) : Sums :=
  fold_left (accumulate buffer offset)
            (seq 0 (Z.to_nat (MAX_SAMPLES - offset)))
            {| sum := 0; sumSq1 := 0; sumSq2 := 0 |}.

(** [norm] and [correlation] of one lag. *)
Definition norm_at (buffer : list R) (MAX_SAMPLES offset : Z) : R :=
  let s := correlate buffer MAX_SAMPLES offset in sqrt (sumSq1 s * sumSq2 s).

Definition correlation_at (buffer : list R) (MAX_SAMPLES offset : Z) : R :=
  sum (correlate buffer MAX_SAMPLES offset) / norm_at buffer MAX_SAMPLES offset.

(** The two variables the outer loop updates. *)
Record Best := { bestOffset : Z; bestCorrelation : R }.

(** The body of the outer loop for one [offset]. *)
Definition scan_step (buffer : list R) (MAX_SAMPLES : Z) (b : Best) (offset : Z) : Best :=
  if Rgtb (norm_at buffer MAX_SAMPLES offset) 0 then
    let correlation := correlation_at buffer MAX_SAMPLES offset in
    if Rgtb correlation (bestCorrelation b)
    then {| bestOffset := offset; bestCorrelation := correlation |}
    else b
  else b.

(** The values [offset] takes in
    [for (let offset = lo; offset < hi; offset++)]. *)
Definition offsets (lo hi : Z) : list Z :=
  map (fun k => (lo + Z.of_nat k)%Z) (seq 0 (Z.to_nat (hi - lo))).

Definition MAX_SAMPLES_of (buffer : list R) : Z :=
  Math_floor (INR (List.length buffer) / 2).

Definition minPeriod_of (sampleRate : R) : Z := Math_floor (sampleRate / 400).
Definition maxPeriod_of (sampleRate : R) : Z := Math_floor (sampleRate / 80).

(** The state of [bestOffset], [bestCorrelation] when the outer loop ends. *)
Definition scan (buffer : list R) (sampleRate : R) : Best :=
  let MAX_SAMPLES := MAX_SAMPLES_of buffer in
  fold_left (scan_step buffer MAX_SAMPLES)
            (offsets (minPeriod_of sampleRate)
                     (Z.min MAX_SAMPLES (maxPeriod_of sampleRate)))
            {| bestOffset := -1; bestCorrelation := -1 |}.

Definition autoCorrelate (buffer : list R) (sampleRate : R) : R :=
  let b := scan buffer sampleRate in
  if Rgtb (bestCorrelation b) 0.2 && (0 <? bestOffset b)%Z
  then sampleRate / IZR (bestOffset b)
  else -1.

(** ** getNoteFromFrequency *)

Record NoteInfo := {
  ni_note : string;
  ni_octave : Z;
  ni_midi : Z;
  ni_cents : Z;
  ni_frequency : R
}.

(** [NOTE_NAMES[(roundedMidi % 12 + 12) % 12]]; [%] is the truncating
    remainder, [Z.rem]. *)
Definition noteIndex_of (roundedMidi : Z) : Z :=
  Z.rem (Z.rem roundedMidi 12 + 12) 12.

Definition getNoteFromFrequency (frequency : R) : NoteInfo :=
  let midiNote := 12 * Math_log2 (frequency / A4_FREQ) + A4_MIDI in
  let roundedMidi := Math_round midiNote in
  let cents := Math_round ((midiNote - IZR roundedMidi) * 100) in
  let noteIndex := noteIndex_of roundedMidi in
  let octave := (Math_floor (IZR roundedMidi / 12) - 1)%Z in
  {| ni_note := nth (Z.to_nat noteIndex) NOTE_NAMES ""%string;
     ni_octave := octave;
     ni_midi := roundedMidi;
     ni_cents := cents;
     ni_frequency := frequency |}.

(** The locked-mode deviation of [updateDisplay],
    [Math.round(1200 * Math.log2(frequency / lockedString.freq))]. *)
Definition lockedCents (frequency targetFreq : R) : Z :=
  Math_round (1200 * Math_log2 (frequency / targetFreq)).

(** [Math.abs(cents) <= IN_TUNE_CENTS]. *)
Definition isInTune_of (cents : Z) : bool := (Z.abs cents <=? IN_TUNE_CENTS)%Z.

(** ** The page *)

(** The classes the script toggles on one [.string] button. *)
Record StringButton := {
  btn_active : bool;
  btn_in_tune : bool;
  btn_locked : bool
}.

(** What [centsValueEl.textContent] holds: the literal ['0'] written by
    [resetDisplay] (and by the page before the first result), or a signed
    value, shown as [+c] when [c >= 0] and as [c] otherwise. *)
Inductive CentsText :=
| CentsReset
| CentsSigned (cents : Z).

(** What [statusEl] shows. *)
Inductive Status :=
| StatusEmpty
| StatusListening
| StatusDenied.

(** The module variables and the DOM state the script writes.
    - [noteText]: [None] is the dash placeholder;
    - [octaveText]: [None] is the empty string;
    - [hzText]: [None] is the dash, [Some f] is [f.toFixed(1)];
    - [segments]: the [active] class of each [.meter-segment], in document
      order;
    - [audioContext]: the open context, by its [sampleRate];
    - [scans]: a ghost counter, the number of calls of [autoCorrelate] so
      far. *)
Record Session := {
  audioContext : option R;
  mediaStream : bool;
  isListening : bool;
  animationId : option positive;
  nextFrame : positive;
  lockedStringIndex : option nat;
  smoothedFrequency : option R;
  noteText : option string;
  noteInTune : bool;
  octaveText : option Z;
  hzText : option R;
  centsText : CentsText;
  segments : list bool;
  stringButtons : list StringButton;
  startBtnListening : bool;
  status : Status;
  statusError : bool;
  scans : nat
}.

(** A call that returns, or a [TypeError] that escapes it; both carry the
    state at that point. *)
Inductive Outcome :=
| Done (s : Session)
| Threw (s : Session).

Definition state_of (o : Outcome) : Session :=
  match o with Done s => s | Threw s => s end.

Definition bind (o : Outcome) (k : Session -> Outcome) : Outcome :=
  match o with Done s => k s | Threw s => Threw s end.

(** Field updates. *)
Definition set_smoothedFrequency (v : option R) (s : Session) : Session :=
  {| audioContext := audioContext s; mediaStream := mediaStream s;
     isListening := isListening s; animationId := animationId s;
     nextFrame := nextFrame s; lockedStringIndex := lockedStringIndex s;
     smoothedFrequency := v;
     noteText := noteText s; noteInTune := noteInTune s;
     octaveText := octaveText s; hzText := hzText s; centsText := centsText s;
     segments := segments s; stringButtons := stringButtons s;
     startBtnListening := startBtnListening s; status := status s;
     statusError := statusError s; scans := scans s |}.

Definition set_lockedStringIndex (v : option nat) (s : Session) : Session :=
  {| audioContext := audioContext s; mediaStream := mediaStream s;
     isListening := isListening s; animationId := animationId s;
     nextFrame := nextFrame s; lockedStringIndex := v;
     smoothedFrequency := smoothedFrequency s;
     noteText := noteText s; noteInTune := noteInTune s;
     octaveText := octaveText s; hzText := hzText s; centsText := centsText s;
     segments := segments s; stringButtons := stringButtons s;
     startBtnListening := startBtnListening s; status := status s;
     statusError := statusError s; scans := scans s |}.

Definition set_noteInTune (v : bool) (s : Session) : Session :=
  {| audioContext := audioContext s; mediaStream := mediaStream s;
     isListening := isListening s; animationId := animationId s;
     nextFrame := nextFrame s; lockedStringIndex := lockedStringIndex s;
     smoothedFrequency := smoothedFrequency s;
     noteText := noteText s; noteInTune := v;
     octaveText := octaveText s; hzText := hzText s; centsText := centsText s;
     segments := segments s; stringButtons := stringButtons s;
     startBtnListening := startBtnListening s; status := status s;
     statusError := statusError s; scans := scans s |}.

Definition set_segments (v : list bool) (s : Session) : Session :=
  {| audioContext := audioContext s; mediaStream := mediaStream s;
     isListening := isListening s; animationId := animationId s;
     nextFrame := nextFrame s; lockedStringIndex := lockedStringIndex s;
     smoothedFrequency := smoothedFrequency s;
     noteText := noteText s; noteInTune := noteInTune s;
     octaveText := octaveText s; hzText := hzText s; centsText := centsText s;
     segments := v; stringButtons := stringButtons s;
     startBtnListening := startBtnListening s; status := status s;
     statusError := statusError s; scans := scans s |}.

Definition set_stringButtons (v : list StringButton) (s : Session) : Session :=
  {| audioContext := audioContext s; mediaStream := mediaStream s;
     isListening := isListening s; animationId := animationId s;
     nextFrame := nextFrame s; lockedStringIndex := lockedStringIndex s;
     smoothedFrequency := smoothedFrequency s;
     noteText := noteText s; noteInTune := noteInTune s;
     octaveText := octaveText s; hzText := hzText s; centsText := centsText s;
     segments := segments s; stringButtons := v;
     startBtnListening := startBtnListening s; status := status s;
     statusError := statusError s; scans := scans s |}.

(** The four text nodes, written together by [updateDisplay] and by
    [resetDisplay]. *)
Definition set_texts (n : option string) (o : option Z) (h : option R)
    (c : CentsText) (s : Session) : Session :=
  {| audioContext := audioContext s; mediaStream := mediaStream s;
     isListening := isListening s; animationId := animationId s;
     nextFrame := nextFrame s; lockedStringIndex := lockedStringIndex s;
     smoothedFrequency := smoothedFrequency s;
     noteText := n; noteInTune := noteInTune s;
     octaveText := o; hzText := h; centsText := c;
     segments := segments s; stringButtons := stringButtons s;
     startBtnListening := startBtnListening s; status := status s;
     statusError := statusError s; scans := scans s |}.

Definition set_scans (v : nat) (s : Session) : Session :=
  {| audioContext := audioContext s; mediaStream := mediaStream s;
     isListening := isListening s; animationId := animationId s;
     nextFrame := nextFrame s; lockedStringIndex := lockedStringIndex s;
     smoothedFrequency := smoothedFrequency s;
     noteText := noteText s; noteInTune := noteInTune s;
     octaveText := octaveText s; hzText := hzText s; centsText := centsText s;
     segments := segments s; stringButtons := stringButtons s;
     startBtnListening := startBtnListening s; status := status s;
     statusError := statusError s; scans := v |}.

(** [animationId = requestAnimationFrame(detectPitch)]: the browser hands
    out a fresh non-zero handle. *)
Definition requestFrame (s : Session) : Session :=
  {| audioContext := audioContext s; mediaStream := mediaStream s;
     isListening := isListening s; animationId := Some (nextFrame s);
     nextFrame := Pos.succ (nextFrame s);
     lockedStringIndex := lockedStringIndex s;
     smoothedFrequency := smoothedFrequency s;
     noteText := noteText s; noteInTune := noteInTune s;
     octaveText := octaveText s; hzText := hzText s; centsText := centsText s;
     segments := segments s; stringButtons := stringButtons s;
     startBtnListening := startBtnListening s; status := status s;
     statusError := statusError s; scans := scans s |}.

(** The capture handles and the start button, written by [startListening]
    and [stopListening]. *)
Definition set_capture (ctx : option R) (stream listening : bool)
    (frame : option positive) (s : Session) : Session :=
  {| audioContext := ctx; mediaStream := stream;
     isListening := listening; animationId := frame;
     nextFrame := nextFrame s; lockedStringIndex := lockedStringIndex s;
     smoothedFrequency := smoothedFrequency s;
     noteText := noteText s; noteInTune := noteInTune s;
     octaveText := octaveText s; hzText := hzText s; centsText := centsText s;
     segments := segments s; stringButtons := stringButtons s;
     startBtnListening := startBtnListening s; status := status s;
     statusError := statusError s; scans := scans s |}.

Definition set_status (st : Status) (err : bool) (s : Session) : Session :=
  {| audioContext := audioContext s; mediaStream := mediaStream s;
     isListening := isListening s; animationId := animationId s;
     nextFrame := nextFrame s; lockedStringIndex := lockedStringIndex s;
     smoothedFrequency := smoothedFrequency s;
     noteText := noteText s; noteInTune := noteInTune s;
     octaveText := octaveText s; hzText := hzText s; centsText := centsText s;
     segments := segments s; stringButtons := stringButtons s;
     startBtnListening := startBtnListening s; status := st;
     statusError := err; scans := scans s |}.

(** [updateUI]. *)
Definition updateUI (s : Session) : Session :=
  {| audioContext := audioContext s; mediaStream := mediaStream s;
     isListening := isListening s; animationId := animationId s;
     nextFrame := nextFrame s; lockedStringIndex := lockedStringIndex s;
     smoothedFrequency := smoothedFrequency s;
     noteText := noteText s; noteInTune := noteInTune s;
     octaveText := octaveText s; hzText := hzText s; centsText := centsText s;
     segments := segments s; stringButtons := stringButtons s;
     startBtnListening := isListening s; status := status s;
     statusError := statusError s; scans := scans s |}.

(** ** Painting the page *)

(** [list.forEach((x, index) => ...)] that rewrites each element. *)
Fixpoint mapi_from {A B : Type} (start : nat) (f : nat -> A -> B) (l : list A) : list B :=
  match l with
  | [] => []
  | x :: rest => f start x :: mapi_from (S start) f rest
  end.

Definition mapi {A B : Type} (f : nat -> A -> B) (l : list A) : list B :=
  mapi_from 0 f l.

(** [btn.classList.remove('active', 'in-tune')]. *)
Definition clear_button (b : StringButton) : StringButton :=
  {| btn_active := false; btn_in_tune := false; btn_locked := btn_locked b |}.

Definition add_active (b : StringButton) : StringButton :=
  {| btn_active := true; btn_in_tune := btn_in_tune b; btn_locked := btn_locked b |}.

Definition add_in_tune (b : StringButton) : StringButton :=
  {| btn_active := btn_active b; btn_in_tune := true; btn_locked := btn_locked b |}.

Definition set_locked (v : bool) (b : StringButton) : StringButton :=
  {| btn_active := btn_active b; btn_in_tune := btn_in_tune b; btn_locked := v |}.

(** [segments.forEach(seg => seg.classList.remove('active'))]. *)
Definition clear_segments (segs : list bool) : list bool := map (fun _ => false) segs.

(** [resetDisplay]. *)
Definition resetDisplay (s : Session) : Session :=
  let s := set_texts None None None CentsReset s in
  let s := set_noteInTune false s in
  let s := set_segments (clear_segments (segments s)) s in
  set_stringButtons (map clear_button (stringButtons s)) s.

(** The closest-string search of [updateStringIndicators]:
    [closestString] and [minDistance], where [None] for the distance is the
    initial [Infinity]. *)
Definition closest_step (frequency : R) (acc : option nat * option R)
    (entry : nat * GuitarString) : option nat * option R :=
  let centsFromString := 1200 * Math_log2 (frequency / gs_freq (snd entry)) in
  let distance := Rabs centsFromString in
  match snd acc with
  | None => (Some (fst entry), Some distance)
  | Some minDistance =>
      if Rltb distance minDistance
      then (Some (fst entry), Some distance)
      else acc
  end.

Definition closest (frequency : R) : option nat * option R :=
  fold_left (closest_step frequency)
            (combine (seq 0 (List.length GUITAR_STRINGS)) GUITAR_STRINGS)
            (None, None).

(** [minDistance < bound], false while [minDistance] is still [Infinity]. *)
Definition dist_below (minDistance : option R) (bound : R) : bool :=
  match minDistance with
  | None => false
  | Some d => Rltb d bound
  end.

Definition same_index (index : nat) (closestString : option nat) : bool :=
  match closestString with
  | None => false
  | Some c => (index =? c)%nat
  end.

(** [updateStringIndicators]. *)
Definition updateStringIndicators (frequency : R) (isInTune : bool) (s : Session) : Session :=
  match lockedStringIndex s with
  | Some locked =>
      set_stringButtons
        (mapi (fun index btn =>
                 let btn := clear_button btn in
                 if (index =? locked)%nat
                 then (if isInTune then add_in_tune btn else add_active btn)
                 else btn)
              (stringButtons s)) s
  | None =>
      let '(closestString, minDistance) := closest frequency in
      set_stringButtons
        (mapi (fun index btn =>
                 let btn := clear_button btn in
                 if same_index index closestString && dist_below minDistance 100
                 then (if isInTune && dist_below minDistance (IZR IN_TUNE_CENTS)
                       then add_in_tune btn else add_active btn)
                 else btn)
              (stringButtons s)) s
  end.

(** The meter after [updateDisplay]: every segment cleared, then the centre
    one lit when in tune, else the run between the centre (excluded) and
    [clampedSegmentIndex] (included), on the flat or on the sharp side. *)
Definition paint_meter (isInTune : bool) (centerIndex clampedSegmentIndex : Z)
    (segs : list bool) : list bool :=
  mapi (fun index _ =>
          let i := Z.of_nat index in
          if isInTune then (i =? centerIndex)%Z
          else if (clampedSegmentIndex <? centerIndex)%Z
               then (clampedSegmentIndex <=? i)%Z && (i <=? centerIndex - 1)%Z
               else (centerIndex + 1 <=? i)%Z && (i <=? clampedSegmentIndex)%Z)
       segs.

(** [segmentIndex] of [updateDisplay].  With a single segment the source
    divides by [100 / 0 = Infinity] and gets 0; [/ 0 = 0] in [R] gives the
    same 0. *)
Definition segmentIndex_of (clampedCents : Z) (numSegments : nat) : Z :=
  Math_round ((IZR clampedCents + 50) / (100 / (INR numSegments - 1))).

(** [updateDisplay].  [GUITAR_STRINGS[lockedStringIndex]] is [undefined]
    for an index past the table, and reading [.freq] of it throws. *)
Definition updateDisplay (frequency : R) (s : Session) : Outcome :=
  let mode :=
    match lockedStringIndex s with
    | Some locked =>
        match nth_error GUITAR_STRINGS locked with
        | Some lockedString =>
            Some (lockedCents frequency (gs_freq lockedString),
                  gs_note lockedString, gs_octave lockedString)
        | None => None
        end
    | None =>
        let noteInfo := getNoteFromFrequency frequency in
        Some (ni_cents noteInfo, ni_note noteInfo, ni_octave noteInfo)
    end in
  match mode with
  | None => Threw s
  | Some (cents, displayNote, displayOctave) =>
      let s := set_texts (Some displayNote) (Some displayOctave)
                         (Some frequency) (CentsSigned cents) s in
      let clampedCents := Z.max (-50) (Z.min 50 cents) in
      let numSegments := List.length (segments s) in
      if (numSegments =? 0)%nat then Done s
      else
        let segmentIndex := segmentIndex_of clampedCents numSegments in
        let clampedSegmentIndex :=
          Z.max 0 (Z.min (Z.of_nat numSegments - 1) segmentIndex) in
        let isInTune := isInTune_of cents in
        let centerIndex := Math_floor (INR numSegments / 2) in
        let s := set_segments
                   (paint_meter isInTune centerIndex clampedSegmentIndex (segments s)) s in
        let s := set_noteInTune isInTune s in
        Done (updateStringIndicators frequency isInTune s)
  end.

(** ** The session *)

(** The loop of [detectPitch] that sums the squares, then
    [Math.sqrt(rms / bufferLength)]. *)
Definition rms_of (buffer : list R) : R :=
  sqrt (fold_left (fun rms x => rms + x * x) buffer 0 / INR (List.length buffer)).

(** The EMA update of [detectPitch]. *)
Definition smooth (previous : option R) (frequency : R) : R :=
  match previous with
  | None => frequency
  | Some smoothed => EMA_ALPHA * frequency + (1 - EMA_ALPHA) * smoothed
  end.

(** One run of [detectPitch], [buffer] being what
    [analyser.getFloatTimeDomainData] delivers.  Reading [.sampleRate] of a
    null [audioContext] throws. *)
Definition detectPitch (buffer : list R) (s : Session) : Outcome :=
  if negb (isListening s) then Done s
  else if Rgtb (rms_of buffer) MIN_VOLUME then
    match audioContext s with
    | None => Threw s
    | Some sampleRate =>
        let frequency := autoCorrelate buffer sampleRate in
        let s := set_scans (S (scans s)) s in
        if Req_dec_T frequency (-1) then Done (requestFrame s)
        else
          let smoothed := smooth (smoothedFrequency s) frequency in
          let s := set_smoothedFrequency (Some smoothed) s in
          bind (updateDisplay smoothed s) (fun s => Done (requestFrame s))
    end
  else
    let s := set_smoothedFrequency None s in
    let s := set_noteInTune false s in
    let s := set_segments (clear_segments (segments s)) s in
    let s := set_stringButtons (map clear_button (stringButtons s)) s in
    Done (requestFrame s).

(** [stopListening]. *)
Definition stopListening (s : Session) : Session :=
  let s := set_capture None false false None s in
  let s := set_smoothedFrequency None s in
  let s := resetDisplay s in
  let s := updateUI s in
  set_status StatusEmpty (statusError s) s.

(** [startListening].  [mic] is what the browser answers: [None] when
    [getUserMedia] rejects, [Some sampleRate] when the stream and the audio
    context are obtained; [buffer] is the window read by the first
    [detectPitch].  The [catch] block also receives what [detectPitch]
    throws. *)
Definition startListening (mic : option R) (buffer : list R) (s : Session) : Session :=
  match mic with
  | None => set_status StatusDenied true s
  | Some sampleRate =>
      let s := set_capture (Some sampleRate) true true (animationId s) s in
      let s := updateUI s in
      let s := set_status StatusListening false s in
      match detectPitch buffer s with
      | Done s => s
      | Threw s => set_status StatusDenied true s
      end
  end.

(** [toggleListening]. *)
Definition toggleListening (mic : option R) (buffer : list R) (s : Session) : Session :=
  if isListening s then stopListening s else startListening mic buffer s.

(** [toggleStringLock].  [stringButtons[index]] of a missing button is
    [undefined], and reading [.classList] of it throws, after the index was
    cleared. *)
Definition toggleStringLock (index : nat) (s : Session) : Outcome :=
  match lockedStringIndex s with
  | Some locked =>
      if (locked =? index)%nat then
        let s := set_lockedStringIndex None s in
        if (index <? List.length (stringButtons s))%nat
        then Done (set_stringButtons
                     (mapi (fun i btn => if (i =? index)%nat then set_locked false btn else btn)
                           (stringButtons s)) s)
        else Threw s
      else
        let s := set_lockedStringIndex (Some index) s in
        Done (set_stringButtons
                (mapi (fun i btn => set_locked (i =? index)%nat btn) (stringButtons s)) s)
  | None =>
      let s := set_lockedStringIndex (Some index) s in
      Done (set_stringButtons
              (mapi (fun i btn => set_locked (i =? index)%nat btn) (stringButtons s)) s)
  end.

(** [n] runs of [detectPitch] on the same window; a throw ends the loop,
    as no next frame was requested. *)
Fixpoint ticks (n : nat) (buffer : list R) (s : Session) : Outcome :=
  match n with
  | O => Done s
  | S n' => bind (detectPitch buffer s) (ticks n' buffer)
  end.

(** ** The scan as the specification words it *)

(** [b] is what tracking the maximum over the lags of [[lo, hi)] leaves:
    either no lag with a positive norm has a correlation above the initial
    -1, and [b] is still the initial pair; or [bestOffset b] is a lag of the
    range with a positive norm, [bestCorrelation b] is its correlation, no
    lag of the range with a positive norm has a larger one, and every
    earlier such lag has a strictly smaller one (the first maximum wins). *)
Definition tracked (buffer : list R) (MAX_SAMPLES lo hi : Z) (b : Best) : Prop :=
  (bestOffset b = (-1)%Z /\ bestCorrelation b = -1 /\
   forall l, (lo <= l < hi)%Z -> 0 < norm_at buffer MAX_SAMPLES l ->
             correlation_at buffer MAX_SAMPLES l <= -1)
  \/
  ((lo <= bestOffset b < hi)%Z /\
   0 < norm_at buffer MAX_SAMPLES (bestOffset b) /\
   bestCorrelation b = correlation_at buffer MAX_SAMPLES (bestOffset b) /\
   -1 < bestCorrelation b /\
   (forall l, (lo <= l < hi)%Z -> 0 < norm_at buffer MAX_SAMPLES l ->
              correlation_at buffer MAX_SAMPLES l <= bestCorrelation b) /\
   (forall l, (lo <= l < bestOffset b)%Z -> 0 < norm_at buffer MAX_SAMPLES l ->
              correlation_at buffer MAX_SAMPLES l < bestCorrelation b)).

(** ** autoCorrelate over an arbitrary division

    The same function with [/] replaced by an operator [div], to state that
    the result does not depend on what a division by a non-positive number
    yields. *)
Section AnyDivision.

Variable div : R -> R -> R.

Definition scan_step_with (buffer : list R) (MAX_SAMPLES : Z) (b : Best) (offset : Z) : Best :=
  if Rgtb (norm_at buffer MAX_SAMPLES offset) 0 then
    let correlation :=
      div (sum (correlate buffer MAX_SAMPLES offset)) (norm_at buffer MAX_SAMPLES offset) in
    if Rgtb correlation (bestCorrelation b)
    then {| bestOffset := offset; bestCorrelation := correlation |}
    else b
  else b.

Definition scan_with (buffer : list R) (sampleRate : R) : Best :=
  let MAX_SAMPLES := MAX_SAMPLES_of buffer in
  fold_left (scan_step_with buffer MAX_SAMPLES)
            (offsets (minPeriod_of sampleRate)
                     (Z.min MAX_SAMPLES (maxPeriod_of sampleRate)))
            {| bestOffset := -1; bestCorrelation := -1 |}.

Definition autoCorrelate_with (buffer : list R) (sampleRate : R) : R :=
  let b := scan_with buffer sampleRate in
  if Rgtb (bestCorrelation b) 0.2 && (0 <? bestOffset b)%Z
  then div sampleRate (IZR (bestOffset b))
  else -1.

End AnyDivision.

(** ** Sample sessions and windows *)

(** A session in the middle of tuning, the context running at [sampleRate]:
    a reading is on the page, in tune, the centre segment lit. *)
Definition tuningSession (sampleRate : R) (lock : option nat) (smoothed : option R) : Session :=
  {| audioContext := Some sampleRate; mediaStream := true; isListening := true;
     animationId := Some 7%positive; nextFrame := 8%positive;
     lockedStringIndex := lock; smoothedFrequency := smoothed;
     noteText := Some "A"%string; noteInTune := true; octaveText := Some 2%Z;
     hzText := Some 110; centsText := CentsSigned 0;
     segments := repeat false 12 ++ true :: repeat false 12;
     stringButtons :=
       mapi (fun i _ => {| btn_active := false; btn_in_tune := (i =? 1)%nat;
                           btn_locked := same_index i lock |})
            GUITAR_STRINGS;
     startBtnListening := true; status := StatusListening; statusError := false;
     scans := 41 |}.

(** A window as the analyser delivers it, 4096 samples, whose first half is
    silent and whose second half is loud: the onset of a note.  The scan
    only reads the first [MAX_SAMPLES = 2048] samples. *)
Definition onsetWindow : list R := repeat 0 2048 ++ repeat 0.5 2048.

(** 4096 samples holding two clicks 441 samples apart: at 44100 Hz, a
    period of 10 ms. *)
Definition clickWindow : list R := 1 :: repeat 0 440 ++ 1 :: repeat 0 3654.

(** 4096 quiet samples, of RMS 0.001. *)
Definition hushWindow : list R := repeat 0.001 4096.

(** Four equal samples, for a scan at a very low sampling rate. *)
Definition flatWindow : list R := [1; 1; 1; 1].

(** [f 0 + ... + f (n - 1)], to evaluate the sums of [correlate]. *)
Fixpoint Rsum (f : nat -> R) (n : nat) : R :=
  match n with
  | O => 0
  | S k => Rsum f k + f k
  end.

(** [bestOffset] and [bestCorrelation] before the scan. *)
Definition initialBest : Best := {| bestOffset := -1; bestCorrelation := -1 |}.

(** The lock, when set, names one of the six strings. *)
Definition lock_ok (s : Session) : Prop :=
  forall i, lockedStringIndex s = Some i -> (i < List.length GUITAR_STRINGS)%nat.

(** The cents [updateDisplay] works with, before any clamping. *)
Definition cents_of (f : R) (s : Session) : option Z :=
  match lockedStringIndex s with
  | Some locked =>
      match nth_error GUITAR_STRINGS locked with
      | Some lockedString => Some (lockedCents f (gs_freq lockedString))
      | None => None
      end
  | None => Some (ni_cents (getNoteFromFrequency f))
  end.

(** * The rest of the page: meter, buttons, events *)

(** ** The segments [initializeMeter] creates *)

(** The six shades of a flat or sharp segment, [-1] to [-5] and
    [-extreme]. *)
Inductive Shade := Shade1 | Shade2 | Shade3 | Shade4 | Shade5 | ShadeExtreme.

(** The class a segment gets besides [meter-segment]. *)
Inductive SegmentClass :=
| Flat (shade : Shade)
| Center
| Sharp (shade : Shade).

Definition shadeSuffix (sh : Shade) : string :=
  match sh with
  | Shade1 => "1" | Shade2 => "2" | Shade3 => "3"
  | Shade4 => "4" | Shade5 => "5" | ShadeExtreme => "extreme"
  end.

Definition className (c : SegmentClass) : string :=
  match c with
  | Flat sh => "flat-" ++ shadeSuffix sh
  | Center => "center"
  | Sharp sh => "sharp-" ++ shadeSuffix sh
  end.

(** The chain of tests on the loop counter [i], the same in both loops. *)
Definition shade_of (i : nat) : Shade :=
  if (i =? 1)%nat then Shade1
  else if (i <=? 2)%nat then Shade2
  else if (i <=? 4)%nat then Shade3
  else if (i <=? 7)%nat then Shade4
  else if (i <=? 10)%nat then Shade5
  else ShadeExtreme.

(** The array [segments] of [initializeMeter]: the loop from 12 down to 1,
    the centre, the loop from 1 to 12. *)
Definition meterSegmentClasses : list SegmentClass :=
  map (fun i => Flat (shade_of i)) (rev (seq 1 12))
  ++ [Center]
  ++ map (fun i => Sharp (shade_of i)) (seq 1 12).

(** [initializeMeter]: the new segments, none of them active, are appended
    to the meter. *)
Definition initializeMeter (s : Session) : Session :=
  set_segments (segments s ++ map (fun _ => false) meterSegmentClasses) s.

(** A page on which the script has not run yet: no capture, no lock, no
    segment in the meter, [n] string buttons without any class. *)
Definition blankPage (n : nat) : Session :=
  {| audioContext := None; mediaStream := false; isListening := false;
     animationId := None; nextFrame := 1%positive;
     lockedStringIndex := None; smoothedFrequency := None;
     noteText := None; noteInTune := false; octaveText := None;
     hzText := None; centsText := CentsReset;
     segments := [];
     stringButtons :=
       repeat {| btn_active := false; btn_in_tune := false; btn_locked := false |} n;
     startBtnListening := false; status := StatusEmpty; statusError := false;
     scans := 0 |}.

(** ** The string buttons *)

(** The distance in cents between a frequency and a string, as
    [updateStringIndicators] computes it. *)
Definition stringDistance (frequency : R) (g : GuitarString) : R :=
  Rabs (1200 * Math_log2 (frequency / gs_freq g)).

(** ** Events *)

(** What the page reacts to: a click on the string button [index], a click
    on the start button (with the browser's answer [mic] and the first
    window read, should the click start a capture), and an animation frame
    (with the window the analyser delivers). *)
Inductive Event :=
| ClickString (index : nat)
| ClickStart (mic : option R) (buffer : list R)
| Frame (buffer : list R).

(** The handlers as the script wires them.  [initializeStringButtons]
    attaches [toggleStringLock(index)] to each existing button, so a click
    on a missing button does not exist; the frame callback runs only while
    a request is pending. *)
Definition handle (e : Event) (s : Session) : Outcome :=
  match e with
  | ClickString index =>
      if (index <? List.length (stringButtons s))%nat
      then toggleStringLock index s
      else Done s
  | ClickStart mic buffer => Done (toggleListening mic buffer s)
  | Frame buffer =>
      match animationId s with
      | Some _ => detectPitch buffer s
      | None => Done s
      end
  end.

Fixpoint run (events : list Event) (s : Session) : Outcome :=
  match events with
  | [] => Done s
  | e :: rest => bind (handle e s) (run rest)
  end.

(** The states the page is in between two events. *)
Record session_ok (s : Session) : Prop := {
  ok_context : isListening s = true -> audioContext s <> None;
  ok_frame : isListening s = true -> animationId s <> None;
  ok_idle : isListening s = false ->
            audioContext s = None /\ animationId s = None /\
            smoothedFrequency s = None;
  ok_buttons : (List.length (stringButtons s) <= List.length GUITAR_STRINGS)%nat;
  ok_lock : forall i, lockedStringIndex s = Some i ->
                      (i < List.length (stringButtons s))%nat;
  ok_locked_class : forall i b, nth_error (stringButtons s) i = Some b ->
                                btn_locked b = same_index i (lockedStringIndex s);
  ok_smoothed : forall x, smoothedFrequency s = Some x -> 80 < x
}.

(** ** Buttons keep their [locked] class *)

Definition locked_kept (before after : list StringButton) : Prop :=
  List.length after = List.length before /\
  forall i b', nth_error after i = Some b' ->
               exists b, nth_error before i = Some b /\ btn_locked b' = btn_locked b.

(** ** autoCorrelate on binary64 numbers

    [autoCorrelate] once more, this time on the numbers the script runs
    on: every [+], [*], [/], [Math.sqrt] and every comparison is the
    IEEE-754 binary64 operation, in the order the source evaluates them.
    Lags, loop counters and array lengths stay in [Z]: the source holds
    them as integers, exactly, since a lag that is scanned is below the
    array length. *)
Module Binary64.
Import PrimFloat FloatOps SpecFloat.
Local Open Scope float_scope.

(** [a > b] and [a >= b]; both are false when either side is NaN. *)
Definition gt (a b : float) : bool := b <? a.
Definition ge (a b : float) : bool := b <=? a.

(** [Math.floor] of a finite number [(-1)^s * m * 2^e]; [None] stands for
    NaN and the infinities, which [Math.floor] returns unchanged. *)
Definition Math_floor (x : float) : option Z :=
  match Prim2SF x with
  | S754_zero _ => Some 0%Z
  | S754_finite s m e => Some (Z.shiftl (cond_Zopp s (Zpos m)) e)
  | S754_infinity _ | S754_nan => None
  end.

(** The number holding the integer [z] (exact below [2^53]; the model is
    meant for integers below [2^63]). *)
Definition of_Z (z : Z) : float := of_uint63 (Uint63Axioms.of_Z z).

(** The value returned for "not found", the initial [bestCorrelation], and
    the threshold [0.2], which is the binary64 number
    [0x1.999999999999ap-3]. *)
Definition NOT_FOUND : float := -1.
Definition MIN_CORRELATION : float := 0x1.999999999999ap-3.

(** [buffer[i]]; outside the array the source reads [undefined], which
    every arithmetic operation turns into NaN. *)
Definition sample (buffer : list float) (i : Z) : float :=
  if (i <? 0)%Z then nan else nth (Z.to_nat i) buffer nan.

Record Sums := { sum : float; sumSq1 : float; sumSq2 : float }.

(** One pass of the inner loop body, at index [i]. *)
Definition accumulate (buffer : list float) (offset : Z) (acc : Sums) (i : nat) : Sums :=
  let val1 := sample buffer (Z.of_nat i) in
  let val2 := sample buffer (Z.of_nat i + offset) in
  {| sum := sum acc + val1 * val2;
     sumSq1 := sumSq1 acc + val1 * val1;
     sumSq2 := sumSq2 acc + val2 * val2 |}.

(** [for (let i = 0; i < MAX_SAMPLES - offset; i++)]. *)
Definition correlate (buffer : list float) (MAX_SAMPLES offset : Z) : Sums :=
  fold_left (accumulate buffer offset)
            (seq 0 (Z.to_nat (MAX_SAMPLES - offset)))
            {| sum := 0; sumSq1 := 0; sumSq2 := 0 |}.

Record Best := { bestOffset : Z; bestCorrelation : float }.

Definition initialBest : Best := {| bestOffset := -1; bestCorrelation := -1 |}.

(** The body of the outer loop for one [offset]. *)
Definition scan_step (buffer : list float) (MAX_SAMPLES : Z) (b : Best) (offset : Z) : Best :=
  let s := correlate buffer MAX_SAMPLES offset in
  let norm := sqrt (sumSq1 s * sumSq2 s) in
  if gt norm 0 then
    let correlation := sum s / norm in
    if gt correlation (bestCorrelation b)
    then {| bestOffset := offset; bestCorrelation := correlation |}
    else b
  else b.

(** [Math.floor(SIZE / 2)]; [SIZE / 2] is exact in binary64. *)
Definition MAX_SAMPLES_of (buffer : list float) : Z :=
  (Z.of_nat (List.length buffer) / 2)%Z.

(** The state of [bestOffset], [bestCorrelation] when the outer loop ends.
    When [sampleRate] is NaN or infinite so are both bounds, the loop
    condition [offset < Math.min(MAX_SAMPLES, maxPeriod)] is false at once
    and nothing is scanned. *)
Definition scan (buffer : list float) (sampleRate : float) : Best :=
  let MAX_SAMPLES := MAX_SAMPLES_of buffer in
  match Math_floor (sampleRate / 400), Math_floor (sampleRate / 80) with
  | Some minPeriod, Some maxPeriod =>
      fold_left (scan_step buffer MAX_SAMPLES)
                (offsets minPeriod (Z.min MAX_SAMPLES maxPeriod))
                initialBest
  | _, _ => initialBest
  end.

Definition autoCorrelate (buffer : list float) (sampleRate : float) : float :=
  let b := scan buffer sampleRate in
  if gt (bestCorrelation b) MIN_CORRELATION && (0 <? bestOffset b)%Z
  then sampleRate / of_Z (bestOffset b)
  else NOT_FOUND.

(** *** The scan as the specification words it *)

(** [f 0 + f 1 + ... + f (n - 1)], added up from the left starting from 0,
    each addition rounded. *)
Definition sum_upto (f : Z -> float) (n : Z) : float :=
  fold_left (fun acc i => acc + f (Z.of_nat i)) (seq 0 (Z.to_nat n)) 0.

(** The correlation of the window with itself shifted by [lag], over the
    indices [0 <= i < MAX_SAMPLES - lag], and the norm it is divided by. *)
Definition lag_product (buffer : list float) (MAX_SAMPLES lag : Z) : float :=
  sum_upto (fun i => sample buffer i * sample buffer (i + lag)) (MAX_SAMPLES - lag).

Definition lag_norm (buffer : list float) (MAX_SAMPLES lag : Z) : float :=
  sqrt (sum_upto (fun i => sample buffer i * sample buffer i) (MAX_SAMPLES - lag)
        * sum_upto (fun i => sample buffer (i + lag) * sample buffer (i + lag))
                   (MAX_SAMPLES - lag)).

Definition normalized_correlation (buffer : list float) (MAX_SAMPLES lag : Z) : float :=
  lag_product buffer MAX_SAMPLES lag / lag_norm buffer MAX_SAMPLES lag.

(** [b] is what tracking the maximum normalized correlation over the lags
    of [[lo, hi)] leaves.  Either no lag with a positive norm has a
    correlation above the initial -1, and [b] is still the initial pair
    (-1, -1).  Or [bestOffset b] is a lag of the range with a positive
    norm, [bestCorrelation b] is its normalized correlation, above -1; no
    lag of the range with a positive norm has a greater one; and no earlier
    such lag reaches it (the first maximum wins).  The comparisons are
    those of binary64: [x <? y] and [x <=? y] are false when either side is
    NaN. *)
Definition tracked (buffer : list float) (MAX_SAMPLES lo hi : Z) (b : Best) : Prop :=
  (bestOffset b = (-1)%Z /\ bestCorrelation b = -1 /\
   forall l, (lo <= l < hi)%Z -> (0 <? lag_norm buffer MAX_SAMPLES l) = true ->
             (-1 <? normalized_correlation buffer MAX_SAMPLES l) = false)
  \/
  ((lo <= bestOffset b < hi)%Z /\
   (0 <? lag_norm buffer MAX_SAMPLES (bestOffset b)) = true /\
   bestCorrelation b = normalized_correlation buffer MAX_SAMPLES (bestOffset b) /\
   (-1 <? bestCorrelation b) = true /\
   (forall l, (lo <= l < hi)%Z -> (0 <? lag_norm buffer MAX_SAMPLES l) = true ->
              (bestCorrelation b <? normalized_correlation buffer MAX_SAMPLES l) = false) /\
   (forall l, (lo <= l < bestOffset b)%Z -> (0 <? lag_norm buffer MAX_SAMPLES l) = true ->
              (bestCorrelation b <=? normalized_correlation buffer MAX_SAMPLES l) = false)).

(** The real number a finite binary64 number stands for,
    [(-1)^s * m * 2^e]. *)
Definition to_R (x : float) : R :=
  match Prim2SF x with
  | S754_finite s m e => (IZR (cond_Zopp s (Zpos m)) * powerRZ 2 e)%R
  | S754_zero _ | S754_infinity _ | S754_nan => 0%R
  end.

(** A window of sixteen samples, four values of the analyser (32-bit
    floats) repeated once and followed by silence; the third and fourth are
    three times the first and second, up to rounding. *)
Definition roundingWindow : list float :=
  [ -0x1.8ec6cp-4; -0x1.550ccap-7; -0x1.2b1510p-2; -0x1.ff9330p-6;
    -0x1.8ec6cp-4; -0x1.550ccap-7; -0x1.2b1510p-2; -0x1.ff9330p-6;
    0; 0; 0; 0; 0; 0; 0; 0 ].

(** The sign bit of a number; NaN has none. *)
Definition negative (x : float) : bool :=
  match Prim2SF x with
  | S754_zero s | S754_infinity s | S754_finite s _ _ => s
  | S754_nan => false
  end.

End Binary64.

(** * Properties *)

(** ** Comparisons, [Math.floor], [Math.round] *)

Lemma Rgtb_true (a b : R) : Rgtb a b = true <-> b < a.
Proof.
  unfold Rgtb. destruct (Rlt_dec b a); split; intros; congruence || assumption.
Qed.

Lemma Rgtb_false (a b : R) : Rgtb a b = false <-> a <= b.
Proof.
  unfold Rgtb. destruct (Rlt_dec b a); split; intros; try congruence; lra.
Qed.

Lemma Rltb_true (a b : R) : Rltb a b = true <-> a < b.
Proof.
  unfold Rltb. destruct (Rlt_dec a b); split; intros; congruence || assumption.
Qed.

Lemma Math_floor_bounds (x : R) :
  IZR (Math_floor x) <= x < IZR (Math_floor x) + 1.
Proof.
  unfold Math_floor. destruct (base_Int_part x). lra.
Qed.

Lemma Math_floor_unique (x : R) (z : Z) :
  IZR z <= x < IZR z + 1 -> Math_floor x = z.
Proof.
  intros H. unfold Math_floor. symmetry. apply Int_part_spec. lra.
Qed.

Lemma Math_floor_IZR (z : Z) : Math_floor (IZR z) = z.
Proof. apply Math_floor_unique. lra. Qed.

Lemma Math_floor_le (x y : R) : x <= y -> (Math_floor x <= Math_floor y)%Z.
Proof.
  intros H.
  pose proof (Math_floor_bounds x). pose proof (Math_floor_bounds y).
  apply Z.lt_succ_r. apply lt_IZR. rewrite succ_IZR. lra.
Qed.

Lemma Math_floor_ge (x : R) (z : Z) : IZR z <= x -> (z <= Math_floor x)%Z.
Proof.
  intros H. rewrite <- (Math_floor_IZR z). now apply Math_floor_le.
Qed.

Lemma Math_floor_lt (x : R) (z : Z) : x < IZR z -> (Math_floor x < z)%Z.
Proof.
  intros H. pose proof (Math_floor_bounds x). apply lt_IZR. lra.
Qed.

Lemma Math_floor_div (a b : Z) :
  (0 < b)%Z -> Math_floor (IZR a / IZR b) = (a / b)%Z.
Proof.
  intros Hb. apply Math_floor_unique.
  assert (Hb' : 0 < IZR b) by now apply IZR_lt.
  pose proof (Z.div_mod a b ltac:(lia)) as Hdm.
  pose proof (Z.mod_pos_bound a b Hb) as Hm.
  assert (Ha : IZR a = IZR b * IZR (a / b) + IZR (a mod b)).
  { rewrite <- mult_IZR, <- plus_IZR. now f_equal. }
  assert (Hm0 : 0 <= IZR (a mod b)) by (apply IZR_le; lia).
  assert (Hm1 : IZR (a mod b) < IZR b) by (apply IZR_lt; lia).
  split.
  - apply Rmult_le_reg_l with (IZR b); [assumption|].
    replace (IZR b * (IZR a / IZR b)) with (IZR a) by (field; lra). lra.
  - apply Rmult_lt_reg_l with (IZR b); [assumption|].
    replace (IZR b * (IZR a / IZR b)) with (IZR a) by (field; lra). lra.
Qed.

Lemma Math_round_bounds (x : R) :
  x - / 2 < IZR (Math_round x) <= x + / 2.
Proof.
  unfold Math_round. pose proof (Math_floor_bounds (x + / 2)) as H.
  unfold Math_floor in H. lra.
Qed.

Lemma Math_round_le (x y : R) : x <= y -> (Math_round x <= Math_round y)%Z.
Proof.
  intros H. unfold Math_round. apply (Math_floor_le (x + / 2) (y + / 2)). lra.
Qed.

Lemma Math_round_IZR (z : Z) : Math_round (IZR z) = z.
Proof.
  unfold Math_round. apply (Math_floor_unique (IZR z + / 2) z). lra.
Qed.

Lemma Math_round_0 : Math_round 0 = 0%Z.
Proof. exact (Math_round_IZR 0). Qed.

(** ** The lag range *)

Lemma offsets_empty (lo hi : Z) : (hi <= lo)%Z -> offsets lo hi = [].
Proof.
  intros H. unfold offsets. replace (Z.to_nat (hi - lo)) with O by lia. reflexivity.
Qed.

Lemma offsets_snoc (lo : Z) (n : nat) :
  offsets lo (lo + Z.of_nat (S n)) =
  offsets lo (lo + Z.of_nat n) ++ [(lo + Z.of_nat n)%Z].
Proof.
  unfold offsets.
  replace (Z.to_nat (lo + Z.of_nat (S n) - lo)) with (S n) by lia.
  replace (Z.to_nat (lo + Z.of_nat n - lo)) with n by lia.
  rewrite seq_S, map_app. reflexivity.
Qed.

Lemma offsets_In (lo hi o : Z) : In o (offsets lo hi) <-> (lo <= o < hi)%Z.
Proof.
  unfold offsets. rewrite in_map_iff. split.
  - intros [k [Hk Hin]]. apply in_seq in Hin. lia.
  - intros H. exists (Z.to_nat (o - lo)). split; [lia|]. apply in_seq. lia.
Qed.

Lemma MAX_SAMPLES_of_half (buffer : list R) :
  MAX_SAMPLES_of buffer = (Z.of_nat (List.length buffer) / 2)%Z.
Proof.
  unfold MAX_SAMPLES_of. rewrite INR_IZR_INZ.
  apply (Math_floor_div (Z.of_nat (List.length buffer)) 2). lia.
Qed.

(** A non-empty lag range starts at a lag that is not negative: a negative
    sampling rate makes [minPeriod] at least [maxPeriod]. *)
Lemma lag_range_nonneg (sampleRate : R) (hi : Z) :
  (minPeriod_of sampleRate < Z.min hi (maxPeriod_of sampleRate))%Z ->
  0 <= sampleRate /\ (0 <= minPeriod_of sampleRate)%Z.
Proof.
  intros H. unfold minPeriod_of, maxPeriod_of in *.
  assert (Hs : 0 <= sampleRate).
  { destruct (Rle_dec 0 sampleRate) as [|Hneg]; [assumption|]. exfalso.
    assert (Hle : sampleRate / 80 <= sampleRate / 400) by lra.
    apply Math_floor_le in Hle. lia. }
  split; [assumption|].
  apply (Math_floor_ge (sampleRate / 400) 0). lra.
Qed.

(** Every element the two loops read lies inside the buffer. *)
Lemma autoCorrelate_reads_in_range (buffer : list R) (sampleRate : R) (offset : Z) (i : nat) :
  In offset (offsets (minPeriod_of sampleRate)
                     (Z.min (MAX_SAMPLES_of buffer) (maxPeriod_of sampleRate))) ->
  In i (seq 0 (Z.to_nat (MAX_SAMPLES_of buffer - offset))) ->
  (0 <= Z.of_nat i < Z.of_nat (List.length buffer))%Z /\
  (0 <= Z.of_nat i + offset < Z.of_nat (List.length buffer))%Z.
Proof.
  intros Ho Hi. apply offsets_In in Ho. apply in_seq in Hi.
  assert (Hr : (minPeriod_of sampleRate <
                Z.min (MAX_SAMPLES_of buffer) (maxPeriod_of sampleRate))%Z) by lia.
  destruct (lag_range_nonneg _ _ Hr) as [_ Hlo].
  rewrite MAX_SAMPLES_of_half in *.
  pose proof (Z.mul_div_le (Z.of_nat (List.length buffer)) 2 ltac:(lia)).
  lia.
Qed.

(** ** The scan tracks the first maximum *)

Lemma scan_step_cases (buffer : list R) (M : Z) (b : Best) (o : Z) :
  (0 < norm_at buffer M o /\ bestCorrelation b < correlation_at buffer M o /\
   scan_step buffer M b o =
     {| bestOffset := o; bestCorrelation := correlation_at buffer M o |})
  \/ (0 < norm_at buffer M o /\ correlation_at buffer M o <= bestCorrelation b /\
      scan_step buffer M b o = b)
  \/ (norm_at buffer M o <= 0 /\ scan_step buffer M b o = b).
Proof.
  unfold scan_step.
  destruct (Rgtb (norm_at buffer M o) 0) eqn:Hn.
  - apply Rgtb_true in Hn.
    destruct (Rgtb (correlation_at buffer M o) (bestCorrelation b)) eqn:Hc.
    + apply Rgtb_true in Hc. left. auto.
    + apply Rgtb_false in Hc. right; left. auto.
  - apply Rgtb_false in Hn. right; right. auto.
Qed.

Lemma tracked_step (buffer : list R) (M lo : Z) (n : nat) (b : Best) :
  tracked buffer M lo (lo + Z.of_nat n) b ->
  tracked buffer M lo (lo + Z.of_nat (S n))
          (scan_step buffer M b (lo + Z.of_nat n)).
Proof.
  intros IH. set (o := (lo + Z.of_nat n)%Z) in *.
  assert (Hsplit : forall l, (lo <= l < lo + Z.of_nat (S n))%Z ->
                             (lo <= l < o)%Z \/ l = o) by (subst o; lia).
  destruct (scan_step_cases buffer M b o)
    as [[Hn [Hc Hs]] | [[Hn [Hc Hs]] | [Hn Hs]]]; rewrite Hs; clear Hs.
  - (* a new best *)
    right; simpl. destruct IH as [[_ [Hb Hall]] | [_ [_ [_ [Hgt [Hall _]]]]]].
    + repeat split; try (subst o; lia); try lra.
      * intros l Hl Hv. destruct (Hsplit l Hl) as [Hl' | ->]; [|lra].
        specialize (Hall l Hl' Hv). lra.
      * intros l Hl Hv. specialize (Hall l Hl Hv). lra.
    + repeat split; try (subst o; lia); try lra.
      * intros l Hl Hv. destruct (Hsplit l Hl) as [Hl' | ->]; [|lra].
        specialize (Hall l Hl' Hv). lra.
      * intros l Hl Hv. specialize (Hall l Hl Hv). lra.
  - (* not above the best so far *)
    destruct IH as [[Ho [Hb Hall]] | [Hr [Hv [He [Hgt [Hall Hfirst]]]]]].
    + left. repeat split; try assumption.
      intros l Hl Hvl. destruct (Hsplit l Hl) as [Hl' | ->]; [auto|lra].
    + right. repeat split; try assumption; try lia.
      intros l Hl Hvl. destruct (Hsplit l Hl) as [Hl' | ->]; [auto|lra].
  - (* skipped: the norm is not positive *)
    destruct IH as [[Ho [Hb Hall]] | [Hr [Hv [He [Hgt [Hall Hfirst]]]]]].
    + left. repeat split; try assumption.
      intros l Hl Hvl. destruct (Hsplit l Hl) as [Hl' | ->]; [auto|lra].
    + right. repeat split; try assumption; try lia.
      intros l Hl Hvl. destruct (Hsplit l Hl) as [Hl' | ->]; [auto|lra].
Qed.

Lemma tracked_prefix (buffer : list R) (M lo : Z) (n : nat) :
  tracked buffer M lo (lo + Z.of_nat n)
          (fold_left (scan_step buffer M) (offsets lo (lo + Z.of_nat n)) initialBest).
Proof.
  induction n as [|n IH].
  - rewrite offsets_empty by lia. left. simpl. repeat split. intros l Hl. lia.
  - rewrite offsets_snoc, fold_left_app. simpl. now apply tracked_step.
Qed.

Lemma scan_tracked (buffer : list R) (sampleRate : R) :
  tracked buffer (MAX_SAMPLES_of buffer) (minPeriod_of sampleRate)
          (Z.min (MAX_SAMPLES_of buffer) (maxPeriod_of sampleRate))
          (scan buffer sampleRate).
Proof.
  unfold scan. fold initialBest.
  set (M := MAX_SAMPLES_of buffer). set (lo := minPeriod_of sampleRate).
  set (hi := Z.min M (maxPeriod_of sampleRate)).
  destruct (Z.le_gt_cases hi lo) as [Hle|Hlt].
  - rewrite offsets_empty by assumption. left. simpl. repeat split. intros l Hl. lia.
  - replace hi with (lo + Z.of_nat (Z.to_nat (hi - lo)))%Z by lia.
    apply tracked_prefix.
Qed.

(** Whatever the window, an accepted lag is positive only at a positive
    sampling rate. *)
Lemma scan_positive_lag (buffer : list R) (sampleRate : R) :
  (0 < bestOffset (scan buffer sampleRate))%Z ->
  0 < sampleRate /\ 0 < norm_at buffer (MAX_SAMPLES_of buffer) (bestOffset (scan buffer sampleRate)).
Proof.
  intros Hpos.
  destruct (scan_tracked buffer sampleRate) as [[Ho _] | [Hr [Hv _]]]; [lia|].
  split; [|assumption].
  assert (H1 : (1 < maxPeriod_of sampleRate)%Z) by lia.
  unfold maxPeriod_of in H1.
  pose proof (Math_floor_bounds (sampleRate / 80)) as Hb.
  assert (IZR 1 < IZR (Math_floor (sampleRate / 80))) by now apply IZR_lt.
  lra.
Qed.

Lemma autoCorrelate_accepts (buffer : list R) (sampleRate : R) :
  0.2 < bestCorrelation (scan buffer sampleRate) ->
  (0 < bestOffset (scan buffer sampleRate))%Z ->
  autoCorrelate buffer sampleRate = sampleRate / IZR (bestOffset (scan buffer sampleRate)).
Proof.
  intros Hc Ho. unfold autoCorrelate.
  apply Rgtb_true in Hc. apply Z.ltb_lt in Ho. rewrite Hc, Ho. reflexivity.
Qed.

Lemma autoCorrelate_rejects (buffer : list R) (sampleRate : R) :
  ~ (0.2 < bestCorrelation (scan buffer sampleRate) /\
     (0 < bestOffset (scan buffer sampleRate))%Z) ->
  autoCorrelate buffer sampleRate = -1.
Proof.
  intros H. unfold autoCorrelate.
  destruct (Rgtb (bestCorrelation (scan buffer sampleRate)) 0.2) eqn:Hc; [|reflexivity].
  destruct (0 <? bestOffset (scan buffer sampleRate))%Z eqn:Ho; [|reflexivity].
  exfalso. apply H. split; [now apply Rgtb_true | now apply Z.ltb_lt].
Qed.

Lemma autoCorrelate_found_positive (buffer : list R) (sampleRate : R) :
  (0 < bestOffset (scan buffer sampleRate))%Z ->
  0 < sampleRate / IZR (bestOffset (scan buffer sampleRate)).
Proof.
  intros Ho. destruct (scan_positive_lag buffer sampleRate Ho) as [Hs _].
  apply Rdiv_lt_0_compat; [assumption | now apply (IZR_lt 0)].
Qed.

(** ** The divisions are guarded *)

Lemma scan_step_with_eq (div : R -> R -> R) (buffer : list R) (M : Z) (b : Best) (o : Z) :
  (forall x y, 0 < y -> div x y = x / y) ->
  scan_step_with div buffer M b o = scan_step buffer M b o.
Proof.
  intros Hdiv. unfold scan_step_with, scan_step, correlation_at.
  destruct (Rgtb (norm_at buffer M o) 0) eqn:Hn; [|reflexivity].
  apply Rgtb_true in Hn. rewrite (Hdiv _ _ Hn). reflexivity.
Qed.

Lemma scan_with_eq (div : R -> R -> R) (buffer : list R) (sampleRate : R) :
  (forall x y, 0 < y -> div x y = x / y) ->
  scan_with div buffer sampleRate = scan buffer sampleRate.
Proof.
  intros Hdiv. unfold scan_with, scan.
  generalize {| bestOffset := -1; bestCorrelation := -1 |}.
  induction (offsets (minPeriod_of sampleRate)
                     (Z.min (MAX_SAMPLES_of buffer) (maxPeriod_of sampleRate)))
    as [|o os IH]; intros b; simpl; [reflexivity|].
  rewrite (scan_step_with_eq div _ _ _ _ Hdiv). apply IH.
Qed.

Lemma autoCorrelate_with_eq (div : R -> R -> R) (buffer : list R) (sampleRate : R) :
  (forall x y, 0 < y -> div x y = x / y) ->
  autoCorrelate_with div buffer sampleRate = autoCorrelate buffer sampleRate.
Proof.
  intros Hdiv. unfold autoCorrelate_with, autoCorrelate.
  rewrite (scan_with_eq div _ _ Hdiv).
  destruct (Rgtb (bestCorrelation (scan buffer sampleRate)) 0.2); [|reflexivity].
  destruct (0 <? bestOffset (scan buffer sampleRate))%Z eqn:Ho; [|reflexivity].
  simpl. apply Hdiv. apply Z.ltb_lt in Ho. now apply (IZR_lt 0).
Qed.

Lemma autoCorrelate_empty_range (buffer : list R) (sampleRate : R) :
  (Z.min (MAX_SAMPLES_of buffer) (maxPeriod_of sampleRate) <= minPeriod_of sampleRate)%Z ->
  autoCorrelate buffer sampleRate = -1.
Proof.
  intros H. apply autoCorrelate_rejects. intros [_ Ho].
  destruct (scan_tracked buffer sampleRate) as [[Hb _] | [Hr _]]; lia.
Qed.

(** C10.  [autoCorrelate] is a total function whose value is -1 or a
    positive number.  Its divisions are guarded: replacing [/] by any
    operator that agrees with it on positive divisors leaves the result
    unchanged, so no quotient by a non-positive norm or lag is ever used;
    an accepted lag is positive and has a positive norm.  An empty lag range
    and a best lag that is not positive (lag 0 included) both give -1. *)
Theorem autoCorrelate_total_guarded (buffer : list R) (sampleRate : R) :
  (autoCorrelate buffer sampleRate = -1 \/ 0 < autoCorrelate buffer sampleRate) /\
  (forall div : R -> R -> R,
      (forall x y, 0 < y -> div x y = x / y) ->
      autoCorrelate_with div buffer sampleRate = autoCorrelate buffer sampleRate) /\
  (autoCorrelate buffer sampleRate <> -1 ->
   (0 < bestOffset (scan buffer sampleRate))%Z /\
   0 < norm_at buffer (MAX_SAMPLES_of buffer) (bestOffset (scan buffer sampleRate)) /\
   0 < sampleRate) /\
  ((Z.min (MAX_SAMPLES_of buffer) (maxPeriod_of sampleRate) <= minPeriod_of sampleRate)%Z ->
   autoCorrelate buffer sampleRate = -1) /\
  ((bestOffset (scan buffer sampleRate) <= 0)%Z -> autoCorrelate buffer sampleRate = -1).
Proof.
  assert (Hcases : (0.2 < bestCorrelation (scan buffer sampleRate) /\
                    (0 < bestOffset (scan buffer sampleRate))%Z) \/
                   autoCorrelate buffer sampleRate = -1).
  { destruct (Rlt_dec 0.2 (bestCorrelation (scan buffer sampleRate))) as [Hc|Hc];
      [|right; apply autoCorrelate_rejects; tauto].
    destruct (Z.lt_ge_cases 0 (bestOffset (scan buffer sampleRate))) as [Ho|Ho];
      [left; auto | right; apply autoCorrelate_rejects; lia]. }
  repeat split.
  - destruct Hcases as [[Hc Ho] | ->]; [right | now left].
    rewrite (autoCorrelate_accepts _ _ Hc Ho). now apply autoCorrelate_found_positive.
  - intros div. apply autoCorrelate_with_eq.
  - destruct Hcases as [[_ Ho] | ?]; [assumption | contradiction].
  - destruct Hcases as [[_ Ho] | ?]; [| contradiction].
    now apply scan_positive_lag.
  - destruct Hcases as [[_ Ho] | ?]; [| contradiction].
    now apply (scan_positive_lag buffer sampleRate).
  - apply autoCorrelate_empty_range.
  - intros Ho. apply autoCorrelate_rejects. lia.
Qed.

(** ** Silence *)

Lemma sample_silent (buffer : list R) (i : Z) :
  Forall (fun x => x = 0) buffer -> sample buffer i = 0.
Proof.
  intros H. unfold sample.
  destruct (nth_in_or_default (Z.to_nat i) buffer 0) as [Hin | ->]; [|reflexivity].
  rewrite Forall_forall in H. now apply H.
Qed.

Lemma correlate_silent (buffer : list R) (M offset : Z) :
  Forall (fun x => x = 0) buffer ->
  correlate buffer M offset = {| sum := 0; sumSq1 := 0; sumSq2 := 0 |}.
Proof.
  intros H. unfold correlate.
  induction (seq 0 (Z.to_nat (M - offset))) as [|i l IH]; simpl; [reflexivity|].
  unfold accumulate at 2. simpl. rewrite !(sample_silent buffer _ H).
  replace (0 + 0 * 0) with 0 by ring. exact IH.
Qed.

Lemma norm_at_silent (buffer : list R) (M offset : Z) :
  Forall (fun x => x = 0) buffer -> norm_at buffer M offset = 0.
Proof.
  intros H. unfold norm_at. rewrite (correlate_silent _ _ _ H). simpl.
  rewrite Rmult_0_l. apply sqrt_0.
Qed.

Lemma scan_silent (buffer : list R) (sampleRate : R) :
  Forall (fun x => x = 0) buffer -> scan buffer sampleRate = initialBest.
Proof.
  intros H. unfold scan. fold initialBest. generalize initialBest.
  induction (offsets (minPeriod_of sampleRate)
                     (Z.min (MAX_SAMPLES_of buffer) (maxPeriod_of sampleRate)))
    as [|o os IH]; intros b; simpl; [reflexivity|].
  rewrite IH. unfold scan_step. rewrite (norm_at_silent _ _ _ H).
  replace (Rgtb 0 0) with false; [reflexivity|].
  symmetry. apply Rgtb_false. lra.
Qed.

(** C8.  On a window of zeros, the empty window included, every lag has a
    zero norm and is skipped, the scan ends on its initial pair and
    [autoCorrelate], a total function, returns -1. *)
Theorem autoCorrelate_silent_not_found (buffer : list R) (sampleRate : R) :
  Forall (fun x => x = 0) buffer ->
  (forall offset, norm_at buffer (MAX_SAMPLES_of buffer) offset = 0) /\
  (forall b offset, scan_step buffer (MAX_SAMPLES_of buffer) b offset = b) /\
  scan buffer sampleRate = initialBest /\
  autoCorrelate buffer sampleRate = -1.
Proof.
  intros H. split; [intros; now apply norm_at_silent|].
  split.
  { intros b o. unfold scan_step. rewrite (norm_at_silent _ _ _ H).
    replace (Rgtb 0 0) with false; [reflexivity|].
    symmetry. apply Rgtb_false. lra. }
  split; [now apply scan_silent|].
  apply autoCorrelate_rejects. rewrite (scan_silent _ _ H). simpl. lra.
Qed.

Lemma autoCorrelate_silent_not_found_witness :
  autoCorrelate [] 44100 = -1 /\ autoCorrelate [0; 0; 0; 0] 44100 = -1.
Proof.
  split.
  - apply (autoCorrelate_silent_not_found [] 44100). constructor.
  - apply (autoCorrelate_silent_not_found [0; 0; 0; 0] 44100).
    repeat constructor.
Defined.

(** ** Note mapping *)

Lemma ln_2_positive : 0 < ln 2.
Proof. rewrite <- ln_1. apply ln_increasing; lra. Qed.

Lemma Math_log2_1 : Math_log2 1 = 0.
Proof. unfold Math_log2. rewrite ln_1. lra. Qed.

Lemma Math_log2_le (x y : R) : 0 < x -> x <= y -> Math_log2 x <= Math_log2 y.
Proof.
  intros Hx Hxy. unfold Math_log2. pose proof ln_2_positive as H2.
  apply Rmult_le_compat_r; [left; now apply Rinv_0_lt_compat|].
  destruct Hxy as [Hlt | ->]; [left; now apply ln_increasing | right; reflexivity].
Qed.

Lemma noteIndex_of_mod (m : Z) : noteIndex_of m = (m mod 12)%Z.
Proof.
  unfold noteIndex_of. Z.to_euclidean_division_equations. lia.
Qed.

Lemma noteIndex_of_range (m : Z) : (0 <= noteIndex_of m < 12)%Z.
Proof. rewrite noteIndex_of_mod. apply Z.mod_pos_bound. lia. Qed.

Lemma note_name_defined (m : Z) :
  nth_error NOTE_NAMES (Z.to_nat (noteIndex_of m)) =
  Some (nth (Z.to_nat (noteIndex_of m)) NOTE_NAMES ""%string).
Proof.
  apply nth_error_nth'. pose proof (noteIndex_of_range m) as H.
  change (List.length NOTE_NAMES) with 12%nat. lia.
Qed.

Lemma cents_in_range (midiNote : R) :
  (-50 <= Math_round ((midiNote - IZR (Math_round midiNote)) * 100) <= 50)%Z.
Proof.
  pose proof (Math_round_bounds midiNote) as Hm.
  pose proof (Math_round_bounds ((midiNote - IZR (Math_round midiNote)) * 100)) as Hc.
  split.
  - apply Z.lt_pred_le. apply lt_IZR. simpl. lra.
  - apply Z.lt_succ_r. apply lt_IZR. simpl. lra.
Qed.

Lemma getNoteFromFrequency_A4 :
  getNoteFromFrequency 440 =
  {| ni_note := "A"; ni_octave := 4; ni_midi := 69; ni_cents := 0; ni_frequency := 440 |}.
Proof.
  unfold getNoteFromFrequency, A4_FREQ, A4_MIDI.
  replace (440 / 440) with 1 by (field; lra).
  rewrite Math_log2_1.
  replace (12 * 0 + 69) with (IZR 69) by lra.
  rewrite Math_round_IZR.
  replace ((IZR 69 - IZR 69) * 100) with 0 by lra.
  rewrite Math_round_0.
  rewrite (Math_floor_div 69 12) by lia.
  reflexivity.
Qed.

(** C3.  For a positive frequency [f], with
    [midi = 12 * log2(f / 440) + 69] and [roundedMidi = round(midi)]:
    the result holds [roundedMidi], the cents
    [round((midi - roundedMidi) * 100)], the entry of the chromatic table
    (C first) at [((roundedMidi % 12) + 12) % 12], which is
    [roundedMidi mod 12] and always a valid index, and the octave
    [floor(roundedMidi / 12) - 1]; the cents lie in [[-50, 50]]; and 440 Hz
    is A, octave 4, 0 cents. *)
Theorem getNoteFromFrequency_spec (f : R) :
  0 < f ->
  let midi := 12 * (ln (f / 440) / ln 2) + 69 in
  let roundedMidi := Math_round midi in
  let info := getNoteFromFrequency f in
  ni_midi info = roundedMidi /\
  ni_cents info = Math_round ((midi - IZR roundedMidi) * 100) /\
  noteIndex_of roundedMidi = (roundedMidi mod 12)%Z /\
  nth_error ["C"; "C#"; "D"; "D#"; "E"; "F"; "F#"; "G"; "G#"; "A"; "A#"; "B"]%string
            (Z.to_nat (roundedMidi mod 12)) = Some (ni_note info) /\
  ni_octave info = (roundedMidi / 12 - 1)%Z /\
  (-50 <= ni_cents info <= 50)%Z /\
  (ni_note (getNoteFromFrequency 440) = "A"%string /\
   ni_octave (getNoteFromFrequency 440) = 4%Z /\
   ni_cents (getNoteFromFrequency 440) = 0%Z).
Proof.
  intros _. cbv zeta.
  split; [reflexivity|]. split; [reflexivity|].
  split; [apply noteIndex_of_mod|].
  split.
  { rewrite <- noteIndex_of_mod. apply note_name_defined. }
  split.
  { unfold getNoteFromFrequency; simpl. rewrite (Math_floor_div _ 12) by lia. reflexivity. }
  split; [apply cents_in_range|].
  rewrite getNoteFromFrequency_A4. simpl. auto.
Qed.

Lemma getNoteFromFrequency_spec_witness :
  ni_midi (getNoteFromFrequency 440) = Math_round (12 * (ln (440 / 440) / ln 2) + 69) /\
  (-50 <= ni_cents (getNoteFromFrequency 440) <= 50)%Z.
Proof.
  assert (H : 0 < 440) by lra.
  split; apply (getNoteFromFrequency_spec 440 H).
Defined.

(** ** Locked-mode deviation *)

Lemma GUITAR_STRINGS_positive (i : nat) (g : GuitarString) :
  nth_error GUITAR_STRINGS i = Some g -> 0 < gs_freq g.
Proof.
  intros H. apply nth_error_In in H. simpl in H.
  repeat (destruct H as [<- | H]; [simpl; lra|]). contradiction.
Qed.

(** C7.  For a positive target: the locked-mode cents
    [round(1200 * log2(f / target))] are 0 at [f = target], and do not
    decrease when the positive frequency [f] increases. *)
Theorem lockedCents_zero_monotone (targetFreq : R) :
  0 < targetFreq ->
  lockedCents targetFreq targetFreq = 0%Z /\
  forall f1 f2, 0 < f1 -> f1 <= f2 ->
                (lockedCents f1 targetFreq <= lockedCents f2 targetFreq)%Z.
Proof.
  intros Ht. split.
  - unfold lockedCents. replace (targetFreq / targetFreq) with 1 by (field; lra).
    rewrite Math_log2_1, Rmult_0_r. apply Math_round_0.
  - intros f1 f2 H1 H12. unfold lockedCents. apply Math_round_le.
    apply Rmult_le_compat_l; [lra|].
    apply Math_log2_le.
    + now apply Rdiv_lt_0_compat.
    + apply Rmult_le_compat_r; [left; now apply Rinv_0_lt_compat | assumption].
Qed.

Lemma lockedCents_zero_monotone_witness :
  lockedCents 110 110 = 0%Z /\ (lockedCents 100 110 <= lockedCents 120 110)%Z.
Proof.
  assert (Ht : 0 < 110) by lra.
  split.
  - apply (lockedCents_zero_monotone 110 Ht).
  - apply (lockedCents_zero_monotone 110 Ht); lra.
Defined.

(** ** The in-tune test *)

Lemma isInTune_of_iff (cents : Z) :
  isInTune_of cents = true <-> (-5 <= cents <= 5)%Z.
Proof.
  unfold isInTune_of, IN_TUNE_CENTS. rewrite Z.leb_le. lia.
Qed.

(** ** What [updateDisplay] writes *)

Lemma updateStringIndicators_frame (f : R) (t : bool) (s : Session) :
  let s' := updateStringIndicators f t s in
  audioContext s' = audioContext s /\ isListening s' = isListening s /\
  lockedStringIndex s' = lockedStringIndex s /\
  smoothedFrequency s' = smoothedFrequency s /\ scans s' = scans s /\
  animationId s' = animationId s /\ nextFrame s' = nextFrame s /\
  noteText s' = noteText s /\ octaveText s' = octaveText s /\
  hzText s' = hzText s /\ centsText s' = centsText s /\
  noteInTune s' = noteInTune s /\ segments s' = segments s.
Proof.
  unfold updateStringIndicators.
  destruct (lockedStringIndex s) eqn:Hl; [|destruct (closest f)];
    simpl; rewrite ?Hl; repeat split; reflexivity.
Qed.

Ltac split_updateDisplay f s :=
  unfold updateDisplay;
  let Hl := fresh "Hlock" in
  let Hg := fresh "Hstring" in
  let Hn := fresh "Hsegs" in
  destruct (lockedStringIndex s) as [?locked|] eqn:Hl;
  [destruct (nth_error GUITAR_STRINGS locked) as [?lockedString|] eqn:Hg|];
  simpl;
  try match goal with
      | |- context [(?n =? 0)%nat] => destruct (n =? 0)%nat eqn:Hn; simpl
      end.

Lemma updateDisplay_frame (f : R) (s : Session) :
  let s' := state_of (updateDisplay f s) in
  audioContext s' = audioContext s /\ isListening s' = isListening s /\
  lockedStringIndex s' = lockedStringIndex s /\
  smoothedFrequency s' = smoothedFrequency s /\ scans s' = scans s /\
  animationId s' = animationId s /\ nextFrame s' = nextFrame s.
Proof.
  split_updateDisplay f s; rewrite ?Hlock; try (repeat split; reflexivity);
    match goal with
    | |- context [updateStringIndicators ?f ?t ?s0] =>
        pose proof (updateStringIndicators_frame f t s0) as H; simpl in H;
        decompose [and] H; repeat split; try congruence
    end.
Qed.

Lemma updateDisplay_done (f : R) (s : Session) :
  lock_ok s -> exists s', updateDisplay f s = Done s'.
Proof.
  intros Hok. split_updateDisplay f s; try (eexists; reflexivity).
  exfalso. apply nth_error_None in Hstring. specialize (Hok _ Hlock). lia.
Qed.

Lemma updateDisplay_cents (f : R) (s : Session) (cents : Z) :
  cents_of f s = Some cents ->
  exists s', updateDisplay f s = Done s' /\
             centsText s' = CentsSigned cents /\
             hzText s' = Some f /\
             (segments s <> [] ->
              noteInTune s' = isInTune_of cents /\
              segments s' =
                paint_meter (isInTune_of cents)
                  (Math_floor (INR (List.length (segments s)) / 2))
                  (Z.max 0 (Z.min (Z.of_nat (List.length (segments s)) - 1)
                     (segmentIndex_of (Z.max (-50) (Z.min 50 cents))
                                      (List.length (segments s)))))
                  (segments s)).
Proof.
  unfold cents_of. intros Hc.
  split_updateDisplay f s; try discriminate; injection Hc as <-;
    eexists; (split; [reflexivity|]); simpl;
    try (split; [reflexivity|]; split; [reflexivity|]; intros Hne;
         apply Nat.eqb_eq in Hsegs; destruct (segments s); [contradiction|discriminate]).
  - match goal with
    | |- context [updateStringIndicators ?f ?t ?s0] =>
        pose proof (updateStringIndicators_frame f t s0) as H; simpl in H;
        decompose [and] H
    end.
    repeat split; congruence.
  - match goal with
    | |- context [updateStringIndicators ?f ?t ?s0] =>
        pose proof (updateStringIndicators_frame f t s0) as H; simpl in H;
        decompose [and] H
    end.
    repeat split; congruence.
Qed.

(** ** The three branches of [detectPitch] *)

Lemma detectPitch_idle (buffer : list R) (s : Session) :
  isListening s = false -> detectPitch buffer s = Done s.
Proof. intros H. unfold detectPitch. rewrite H. reflexivity. Qed.

Lemma detectPitch_below_gate (buffer : list R) (s : Session) :
  isListening s = true -> rms_of buffer <= MIN_VOLUME ->
  detectPitch buffer s =
  Done (requestFrame
          (set_stringButtons (map clear_button (stringButtons s))
             (set_segments (clear_segments (segments s))
                (set_noteInTune false (set_smoothedFrequency None s))))).
Proof.
  intros Hl Hr. unfold detectPitch. rewrite Hl. simpl.
  apply Rgtb_false in Hr. rewrite Hr. reflexivity.
Qed.

Lemma detectPitch_no_pitch (buffer : list R) (s : Session) (sampleRate : R) :
  isListening s = true -> audioContext s = Some sampleRate ->
  MIN_VOLUME < rms_of buffer -> autoCorrelate buffer sampleRate = -1 ->
  detectPitch buffer s = Done (requestFrame (set_scans (S (scans s)) s)).
Proof.
  intros Hl Ha Hr Hf. unfold detectPitch. rewrite Hl, Ha. simpl.
  apply Rgtb_true in Hr. rewrite Hr.
  destruct (Req_dec_T (autoCorrelate buffer sampleRate) (-1)); [reflexivity|contradiction].
Qed.

Lemma detectPitch_pitch (buffer : list R) (s : Session) (sampleRate : R) :
  isListening s = true -> audioContext s = Some sampleRate ->
  MIN_VOLUME < rms_of buffer -> autoCorrelate buffer sampleRate <> -1 ->
  detectPitch buffer s =
  let smoothed := smooth (smoothedFrequency s) (autoCorrelate buffer sampleRate) in
  bind (updateDisplay smoothed
          (set_smoothedFrequency (Some smoothed) (set_scans (S (scans s)) s)))
       (fun s => Done (requestFrame s)).
Proof.
  intros Hl Ha Hr Hf. unfold detectPitch. rewrite Hl, Ha. simpl.
  apply Rgtb_true in Hr. rewrite Hr.
  destruct (Req_dec_T (autoCorrelate buffer sampleRate) (-1)); [contradiction|reflexivity].
Qed.

(** The state a tick with a pitch leaves; the tick returns when the lock is
    valid. *)
Lemma detectPitch_pitch_state (buffer : list R) (s : Session) (sampleRate : R) :
  isListening s = true -> audioContext s = Some sampleRate ->
  MIN_VOLUME < rms_of buffer -> autoCorrelate buffer sampleRate <> -1 ->
  let s' := state_of (detectPitch buffer s) in
  smoothedFrequency s' =
    Some (smooth (smoothedFrequency s) (autoCorrelate buffer sampleRate)) /\
  isListening s' = true /\ audioContext s' = Some sampleRate /\
  lockedStringIndex s' = lockedStringIndex s /\
  scans s' = S (scans s) /\
  (lock_ok s -> detectPitch buffer s = Done s').
Proof.
  intros Hl Ha Hr Hf. rewrite (detectPitch_pitch _ _ _ Hl Ha Hr Hf). cbv zeta.
  set (sm := smooth (smoothedFrequency s) (autoCorrelate buffer sampleRate)).
  set (s1 := set_smoothedFrequency (Some sm) (set_scans (S (scans s)) s)).
  pose proof (updateDisplay_frame sm s1) as Hfr. cbv zeta in Hfr.
  destruct Hfr as [Hctx [Hlis [Hlock [Hsm [Hsc _]]]]].
  assert (Hok : lock_ok s -> exists s2, updateDisplay sm s1 = Done s2).
  { intros Hok. apply updateDisplay_done. exact Hok. }
  destruct (updateDisplay sm s1) as [s2|s2]; simpl in *.
  - repeat split; try congruence.
  - repeat split; try congruence.
    intros Hok'. destruct (Hok Hok') as [s3 H3]. discriminate.
Qed.

(** ** The volume gate *)

Lemma sum_squares_silent (buffer : list R) :
  Forall (fun x => x = 0) buffer ->
  fold_left (fun rms x => rms + x * x) buffer 0 = 0.
Proof.
  induction 1 as [|x l Hx _ IH]; simpl; [reflexivity|].
  subst x. replace (0 + 0 * 0) with 0 by ring. exact IH.
Qed.

Lemma rms_of_silent (buffer : list R) :
  Forall (fun x => x = 0) buffer -> rms_of buffer = 0.
Proof.
  intros H. unfold rms_of. rewrite (sum_squares_silent _ H).
  unfold Rdiv. rewrite Rmult_0_l. apply sqrt_0.
Qed.

(** ** Sample windows at 44100 Hz *)

Lemma fold_left_fixed {A B : Type} (f : A -> B -> A) (l : list B) (a : A) :
  (forall x, In x l -> f a x = a) -> fold_left f l a = a.
Proof.
  induction l as [|x l IH]; intros H; simpl; [reflexivity|].
  rewrite (H x (or_introl eq_refl)). apply IH. intros y Hy. apply H. now right.
Qed.

Lemma sum_squares_repeat (v : R) (n : nat) (a : R) :
  fold_left (fun rms x => rms + x * x) (repeat v n) a = a + INR n * (v * v).
Proof.
  revert a. induction n as [|n IH]; intros a.
  - simpl. lra.
  - cbn [repeat fold_left]. rewrite IH, S_INR. lra.
Qed.

Lemma INR_2048 : INR 2048 = 2048.
Proof. rewrite INR_IZR_INZ. reflexivity. Qed.

Lemma INR_4096 : INR 4096 = 4096.
Proof. rewrite INR_IZR_INZ. reflexivity. Qed.

Lemma rms_of_onsetWindow : MIN_VOLUME < rms_of onsetWindow.
Proof.
  unfold rms_of, onsetWindow, MIN_VOLUME.
  rewrite fold_left_app, !sum_squares_repeat, length_app, !repeat_length.
  change (2048 + 2048)%nat with 4096%nat. rewrite INR_2048, INR_4096.
  replace 0.01 with (sqrt (0.01 * 0.01)) by (apply sqrt_square; lra).
  apply sqrt_lt_1_alt. lra.
Qed.

Lemma rms_of_hushWindow : rms_of hushWindow < MIN_VOLUME.
Proof.
  unfold rms_of, hushWindow, MIN_VOLUME.
  rewrite sum_squares_repeat, repeat_length, INR_4096.
  replace 0.01 with (sqrt (0.01 * 0.01)) by (apply sqrt_square; lra).
  apply sqrt_lt_1_alt. lra.
Qed.

(** The scan reads the first [MAX_SAMPLES] samples only: when these are
    silent no lag has a positive norm, whatever the second half holds. *)
Lemma correlate_quiet_head (buffer : list R) (M o : Z) :
  (0 <= o)%Z -> (forall i, (0 <= i < M)%Z -> sample buffer i = 0) ->
  correlate buffer M o = {| sum := 0; sumSq1 := 0; sumSq2 := 0 |}.
Proof.
  intros Ho Hq. unfold correlate. apply fold_left_fixed.
  intros i Hi. apply in_seq in Hi. unfold accumulate. simpl.
  rewrite (Hq (Z.of_nat i)) by lia. rewrite (Hq (Z.of_nat i + o)%Z) by lia.
  f_equal; ring.
Qed.

Lemma scan_quiet_head (buffer : list R) (sampleRate : R) :
  (forall i, (0 <= i < MAX_SAMPLES_of buffer)%Z -> sample buffer i = 0) ->
  scan buffer sampleRate = initialBest.
Proof.
  intros Hq. unfold scan. fold initialBest. apply fold_left_fixed.
  intros o Ho. apply offsets_In in Ho.
  assert (Hr : (minPeriod_of sampleRate <
                Z.min (MAX_SAMPLES_of buffer) (maxPeriod_of sampleRate))%Z) by lia.
  destruct (lag_range_nonneg _ _ Hr) as [_ Hlo].
  assert (Hoz : (0 <= o)%Z) by lia.
  unfold scan_step, norm_at. rewrite (correlate_quiet_head _ _ o Hoz Hq). simpl.
  rewrite Rmult_0_l, sqrt_0.
  replace (Rgtb 0 0) with false; [reflexivity|].
  symmetry. apply Rgtb_false. lra.
Qed.

Lemma autoCorrelate_onsetWindow (sampleRate : R) :
  autoCorrelate onsetWindow sampleRate = -1.
Proof.
  apply autoCorrelate_rejects. rewrite scan_quiet_head; [unfold initialBest; simpl; lia|].
  rewrite MAX_SAMPLES_of_half. unfold onsetWindow.
  rewrite length_app, !repeat_length.
  change (Z.of_nat (2048 + 2048) / 2)%Z with 2048%Z.
  intros i Hi. unfold sample. rewrite app_nth1 by (rewrite repeat_length; lia).
  apply nth_repeat.
Qed.

Lemma Rsum_ext (f g : nat -> R) (n : nat) :
  (forall i, (i < n)%nat -> f i = g i) -> Rsum f n = Rsum g n.
Proof.
  induction n as [|n IH]; intros H; simpl; [reflexivity|].
  rewrite IH by (intros i Hi; apply H; lia). rewrite (H n) by lia. reflexivity.
Qed.

Lemma Rsum_zero (n : nat) : Rsum (fun _ => 0) n = 0.
Proof. induction n as [|n IH]; simpl; [reflexivity|]. rewrite IH. lra. Qed.

Lemma Rsum_plus (f g : nat -> R) (n : nat) :
  Rsum (fun i => f i + g i) n = Rsum f n + Rsum g n.
Proof. induction n as [|n IH]; simpl; [lra|]. rewrite IH. lra. Qed.

Lemma Rsum_at (a : nat) (c : R) (n : nat) :
  Rsum (fun i => if (i =? a)%nat then c else 0) n = if (a <? n)%nat then c else 0.
Proof.
  induction n as [|n IH]; simpl Rsum; [reflexivity|]. rewrite IH.
  destruct (Nat.eqb_spec n a) as [->|Hne].
  - rewrite Nat.ltb_irrefl. replace (a <? S a)%nat with true by (symmetry; apply Nat.ltb_lt; lia). lra.
  - destruct (Nat.ltb_spec a n) as [Hlt|Hge].
    + replace (a <? S n)%nat with true by (symmetry; apply Nat.ltb_lt; lia). lra.
    + replace (a <? S n)%nat with false by (symmetry; apply Nat.ltb_ge; lia). lra.
Qed.

(** The three accumulators, as sums over the index. *)
Lemma correlate_as_sums (buffer : list R) (M o : Z) :
  correlate buffer M o =
  let n := Z.to_nat (M - o) in
  {| sum := Rsum (fun i => sample buffer (Z.of_nat i) * sample buffer (Z.of_nat i + o)) n;
     sumSq1 := Rsum (fun i => sample buffer (Z.of_nat i) * sample buffer (Z.of_nat i)) n;
     sumSq2 := Rsum (fun i => sample buffer (Z.of_nat i + o) * sample buffer (Z.of_nat i + o)) n |}.
Proof.
  unfold correlate. cbv zeta. induction (Z.to_nat (M - o)) as [|n IH].
  - reflexivity.
  - rewrite seq_S, fold_left_app, IH. reflexivity.
Qed.

(** [clickWindow] is 1 at the indices 0 and 441, and 0 elsewhere. *)
Lemma sample_clickWindow (i : Z) :
  (0 <= i)%Z ->
  sample clickWindow i = if (i =? 0)%Z || (i =? 441)%Z then 1 else 0.
Proof.
  intros Hi. unfold sample, clickWindow.
  destruct (Z.to_nat i) as [|k] eqn:Hk.
  - replace i with 0%Z by lia. reflexivity.
  - replace (i =? 0)%Z with false by (symmetry; apply Z.eqb_neq; lia).
    cbn [nth orb].
    destruct (Nat.lt_ge_cases k 440) as [Hlt|Hge].
    + rewrite app_nth1 by (rewrite repeat_length; lia).
      replace (i =? 441)%Z with false by (symmetry; apply Z.eqb_neq; lia).
      apply nth_repeat.
    + rewrite app_nth2 by (rewrite repeat_length; lia). rewrite repeat_length.
      destruct (k - 440)%nat as [|j] eqn:Hj.
      * replace (i =? 441)%Z with true by (symmetry; apply Z.eqb_eq; lia). reflexivity.
      * replace (i =? 441)%Z with false by (symmetry; apply Z.eqb_neq; lia).
        cbn [nth]. apply nth_repeat.
Qed.

Lemma correlate_clickWindow (o : Z) :
  (110 <= o < 551)%Z ->
  correlate clickWindow 2048 o =
  {| sum := if (o =? 441)%Z then 1 else 0;
     sumSq1 := 2;
     sumSq2 := if (o <=? 441)%Z then 1 else 0 |}.
Proof.
  intros Ho. rewrite correlate_as_sums. cbv zeta.
  set (n := Z.to_nat (2048 - o)).
  assert (Hn : (1497 < n)%nat) by (subst n; lia).
  f_equal.
  - rewrite (Rsum_ext _ (fun i => if (i =? 0)%nat
                                  then (if (o =? 441)%Z then 1 else 0) else 0)).
    + rewrite Rsum_at. replace (0 <? n)%nat with true by (symmetry; apply Nat.ltb_lt; lia).
      reflexivity.
    + intros i Hi. rewrite !sample_clickWindow by lia.
      destruct (Nat.eqb_spec i 0) as [->|Hi0].
      * change (Z.of_nat 0 + o)%Z with o.
        replace (o =? 0)%Z with false by (symmetry; apply Z.eqb_neq; lia).
        simpl. destruct (Z.eqb_spec o 441); lra.
      * replace (Z.of_nat i =? 0)%Z with false by (symmetry; apply Z.eqb_neq; lia).
        replace (Z.of_nat i + o =? 0)%Z with false by (symmetry; apply Z.eqb_neq; lia).
        simpl. destruct (Z.eqb_spec (Z.of_nat i) 441) as [E|E]; [|lra].
        replace (Z.of_nat i + o =? 441)%Z with false by (symmetry; apply Z.eqb_neq; lia).
        lra.
  - rewrite (Rsum_ext _ (fun i => (if (i =? 0)%nat then 1 else 0) +
                                  (if (i =? 441)%nat then 1 else 0))).
    + rewrite Rsum_plus, !Rsum_at.
      replace (0 <? n)%nat with true by (symmetry; apply Nat.ltb_lt; lia).
      replace (441 <? n)%nat with true by (symmetry; apply Nat.ltb_lt; lia).
      lra.
    + intros i Hi. rewrite !sample_clickWindow by lia.
      destruct (Nat.eqb_spec i 0) as [->|Hi0]; [simpl; lra|].
      replace (Z.of_nat i =? 0)%Z with false by (symmetry; apply Z.eqb_neq; lia).
      simpl.
      destruct (Nat.eqb_spec i 441) as [->|Hi1]; [simpl; lra|].
      replace (Z.of_nat i =? 441)%Z with false by (symmetry; apply Z.eqb_neq; lia).
      lra.
  - rewrite (Rsum_ext _ (fun i => if (i =? Z.to_nat (441 - o))%nat
                                  then (if (o <=? 441)%Z then 1 else 0) else 0)).
    + rewrite Rsum_at.
      replace (Z.to_nat (441 - o) <? n)%nat with true
        by (symmetry; apply Nat.ltb_lt; subst n; lia).
      reflexivity.
    + intros i Hi. rewrite !sample_clickWindow by lia.
      replace (Z.of_nat i + o =? 0)%Z with false by (symmetry; apply Z.eqb_neq; lia).
      cbn [orb].
      destruct (Z.eqb_spec (Z.of_nat i + o) 441) as [E|E].
      * replace (i =? Z.to_nat (441 - o))%nat with true
          by (symmetry; apply Nat.eqb_eq; lia).
        replace (o <=? 441)%Z with true by (symmetry; apply Z.leb_le; lia).
        lra.
      * destruct (Nat.eqb_spec i (Z.to_nat (441 - o))) as [E'|E']; [|lra].
        replace (o <=? 441)%Z with false by (symmetry; apply Z.leb_gt; lia).
        lra.
Qed.

Lemma minPeriod_44100 : minPeriod_of 44100 = 110%Z.
Proof. apply Math_floor_unique. lra. Qed.

Lemma maxPeriod_44100 : maxPeriod_of 44100 = 551%Z.
Proof. apply Math_floor_unique. lra. Qed.

Lemma MAX_SAMPLES_clickWindow : MAX_SAMPLES_of clickWindow = 2048%Z.
Proof.
  rewrite MAX_SAMPLES_of_half. unfold clickWindow.
  cbn [List.length]. rewrite length_app. cbn [List.length]. rewrite !repeat_length.
  reflexivity.
Qed.

Lemma sqrt_2_bounds : 1 < sqrt 2 < 2.
Proof.
  split.
  - rewrite <- sqrt_1 at 1. apply sqrt_lt_1_alt. lra.
  - replace 2 with (sqrt (2 * 2)) at 2 by (apply sqrt_square; lra).
    apply sqrt_lt_1_alt. lra.
Qed.

(** Lags below 441 have correlation 0, lag 441 has [1 / sqrt 2], the lags
    above it a zero norm: by [scan_tracked] the scan ends on lag 441. *)
Lemma scan_clickWindow :
  scan clickWindow 44100 = {| bestOffset := 441; bestCorrelation := 1 / sqrt 2 |}.
Proof.
  pose proof (scan_tracked clickWindow 44100) as Ht.
  rewrite MAX_SAMPLES_clickWindow, minPeriod_44100, maxPeriod_44100 in Ht.
  change (Z.min 2048 551) with 551%Z in Ht.
  pose proof sqrt_2_bounds as Hs2.
  assert (Hnorm : forall o, (110 <= o < 551)%Z ->
            norm_at clickWindow 2048 o = if (o <=? 441)%Z then sqrt 2 else 0).
  { intros o Ho. unfold norm_at. rewrite (correlate_clickWindow o Ho). simpl.
    destruct (o <=? 441)%Z.
    - now rewrite Rmult_1_r.
    - rewrite Rmult_0_r. apply sqrt_0. }
  assert (Hcorr : forall o, (110 <= o <= 441)%Z ->
            correlation_at clickWindow 2048 o =
            if (o =? 441)%Z then 1 / sqrt 2 else 0).
  { intros o Ho. unfold correlation_at. rewrite Hnorm by lia.
    rewrite (correlate_clickWindow o) by lia. simpl.
    replace (o <=? 441)%Z with true by (symmetry; apply Z.leb_le; lia).
    destruct (o =? 441)%Z; [reflexivity|]. unfold Rdiv. apply Rmult_0_l. }
  assert (Hpos : 0 < 1 / sqrt 2) by (apply Rdiv_lt_0_compat; lra).
  assert (H441 : 0 < norm_at clickWindow 2048 441) by (rewrite Hnorm by lia; simpl; lra).
  destruct Ht as [[_ [_ Hall]] | [Hr [Hv [He [_ [Hall _]]]]]].
  - specialize (Hall 441%Z ltac:(lia) H441). rewrite Hcorr in Hall by lia.
    simpl in Hall. lra.
  - destruct (scan clickWindow 44100) as [bo bc]. simpl in *.
    rewrite Hnorm in Hv by lia.
    destruct (Z.leb_spec bo 441) as [Hle|Hgt]; [|lra].
    specialize (Hall 441%Z ltac:(lia) H441).
    rewrite Hcorr in He, Hall by lia. simpl in Hall.
    destruct (Z.eqb_spec bo 441) as [->|Hne]; [now subst bc|]. lra.
Qed.

Lemma autoCorrelate_clickWindow : autoCorrelate clickWindow 44100 = 100.
Proof.
  pose proof sqrt_2_bounds as Hs2.
  unfold autoCorrelate. rewrite scan_clickWindow. simpl.
  replace (Rgtb (1 / sqrt 2) 0.2) with true; [simpl; lra|].
  symmetry. apply Rgtb_true.
  apply Rmult_lt_reg_r with (sqrt 2); [lra|].
  unfold Rdiv. rewrite Rmult_1_l, Rinv_l by lra. lra.
Qed.

Lemma rms_of_clickWindow : MIN_VOLUME < rms_of clickWindow.
Proof.
  unfold rms_of, clickWindow, MIN_VOLUME.
  cbn [fold_left List.length].
  rewrite fold_left_app, sum_squares_repeat. cbn [fold_left].
  rewrite sum_squares_repeat, length_app. cbn [List.length]. rewrite !repeat_length.
  change (S (440 + S 3654)) with 4096%nat.
  rewrite INR_4096, INR_IZR_INZ, INR_IZR_INZ.
  change (Z.of_nat 440) with 440%Z. change (Z.of_nat 3654) with 3654%Z.
  replace 0.01 with (sqrt (0.01 * 0.01)) by (apply sqrt_square; lra).
  apply sqrt_lt_1_alt. lra.
Qed.

(** ** Ticks below the gate *)

(** C6.  While listening, a tick whose window is all zeros, or whose RMS is
    below 0.01, returns without calling [autoCorrelate] (the count of scans
    is unchanged); it leaves the smoothed frequency unset, the note not in
    tune, every meter segment and every string button cleared, and requests
    the next frame.  The lock and the four text nodes are not touched. *)
Theorem detectPitch_silence_gated (buffer : list R) (s : Session) :
  isListening s = true ->
  Forall (fun x => x = 0) buffer \/ rms_of buffer < MIN_VOLUME ->
  exists s',
    detectPitch buffer s = Done s' /\
    scans s' = scans s /\
    smoothedFrequency s' = None /\
    noteInTune s' = false /\
    Forall (fun active => active = false) (segments s') /\
    Forall (fun btn => btn_active btn = false /\ btn_in_tune btn = false)
           (stringButtons s') /\
    List.length (segments s') = List.length (segments s) /\
    map btn_locked (stringButtons s') = map btn_locked (stringButtons s) /\
    lockedStringIndex s' = lockedStringIndex s /\
    animationId s' = Some (nextFrame s) /\
    noteText s' = noteText s /\ octaveText s' = octaveText s /\
    hzText s' = hzText s /\ centsText s' = centsText s.
Proof.
  intros Hl Hq.
  assert (Hr : rms_of buffer <= MIN_VOLUME).
  { destruct Hq as [Hz | Hlt]; [|lra].
    rewrite (rms_of_silent _ Hz). unfold MIN_VOLUME. lra. }
  eexists. split; [apply (detectPitch_below_gate _ _ Hl Hr)|]. simpl.
  repeat split.
  - unfold clear_segments. apply Forall_forall. intros x Hx.
    apply in_map_iff in Hx. destruct Hx as [? [<- _]]. reflexivity.
  - apply Forall_forall. intros x Hx.
    apply in_map_iff in Hx. destruct Hx as [? [<- _]]. split; reflexivity.
  - unfold clear_segments. apply length_map.
  - rewrite map_map. reflexivity.
Qed.

Lemma detectPitch_silence_gated_witness :
  (exists s', detectPitch (repeat 0 4096) (tuningSession 44100 None (Some 110)) = Done s' /\
              scans s' = 41%nat /\ smoothedFrequency s' = None) /\
  (exists s', detectPitch hushWindow (tuningSession 44100 None (Some 110)) = Done s' /\
              scans s' = 41%nat /\ smoothedFrequency s' = None).
Proof.
  split.
  - destruct (detectPitch_silence_gated (repeat 0 4096)
                (tuningSession 44100 None (Some 110)))
      as [s' [Hd [Hs [Hf _]]]].
    + reflexivity.
    + left. apply Forall_forall. intros x Hx. now apply repeat_spec in Hx.
    + exists s'. auto.
  - destruct (detectPitch_silence_gated hushWindow (tuningSession 44100 None (Some 110)))
      as [s' [Hd [Hs [Hf _]]]].
    + reflexivity.
    + right. exact rms_of_hushWindow.
    + exists s'. auto.
Defined.

(** ** Ticks above the gate, no pitch found *)

(** C1, as the code has it.  While listening, a tick whose volume passes
    the gate and whose scan finds no pitch returns having changed nothing
    but the count of scans and the requested frame: the smoothed frequency
    and everything on the page stay as they were.  A pitch found on the next
    tick is therefore blended with the value held before the dropout. *)
Theorem detectPitch_no_pitch_holds (buffer : list R) (s : Session) (sampleRate : R) :
  isListening s = true -> audioContext s = Some sampleRate ->
  MIN_VOLUME < rms_of buffer -> autoCorrelate buffer sampleRate = -1 ->
  exists s',
    detectPitch buffer s = Done s' /\
    smoothedFrequency s' = smoothedFrequency s /\
    noteText s' = noteText s /\ octaveText s' = octaveText s /\
    hzText s' = hzText s /\ centsText s' = centsText s /\
    noteInTune s' = noteInTune s /\ segments s' = segments s /\
    stringButtons s' = stringButtons s /\
    lockedStringIndex s' = lockedStringIndex s /\
    scans s' = S (scans s) /\ animationId s' = Some (nextFrame s) /\
    forall buffer2 x,
      smoothedFrequency s = Some x ->
      MIN_VOLUME < rms_of buffer2 -> autoCorrelate buffer2 sampleRate <> -1 ->
      smoothedFrequency (state_of (detectPitch buffer2 s')) =
      Some (0.2 * autoCorrelate buffer2 sampleRate + 0.8 * x).
Proof.
  intros Hl Ha Hr Hf. eexists.
  split; [apply (detectPitch_no_pitch _ _ _ Hl Ha Hr Hf)|]. simpl.
  repeat split.
  intros buffer2 x Hx Hr2 Hf2.
  set (s1 := requestFrame (set_scans (S (scans s)) s)).
  destruct (detectPitch_pitch_state buffer2 s1 sampleRate Hl Ha Hr2 Hf2) as [Hs _].
  rewrite Hs. simpl. rewrite Hx. simpl. f_equal. unfold EMA_ALPHA. lra.
Qed.

Lemma detectPitch_no_pitch_holds_witness :
  exists s',
    detectPitch onsetWindow (tuningSession 44100 None (Some 110)) = Done s' /\
    smoothedFrequency s' = Some 110 /\ noteInTune s' = true.
Proof.
  destruct (detectPitch_no_pitch_holds onsetWindow
              (tuningSession 44100 None (Some 110)) 44100)
    as [s' [Hd [Hs [_ [_ [_ [_ [Ht _]]]]]]]].
  - reflexivity.
  - reflexivity.
  - exact rms_of_onsetWindow.
  - exact (autoCorrelate_onsetWindow 44100).
  - exists s'. auto.
Defined.

(** C1, as the specification states it, fails.  The session runs at 44100 Hz and
    holds a smoothed 110 Hz and an in-tune reading.  [onsetWindow] is loud
    (RMS above 0.35) and has no pitch, its first half being silent.  A
    quiet tick resets the smoothing and clears the in-tune mark; the
    no-pitch tick does neither, and the 100 Hz of [clickWindow] found on the
    tick after it is blended to 108 Hz, not taken as it is. *)
Lemma detectPitch_no_pitch_counterexample :
  let s := tuningSession 44100 None (Some 110) in
  isListening s = true /\
  audioContext s = Some 44100 /\
  MIN_VOLUME < rms_of onsetWindow /\
  autoCorrelate onsetWindow 44100 = -1 /\
  smoothedFrequency (state_of (detectPitch hushWindow s)) = None /\
  noteInTune (state_of (detectPitch hushWindow s)) = false /\
  smoothedFrequency (state_of (detectPitch onsetWindow s)) = Some 110 /\
  smoothedFrequency (state_of (detectPitch onsetWindow s)) <> None /\
  noteInTune (state_of (detectPitch onsetWindow s)) = true /\
  segments (state_of (detectPitch onsetWindow s)) = segments s /\
  nth 12 (segments s) false = true /\
  autoCorrelate clickWindow 44100 = 100 /\
  smoothedFrequency
    (state_of (bind (detectPitch onsetWindow s) (detectPitch clickWindow))) = Some 108 /\
  108 <> 100.
Proof.
  cbv zeta.
  assert (Hhush : rms_of hushWindow <= MIN_VOLUME).
  { left. exact rms_of_hushWindow. }
  rewrite (detectPitch_below_gate hushWindow (tuningSession 44100 None (Some 110))
             eq_refl Hhush).
  rewrite (detectPitch_no_pitch onsetWindow (tuningSession 44100 None (Some 110)) 44100
             eq_refl eq_refl rms_of_onsetWindow (autoCorrelate_onsetWindow 44100)).
  cbn [state_of bind].
  split; [reflexivity|]. split; [reflexivity|].
  split; [exact rms_of_onsetWindow|].
  split; [exact (autoCorrelate_onsetWindow 44100)|].
  split; [reflexivity|]. split; [reflexivity|]. split; [reflexivity|].
  split; [discriminate|]. split; [reflexivity|]. split; [reflexivity|].
  split; [reflexivity|].
  split; [exact autoCorrelate_clickWindow|].
  split; [|lra].
  match goal with
  | |- smoothedFrequency (state_of (detectPitch _ ?s1)) = _ =>
      assert (Hf : autoCorrelate clickWindow 44100 <> -1)
        by (rewrite autoCorrelate_clickWindow; lra);
      destruct (detectPitch_pitch_state clickWindow s1 44100 eq_refl eq_refl
                  rms_of_clickWindow Hf) as [Hs _];
      rewrite Hs
  end.
  cbn [smoothedFrequency requestFrame set_scans tuningSession smooth].
  rewrite autoCorrelate_clickWindow. f_equal. unfold EMA_ALPHA. lra.
Qed.

(** ** Smoothing *)

Lemma ticks_pitch (buffer : list R) (sampleRate f : R) :
  MIN_VOLUME < rms_of buffer -> autoCorrelate buffer sampleRate = f -> f <> -1 ->
  forall (n : nat) (s : Session) (x : R),
    isListening s = true -> audioContext s = Some sampleRate -> lock_ok s ->
    smoothedFrequency s = Some x ->
    exists sn y, ticks n buffer s = Done sn /\ smoothedFrequency sn = Some y /\
                 y - f = 0.8 ^ n * (x - f).
Proof.
  intros Hr Hf Hne. induction n as [|n IH]; intros s x Hl Ha Hok Hx.
  - exists s, x. simpl. repeat split; [assumption | lra].
  - assert (Hne' : autoCorrelate buffer sampleRate <> -1) by (rewrite Hf; exact Hne).
    destruct (detectPitch_pitch_state buffer s sampleRate Hl Ha Hr Hne')
      as [Hs [Hl1 [Ha1 [Hk1 [_ Hdone]]]]].
    specialize (Hdone Hok).
    set (s1 := state_of (detectPitch buffer s)) in *.
    assert (Hok1 : lock_ok s1).
    { intros i Hi. apply Hok. rewrite <- Hk1. exact Hi. }
    rewrite Hx, Hf in Hs. simpl in Hs.
    destruct (IH s1 _ Hl1 Ha1 Hok1 Hs) as [sn [y [Ht [Hy Hyf]]]].
    exists sn, y. simpl ticks. rewrite Hdone. simpl.
    repeat split; [assumption | assumption |].
    rewrite Hyf. unfold EMA_ALPHA. simpl pow. generalize (0.8 ^ n). intros p.
    replace 0.2 with (2 / 10) by lra. replace 0.8 with (8 / 10) by lra. field.
Qed.

(** C4.  On a tick with a valid raw frequency [f]: an unset smoothed value
    becomes [f] itself; a set value [x] becomes [0.2 * f + 0.8 * x].  Fed
    the same raw [f] on [n] ticks in a row, the distance to [f] is the
    initial distance times [0.8 ^ n], so the smoothed value gets within any
    [eps > 0] of [f] after finitely many ticks; after a reset it is [f] from
    the first tick on. *)
Theorem smoothing_first_verbatim_then_ema
    (buffer : list R) (s : Session) (sampleRate f : R) :
  isListening s = true -> audioContext s = Some sampleRate ->
  MIN_VOLUME < rms_of buffer -> autoCorrelate buffer sampleRate = f -> f <> -1 ->
  (smoothedFrequency s = None ->
   smoothedFrequency (state_of (detectPitch buffer s)) = Some f) /\
  (forall x, smoothedFrequency s = Some x ->
             smoothedFrequency (state_of (detectPitch buffer s)) =
             Some (0.2 * f + 0.8 * x)) /\
  (lock_ok s -> forall x, smoothedFrequency s = Some x ->
   forall n, exists sn y,
       ticks n buffer s = Done sn /\ smoothedFrequency sn = Some y /\
       y - f = 0.8 ^ n * (x - f)) /\
  (lock_ok s -> forall x, smoothedFrequency s = Some x ->
   forall eps, 0 < eps ->
   exists N, forall n, (N <= n)%nat ->
     exists sn y,
       ticks n buffer s = Done sn /\ smoothedFrequency sn = Some y /\
       Rabs (y - f) < eps) /\
  (lock_ok s -> smoothedFrequency s = None ->
   forall n, exists sn,
       ticks (S n) buffer s = Done sn /\ smoothedFrequency sn = Some f).
Proof.
  intros Hl Ha Hr Hf Hne.
  assert (Hne' : autoCorrelate buffer sampleRate <> -1) by (rewrite Hf; exact Hne).
  destruct (detectPitch_pitch_state buffer s sampleRate Hl Ha Hr Hne')
    as [Hs [Hl1 [Ha1 [Hk1 [_ Hdone]]]]].
  rewrite Hf in Hs.
  split; [intros Hx; rewrite Hs, Hx; reflexivity|].
  split.
  { intros x Hx. rewrite Hs, Hx. simpl. f_equal. unfold EMA_ALPHA. lra. }
  split.
  { intros Hok x Hx n. exact (ticks_pitch buffer sampleRate f Hr Hf Hne n s x Hl Ha Hok Hx). }
  split.
  { intros Hok x Hx eps Heps.
    assert (Hd : 0 < eps / (Rabs (x - f) + 1)).
    { apply Rdiv_lt_0_compat; [assumption|]. pose proof (Rabs_pos (x - f)). lra. }
    assert (H08 : Rabs 0.8 < 1) by (rewrite Rabs_pos_eq; lra).
    destruct (pow_lt_1_zero 0.8 H08 _ Hd) as [N HN].
    exists N. intros n Hn.
    destruct (ticks_pitch buffer sampleRate f Hr Hf Hne n s x Hl Ha Hok Hx)
      as [sn [y [Ht [Hy Hyf]]]].
    exists sn, y. repeat split; [assumption | assumption |].
    rewrite Hyf, Rabs_mult.
    specialize (HN n Hn).
    pose proof (Rabs_pos (x - f)) as Hp. pose proof (Rabs_pos (0.8 ^ n)) as Hq.
    apply Rle_lt_trans with (Rabs (0.8 ^ n) * (Rabs (x - f) + 1)).
    - apply Rmult_le_compat_l; [assumption | lra].
    - apply Rmult_lt_reg_r with (/ (Rabs (x - f) + 1)).
      + apply Rinv_0_lt_compat. lra.
      + rewrite Rmult_assoc, Rinv_r by lra. rewrite Rmult_1_r. exact HN. }
  intros Hok Hx n. specialize (Hdone Hok).
  set (s1 := state_of (detectPitch buffer s)) in *.
  assert (Hok1 : lock_ok s1).
  { intros i Hi. apply Hok. rewrite <- Hk1. exact Hi. }
  rewrite Hx in Hs. simpl in Hs.
  destruct (ticks_pitch buffer sampleRate f Hr Hf Hne n s1 f Hl1 Ha1 Hok1 Hs)
    as [sn [y [Ht [Hy Hyf]]]].
  exists sn. simpl ticks. rewrite Hdone. simpl. split; [assumption|].
  rewrite Hy. f_equal. rewrite Rminus_diag, Rmult_0_r in Hyf. lra.
Qed.

Lemma smoothing_first_verbatim_then_ema_witness :
  smoothedFrequency
    (state_of (detectPitch clickWindow (tuningSession 44100 None None))) = Some 100 /\
  smoothedFrequency
    (state_of (detectPitch clickWindow (tuningSession 44100 None (Some 110)))) =
  Some (0.2 * 100 + 0.8 * 110).
Proof.
  assert (Hne : 100 <> -1) by lra.
  split.
  - apply (smoothing_first_verbatim_then_ema clickWindow (tuningSession 44100 None None)
             44100 100 eq_refl eq_refl rms_of_clickWindow autoCorrelate_clickWindow Hne).
    reflexivity.
  - apply (smoothing_first_verbatim_then_ema clickWindow
             (tuningSession 44100 None (Some 110))
             44100 100 eq_refl eq_refl rms_of_clickWindow autoCorrelate_clickWindow Hne).
    reflexivity.
Defined.

(** ** The in-tune mark *)

(** C5.  The in-tune test is [|cents| <= 5] on the cents as computed, with
    no clamping: 5 and -5 pass, 6 and -6 do not.  [updateDisplay] shows
    these cents and marks the note in tune by this test, in locked mode on
    [lockedCents] against the locked string and in free mode on the cents of
    [getNoteFromFrequency]; the clamp to [[-50, 50]] only enters the segment
    index of the meter. *)
Theorem in_tune_on_unclamped_cents (f : R) (s : Session) (cents : Z) :
  segments s <> [] ->
  cents_of f s = Some cents ->
  (forall c, isInTune_of c = true <-> (Z.abs c <= 5)%Z) /\
  isInTune_of 5 = true /\ isInTune_of (-5) = true /\
  isInTune_of 6 = false /\ isInTune_of (-6) = false /\
  (forall i g, lockedStringIndex s = Some i -> nth_error GUITAR_STRINGS i = Some g ->
               cents = lockedCents f (gs_freq g)) /\
  (lockedStringIndex s = None -> cents = ni_cents (getNoteFromFrequency f)) /\
  exists s',
    updateDisplay f s = Done s' /\
    centsText s' = CentsSigned cents /\
    noteInTune s' = isInTune_of cents /\
    segments s' =
      paint_meter (isInTune_of cents)
        (Math_floor (INR (List.length (segments s)) / 2))
        (Z.max 0 (Z.min (Z.of_nat (List.length (segments s)) - 1)
           (segmentIndex_of (Z.max (-50) (Z.min 50 cents))
                            (List.length (segments s)))))
        (segments s).
Proof.
  intros Hne Hc.
  split.
  { intros c. rewrite isInTune_of_iff. lia. }
  repeat (split; [reflexivity|]).
  split.
  { intros i g Hi Hg. unfold cents_of in Hc. rewrite Hi, Hg in Hc. congruence. }
  split.
  { intros Hn. unfold cents_of in Hc. rewrite Hn in Hc. congruence. }
  destruct (updateDisplay_cents f s cents Hc) as [s' [Hd [Ht [_ Hm]]]].
  destruct (Hm Hne) as [Hi Hs].
  exists s'. auto.
Qed.

Lemma in_tune_on_unclamped_cents_witness :
  exists s',
    updateDisplay 110 (tuningSession 44100 (Some 1%nat) (Some 110)) = Done s' /\
    noteInTune s' = isInTune_of (lockedCents 110 110.00).
Proof.
  destruct (in_tune_on_unclamped_cents 110 (tuningSession 44100 (Some 1%nat) (Some 110))
              (lockedCents 110 110.00))
    as [_ [_ [_ [_ [_ [_ [_ [s' [Hd [_ [Hi _]]]]]]]]]]].
  - discriminate.
  - reflexivity.
  - exists s'. auto.
Defined.

(** ** Stop and start *)

Lemma detectPitch_keeps_lock (buffer : list R) (s : Session) :
  lockedStringIndex (state_of (detectPitch buffer s)) = lockedStringIndex s.
Proof.
  unfold detectPitch.
  destruct (isListening s); simpl; [|reflexivity].
  destruct (Rgtb (rms_of buffer) MIN_VOLUME); [|reflexivity].
  destruct (audioContext s) as [sampleRate|]; [|reflexivity].
  destruct (Req_dec_T (autoCorrelate buffer sampleRate) (-1)); [reflexivity|].
  match goal with
  | |- context [updateDisplay ?f ?s0] =>
      pose proof (updateDisplay_frame f s0) as H; cbv zeta in H;
      destruct H as [_ [_ [H _]]]; destruct (updateDisplay f s0); simpl in *; exact H
  end.
Qed.

Lemma startListening_keeps_lock (mic : option R) (buffer : list R) (s : Session) :
  lockedStringIndex (startListening mic buffer s) = lockedStringIndex s.
Proof.
  unfold startListening. destruct mic as [sampleRate|]; [|reflexivity].
  match goal with
  | |- context [detectPitch buffer ?s0] =>
      pose proof (detectPitch_keeps_lock buffer s0) as H;
      destruct (detectPitch buffer s0); simpl in *; exact H
  end.
Qed.

(** C9.  [stopListening] unsets the smoothed frequency, ends the capture
    and puts the page back to its blank state, but leaves the locked-string
    index and the [locked] class of the buttons as they were;
    [startListening] does not touch the index either, so after a stop and a
    start [updateDisplay] still measures against the same string. *)
Theorem stopListening_keeps_lock (s : Session) (mic : option R) (buffer : list R) :
  let s' := stopListening s in
  smoothedFrequency s' = None /\
  isListening s' = false /\ animationId s' = None /\ audioContext s' = None /\
  noteText s' = None /\ octaveText s' = None /\ hzText s' = None /\
  centsText s' = CentsReset /\ noteInTune s' = false /\
  Forall (fun active => active = false) (segments s') /\
  Forall (fun btn => btn_active btn = false /\ btn_in_tune btn = false)
         (stringButtons s') /\
  lockedStringIndex s' = lockedStringIndex s /\
  map btn_locked (stringButtons s') = map btn_locked (stringButtons s) /\
  lockedStringIndex (startListening mic buffer s') = lockedStringIndex s /\
  (forall f, cents_of f (startListening mic buffer s') = cents_of f s) /\
  (forall f i g,
      lockedStringIndex s = Some i -> nth_error GUITAR_STRINGS i = Some g ->
      exists s2,
        updateDisplay f (startListening mic buffer s') = Done s2 /\
        noteText s2 = Some (gs_note g) /\ octaveText s2 = Some (gs_octave g) /\
        centsText s2 = CentsSigned (lockedCents f (gs_freq g))).
Proof.
  cbv zeta.
  assert (Hlock : lockedStringIndex (startListening mic buffer (stopListening s)) =
                  lockedStringIndex s).
  { rewrite startListening_keeps_lock. reflexivity. }
  repeat (split; [reflexivity|]).
  split.
  { simpl. unfold clear_segments. apply Forall_forall. intros x Hx.
    apply in_map_iff in Hx. destruct Hx as [? [<- _]]. reflexivity. }
  split.
  { simpl. apply Forall_forall. intros x Hx.
    apply in_map_iff in Hx. destruct Hx as [? [<- _]]. split; reflexivity. }
  split; [reflexivity|].
  split; [simpl; rewrite map_map; reflexivity|].
  split; [exact Hlock|].
  split; [intros f; unfold cents_of; rewrite Hlock; reflexivity|].
  intros f i g Hi Hg.
  set (s1 := startListening mic buffer (stopListening s)) in *.
  unfold updateDisplay. rewrite Hlock, Hi, Hg. simpl.
  destruct (List.length (segments s1) =? 0)%nat; simpl.
  - eexists. split; [reflexivity|]. simpl. auto.
  - eexists. split; [reflexivity|].
    match goal with
    | |- context [updateStringIndicators ?f ?t ?s0] =>
        pose proof (updateStringIndicators_frame f t s0) as H; simpl in H;
        decompose [and] H
    end.
    repeat split; congruence.
Qed.

(** ** The frequencies on the page are positive *)

Lemma autoCorrelate_positive (buffer : list R) (sampleRate : R) :
  autoCorrelate buffer sampleRate <> -1 -> 0 < autoCorrelate buffer sampleRate.
Proof.
  intros Hne.
  destruct (Rlt_dec 0.2 (bestCorrelation (scan buffer sampleRate))) as [Hc|Hc];
    [|exfalso; apply Hne; apply autoCorrelate_rejects; tauto].
  destruct (Z.lt_ge_cases 0 (bestOffset (scan buffer sampleRate))) as [Ho|Ho];
    [|exfalso; apply Hne; apply autoCorrelate_rejects; lia].
  rewrite (autoCorrelate_accepts _ _ Hc Ho). now apply autoCorrelate_found_positive.
Qed.

Lemma smooth_positive (previous : option R) (frequency : R) :
  (forall x, previous = Some x -> 0 < x) -> 0 < frequency ->
  0 < smooth previous frequency.
Proof.
  intros Hp Hf. destruct previous as [x|]; simpl; [|assumption].
  specialize (Hp x eq_refl). unfold EMA_ALPHA. lra.
Qed.

(** Every smoothed frequency a session holds, hence every frequency
    [updateDisplay] receives from [detectPitch], is positive. *)
Lemma detectPitch_smoothed_positive (buffer : list R) (s : Session) :
  (forall x, smoothedFrequency s = Some x -> 0 < x) ->
  forall y, smoothedFrequency (state_of (detectPitch buffer s)) = Some y -> 0 < y.
Proof.
  intros Hpos y. unfold detectPitch.
  destruct (isListening s); simpl; [|apply Hpos].
  destruct (Rgtb (rms_of buffer) MIN_VOLUME); [|simpl; discriminate].
  destruct (audioContext s) as [sampleRate|]; [|apply Hpos].
  destruct (Req_dec_T (autoCorrelate buffer sampleRate) (-1)) as [|Hne]; [apply Hpos|].
  match goal with
  | |- context [updateDisplay ?f ?s0] =>
      pose proof (updateDisplay_frame f s0) as H; cbv zeta in H;
      destruct H as [_ [_ [_ [H _]]]]; destruct (updateDisplay f s0); simpl in *;
      rewrite H; intros Hy; injection Hy as <-
  end;
  (apply smooth_positive; [exact Hpos | now apply autoCorrelate_positive]).
Qed.

(** ** Selecting a string *)

Lemma toggleStringLock_selects (index : nat) (s : Session) :
  lockedStringIndex s <> Some index ->
  exists s', toggleStringLock index s = Done s' /\
             lockedStringIndex s' = Some index.
Proof.
  intros Hne. unfold toggleStringLock.
  destruct (lockedStringIndex s) as [locked|] eqn:Hl.
  - destruct (locked =? index)%nat eqn:He.
    + apply Nat.eqb_eq in He. congruence.
    + eexists. split; reflexivity.
  - eexists. split; reflexivity.
Qed.

Lemma toggleStringLock_unlocks (index : nat) (s : Session) :
  lockedStringIndex s = Some index ->
  lockedStringIndex (state_of (toggleStringLock index s)) = None.
Proof.
  intros Hl. unfold toggleStringLock. rewrite Hl, Nat.eqb_refl. simpl.
  destruct (index <? List.length (stringButtons s))%nat; reflexivity.
Qed.

(** A string selected before a stop is the one locked after the next
    start. *)
Lemma lock_survives_stop_start (index : nat) (s s1 : Session)
    (mic : option R) (buffer : list R) :
  lockedStringIndex s <> Some index ->
  toggleStringLock index s = Done s1 ->
  lockedStringIndex (startListening mic buffer (stopListening s1)) = Some index.
Proof.
  intros Hne Ht. destruct (toggleStringLock_selects index s Hne) as [s' [Hd Hl]].
  rewrite Hd in Ht. injection Ht as <-.
  rewrite startListening_keeps_lock. exact Hl.
Qed.

(** ** A scan whose best lag is 0 *)

(** At 200 Hz the lags are 0 and 1.  On [flatWindow] both have correlation
    1; lag 0 comes first and keeps the tie, and a best lag of 0 is not
    accepted. *)
Lemma minPeriod_200 : minPeriod_of 200 = 0%Z.
Proof. apply Math_floor_unique. lra. Qed.

Lemma maxPeriod_200 : maxPeriod_of 200 = 2%Z.
Proof. apply Math_floor_unique. lra. Qed.

Lemma scan_flatWindow_200 :
  scan flatWindow 200 = {| bestOffset := 0; bestCorrelation := 1 |}.
Proof.
  unfold scan. rewrite MAX_SAMPLES_of_half, minPeriod_200, maxPeriod_200.
  change (Z.of_nat (List.length flatWindow) / 2)%Z with 2%Z.
  change (offsets 0 (Z.min 2 2)) with [0%Z; 1%Z]. simpl.
  assert (H0 : correlate flatWindow 2 0 = {| sum := 2; sumSq1 := 2; sumSq2 := 2 |}).
  { unfold correlate, accumulate, sample, flatWindow. simpl. f_equal; ring. }
  assert (H1 : correlate flatWindow 2 1 = {| sum := 1; sumSq1 := 1; sumSq2 := 1 |}).
  { unfold correlate, accumulate, sample, flatWindow. simpl. f_equal; ring. }
  assert (Hn0 : norm_at flatWindow 2 0 = 2).
  { unfold norm_at. rewrite H0. simpl. apply sqrt_square. lra. }
  assert (Hn1 : norm_at flatWindow 2 1 = 1).
  { unfold norm_at. rewrite H1. simpl. rewrite Rmult_1_r. apply sqrt_1. }
  unfold scan_step at 2. unfold correlation_at. rewrite Hn0, H0. simpl.
  replace (Rgtb 2 0) with true by (symmetry; apply Rgtb_true; lra).
  replace (Rgtb (2 / 2) (-1)) with true by (symmetry; apply Rgtb_true; lra).
  unfold scan_step, correlation_at. rewrite Hn1, H1. simpl.
  replace (Rgtb 1 0) with true by (symmetry; apply Rgtb_true; lra).
  replace (Rgtb (1 / 1) (2 / 2)) with false by (symmetry; apply Rgtb_false; lra).
  f_equal. lra.
Qed.

Lemma autoCorrelate_lag_zero_best : autoCorrelate flatWindow 200 = -1.
Proof.
  apply autoCorrelate_rejects. rewrite scan_flatWindow_200. simpl. lia.
Qed.

(** * Further properties *)

(** ** Folds that agree on the list they run over *)

Lemma fold_left_ext_in {A B : Type} (f g : A -> B -> A) (l : list B) (a : A) :
  (forall x b, In x l -> f b x = g b x) -> fold_left f l a = fold_left g l a.
Proof.
  revert a. induction l as [|x l IH]; intros a H; simpl; [reflexivity|].
  rewrite (H x a (or_introl eq_refl)). apply IH. intros y b Hy. apply H. now right.
Qed.

(** ** The estimator reads the first half of the window *)

Lemma sample_firstn (n : nat) (buffer : list R) (i : Z) :
  (0 <= i < Z.of_nat n)%Z -> sample (firstn n buffer) i = sample buffer i.
Proof.
  intros Hi. unfold sample. rewrite nth_firstn.
  replace (Z.to_nat i <? n)%nat with true by (symmetry; apply Nat.ltb_lt; lia).
  reflexivity.
Qed.

Lemma correlate_agree (b1 b2 : list R) (M o : Z) :
  (0 <= o)%Z ->
  (forall i, (0 <= i < M)%Z -> sample b1 i = sample b2 i) ->
  correlate b1 M o = correlate b2 M o.
Proof.
  intros Ho Hs. unfold correlate. apply fold_left_ext_in.
  intros i acc Hi. apply in_seq in Hi. unfold accumulate.
  rewrite (Hs (Z.of_nat i)) by lia. rewrite (Hs (Z.of_nat i + o)%Z) by lia.
  reflexivity.
Qed.

Lemma scan_agree (b1 b2 : list R) (sampleRate : R) :
  MAX_SAMPLES_of b1 = MAX_SAMPLES_of b2 ->
  (forall i, (0 <= i < MAX_SAMPLES_of b1)%Z -> sample b1 i = sample b2 i) ->
  scan b1 sampleRate = scan b2 sampleRate.
Proof.
  intros HM Hs. unfold scan. rewrite <- HM. apply fold_left_ext_in.
  intros o b Ho. apply offsets_In in Ho.
  assert (Hr : (minPeriod_of sampleRate <
                Z.min (MAX_SAMPLES_of b1) (maxPeriod_of sampleRate))%Z) by lia.
  destruct (lag_range_nonneg _ _ Hr) as [_ Hlo].
  assert (Hoz : (0 <= o)%Z) by lia.
  unfold scan_step, correlation_at, norm_at.
  rewrite (correlate_agree b1 b2 _ o Hoz Hs). reflexivity.
Qed.

(** X2.  [autoCorrelate] depends on the first [floor(N/2)] samples of the
    window only: two windows of the same length with the same first half
    give the same result, whatever their second halves hold. *)
Theorem autoCorrelate_first_half_only (b1 b2 : list R) (sampleRate : R) :
  List.length b1 = List.length b2 ->
  firstn (List.length b1 / 2) b1 = firstn (List.length b2 / 2) b2 ->
  autoCorrelate b1 sampleRate = autoCorrelate b2 sampleRate.
Proof.
  intros Hlen Hfirst.
  assert (HM : MAX_SAMPLES_of b1 = MAX_SAMPLES_of b2).
  { unfold MAX_SAMPLES_of. now rewrite Hlen. }
  assert (Hs : scan b1 sampleRate = scan b2 sampleRate).
  { apply scan_agree; [exact HM|]. intros i Hi.
    rewrite MAX_SAMPLES_of_half in Hi.
    assert (Hi' : (0 <= i < Z.of_nat (List.length b1 / 2))%Z).
    { rewrite Nat2Z.inj_div. exact Hi. }
    rewrite <- (sample_firstn (List.length b1 / 2) b1 i Hi').
    rewrite Hfirst. apply sample_firstn. now rewrite <- Hlen. }
  unfold autoCorrelate. rewrite Hs. reflexivity.
Qed.

Lemma autoCorrelate_first_half_only_witness :
  autoCorrelate onsetWindow 44100 = autoCorrelate (repeat 0 4096) 44100.
Proof.
  apply (autoCorrelate_first_half_only onsetWindow (repeat 0 4096) 44100).
  - unfold onsetWindow. rewrite length_app, !repeat_length. reflexivity.
  - unfold onsetWindow. rewrite length_app, !repeat_length.
    change ((2048 + 2048) / 2)%nat with 2048%nat.
    change (4096 / 2)%nat with 2048%nat.
    rewrite firstn_app, repeat_length, Nat.sub_diag, firstn_O, app_nil_r.
    rewrite firstn_all2 by (rewrite repeat_length; lia).
    change 4096%nat with (2048 + 2048)%nat. rewrite repeat_app, firstn_app.
    rewrite repeat_length, Nat.sub_diag, firstn_O, app_nil_r.
    rewrite firstn_all2 by (rewrite repeat_length; lia). reflexivity.
Defined.

(** ** The frequencies the estimator can return *)

(** X4.  A frequency returned by [autoCorrelate] is [sampleRate / lag] for
    a lag of the scanned range that fits twice in the window; it is above
    80 Hz, and below [400 * sampleRate / (sampleRate - 400)], which is
    slightly more than 400 Hz.  Nothing is ever found at a sampling rate
    below 160 Hz. *)
Theorem autoCorrelate_found_range (buffer : list R) (sampleRate : R) :
  autoCorrelate buffer sampleRate <> -1 ->
  exists lag : Z,
    autoCorrelate buffer sampleRate = sampleRate / IZR lag /\
    (0 < lag)%Z /\
    (Math_floor (sampleRate / 400) <= lag < Math_floor (sampleRate / 80))%Z /\
    (2 * lag + 2 <= Z.of_nat (List.length buffer))%Z /\
    160 <= sampleRate /\
    80 < autoCorrelate buffer sampleRate /\
    autoCorrelate buffer sampleRate * (sampleRate - 400) < 400 * sampleRate.
Proof.
  intros Hne.
  destruct (Rlt_dec 0.2 (bestCorrelation (scan buffer sampleRate))) as [Hc|Hc];
    [|exfalso; apply Hne; apply autoCorrelate_rejects; tauto].
  destruct (Z.lt_ge_cases 0 (bestOffset (scan buffer sampleRate))) as [Ho|Ho];
    [|exfalso; apply Hne; apply autoCorrelate_rejects; lia].
  exists (bestOffset (scan buffer sampleRate)).
  rewrite (autoCorrelate_accepts _ _ Hc Ho).
  destruct (scan_tracked buffer sampleRate) as [[Hb _] | [Hr _]]; [lia|].
  set (L := bestOffset (scan buffer sampleRate)) in *.
  fold (minPeriod_of sampleRate). fold (maxPeriod_of sampleRate).
  rewrite MAX_SAMPLES_of_half in Hr.
  pose proof (Z.mul_div_le (Z.of_nat (List.length buffer)) 2 ltac:(lia)) as Hhalf.
  assert (HL : 0 < IZR L) by now apply (IZR_lt 0).
  pose proof (Math_floor_bounds (sampleRate / 400)) as H400.
  pose proof (Math_floor_bounds (sampleRate / 80)) as H80.
  fold (minPeriod_of sampleRate) in H400. fold (maxPeriod_of sampleRate) in H80.
  assert (Hlo : IZR (minPeriod_of sampleRate) <= IZR L) by (apply IZR_le; lia).
  assert (Hhi : IZR L + 1 <= IZR (maxPeriod_of sampleRate)).
  { rewrite <- plus_IZR. apply IZR_le. lia. }
  assert (Hq : sampleRate / IZR L * IZR L = sampleRate) by (field; lra).
  assert (H1L : 1 <= IZR L) by (apply (IZR_le 1); lia).
  repeat split; try lia.
  - lra.
  - apply Rmult_lt_reg_r with (IZR L); [exact HL|]. rewrite Hq. lra.
  - set (q := sampleRate / IZR L) in *.
    assert (Hq0 : 0 < q) by (apply Rdiv_lt_0_compat; lra).
    nra.
Qed.

Lemma autoCorrelate_found_range_witness :
  exists lag : Z,
    autoCorrelate clickWindow 44100 = 44100 / IZR lag /\ 80 < autoCorrelate clickWindow 44100.
Proof.
  destruct (autoCorrelate_found_range clickWindow 44100) as [lag [He [_ [_ [_ [_ [H80 _]]]]]]].
  - rewrite autoCorrelate_clickWindow. lra.
  - exists lag. split; assumption.
Defined.

(** ** The volume measure *)

Lemma sum_squares_scaled (c : R) (buffer : list R) (a : R) :
  fold_left (fun rms x => rms + x * x) (map (fun x => c * x) buffer) (c * c * a) =
  c * c * fold_left (fun rms x => rms + x * x) buffer a.
Proof.
  revert a. induction buffer as [|x l IH]; intros a; simpl; [reflexivity|].
  replace (c * c * a + c * x * (c * x)) with (c * c * (a + x * x)) by ring.
  apply IH.
Qed.

Lemma sum_squares_nonneg (buffer : list R) (a : R) :
  0 <= a -> 0 <= fold_left (fun rms x => rms + x * x) buffer a.
Proof.
  revert a. induction buffer as [|x l IH]; intros a Ha; simpl; [assumption|].
  apply IH. nra.
Qed.

Lemma sum_squares_bounded (A : R) (buffer : list R) (a : R) :
  Forall (fun x => Rabs x <= A) buffer ->
  fold_left (fun rms x => rms + x * x) buffer a <= a + INR (List.length buffer) * (A * A).
Proof.
  intros H. revert a. induction H as [|x l Hx _ IH]; intros a.
  - simpl. lra.
  - cbn [fold_left List.length]. rewrite S_INR.
    specialize (IH (a + x * x)).
    assert (x * x <= A * A).
    { unfold Rabs in Hx. destruct (Rcase_abs x); nra. }
    lra.
Qed.

Lemma rms_of_bounded (A : R) (buffer : list R) :
  0 <= A -> Forall (fun x => Rabs x <= A) buffer -> rms_of buffer <= A.
Proof.
  intros HA H. unfold rms_of.
  pose proof (sum_squares_bounded A buffer 0 H) as Hb.
  pose proof (sum_squares_nonneg buffer 0 (Rle_refl 0)) as Hn.
  set (S := fold_left (fun rms x => rms + x * x) buffer 0) in *.
  destruct buffer as [|x l].
  - simpl. unfold Rdiv. rewrite Rinv_0, Rmult_0_r, sqrt_0. exact HA.
  - set (N := INR (List.length (x :: l))) in *.
    assert (HN : 0 < N) by (subst N; apply lt_0_INR; simpl; lia).
    rewrite <- (sqrt_square A) by exact HA.
    apply sqrt_le_1_alt.
    apply Rmult_le_reg_r with N; [exact HN|].
    unfold Rdiv. rewrite Rmult_assoc, Rinv_l by lra. lra.
Qed.

(** X6.  A window in which no sample exceeds 0.01 in magnitude has an RMS
    of at most 0.01; while listening, such a tick is treated as silence:
    the scan is not run and the smoothing is reset. *)
Theorem detectPitch_small_samples_gated (buffer : list R) (s : Session) :
  Forall (fun x => Rabs x <= MIN_VOLUME) buffer ->
  rms_of buffer <= MIN_VOLUME /\
  (isListening s = true ->
   exists s', detectPitch buffer s = Done s' /\
              smoothedFrequency s' = None /\ scans s' = scans s).
Proof.
  intros H.
  assert (Hr : rms_of buffer <= MIN_VOLUME).
  { apply rms_of_bounded; [unfold MIN_VOLUME; lra | exact H]. }
  split; [exact Hr|]. intros Hl.
  eexists. split; [apply (detectPitch_below_gate _ _ Hl Hr)|].
  split; reflexivity.
Qed.

Lemma detectPitch_small_samples_gated_witness :
  rms_of [0.01; -0.01; 0.005] <= MIN_VOLUME.
Proof.
  apply (detectPitch_small_samples_gated [0.01; -0.01; 0.005]
           (tuningSession 44100 None None)).
  repeat constructor; unfold MIN_VOLUME, Rabs; destruct (Rcase_abs _); lra.
Defined.

(** X7.  The RMS is never negative, and scales with the gain: multiplying
    every sample by [c] multiplies the RMS by [|c|]. *)
Theorem rms_of_scales (c : R) (buffer : list R) :
  0 <= rms_of buffer /\
  rms_of (map (fun x => c * x) buffer) = Rabs c * rms_of buffer.
Proof.
  split; [apply sqrt_pos|].
  unfold rms_of. rewrite length_map.
  replace 0 with (c * c * 0) at 1 by ring.
  rewrite sum_squares_scaled.
  unfold Rdiv. rewrite Rmult_assoc.
  rewrite sqrt_mult_alt by nra.
  f_equal. replace (c * c) with (Rsqr c) by reflexivity. apply sqrt_Rsqr_abs.
Qed.

(** ** Notes and octaves *)


Lemma Math_log2_double (x : R) : 0 < x -> Math_log2 (2 * x) = 1 + Math_log2 x.
Proof.
  intros Hx. unfold Math_log2. rewrite ln_mult by lra.
  pose proof ln_2_positive. field. lra.
Qed.

Lemma Math_log2_Rpower (y : R) : Math_log2 (Rpower 2 y) = y.
Proof.
  unfold Math_log2. rewrite ln_Rpower. pose proof ln_2_positive. field. lra.
Qed.

Lemma Rpower_2_positive (y : R) : 0 < Rpower 2 y.
Proof. unfold Rpower. apply exp_pos. Qed.

Lemma Math_log2_lt_iff (x a : R) : 0 < x -> (Math_log2 x < a <-> x < Rpower 2 a).
Proof.
  intros Hx. pose proof ln_2_positive as H2. pose proof (Rpower_2_positive a) as Hp.
  unfold Math_log2. split; intros H.
  - apply ln_lt_inv; [assumption | assumption |]. rewrite ln_Rpower.
    apply Rmult_lt_reg_r with (/ ln 2); [now apply Rinv_0_lt_compat|].
    rewrite Rmult_assoc, Rinv_r by lra. unfold Rdiv in H. lra.
  - apply ln_increasing in H; [|assumption]. rewrite ln_Rpower in H.
    apply Rmult_lt_reg_r with (ln 2); [assumption|].
    unfold Rdiv. rewrite Rmult_assoc, Rinv_l by lra. lra.
Qed.

Lemma Math_round_ge_iff (x : R) (k : Z) : (k <= Math_round x)%Z <-> IZR k - / 2 <= x.
Proof.
  pose proof (Math_round_bounds x) as Hb. split; intros H.
  - apply IZR_le in H. lra.
  - apply Z.lt_pred_le. apply lt_IZR. rewrite <- Z.sub_1_r, minus_IZR. lra.
Qed.

Lemma Math_round_le_iff (x : R) (k : Z) : (Math_round x <= k)%Z <-> x < IZR k + / 2.
Proof.
  pose proof (Math_round_bounds x) as Hb. split; intros H.
  - apply IZR_le in H. lra.
  - apply Z.lt_succ_r. apply lt_IZR. rewrite succ_IZR. lra.
Qed.



(** X9.  Round trip from a MIDI number: the equal-tempered frequency
    [440 * 2 ^ ((m - 69) / 12)] of any integer [m] maps back to MIDI number
    [m] with 0 cents, to the name at index [m mod 12] and to the octave
    [m / 12 - 1]. *)
Theorem getNoteFromFrequency_of_midi (m : Z) :
  let info := getNoteFromFrequency (A4_FREQ * Rpower 2 ((IZR m - 69) / 12)) in
  ni_midi info = m /\ ni_cents info = 0%Z /\
  nth_error NOTE_NAMES (Z.to_nat (m mod 12)) = Some (ni_note info) /\
  ni_octave info = (m / 12 - 1)%Z.
Proof.
  cbv zeta. unfold getNoteFromFrequency, A4_FREQ, A4_MIDI. simpl.
  replace (440 * Rpower 2 ((IZR m - 69) / 12) / 440)
    with (Rpower 2 ((IZR m - 69) / 12)) by (field; lra).
  rewrite Math_log2_Rpower.
  replace (12 * ((IZR m - 69) / 12) + 69) with (IZR m) by (field; lra).
  rewrite Math_round_IZR.
  replace ((IZR m - IZR m) * 100) with 0 by lra.
  rewrite Math_round_0, (Math_floor_div m 12) by lia.
  repeat split. rewrite <- noteIndex_of_mod. apply note_name_defined.
Qed.



(** ** The locked deviation *)

(** X11.  Round trip in locked mode: a frequency [c] cents away from a
    positive target, [target * 2 ^ (c / 1200)] for an integer [c], is
    measured as [c] cents, with no clamping: an octave above is 1200. *)
Theorem lockedCents_of_cents (targetFreq : R) (c : Z) :
  0 < targetFreq ->
  lockedCents (targetFreq * Rpower 2 (IZR c / 1200)) targetFreq = c /\
  lockedCents (2 * targetFreq) targetFreq = 1200%Z.
Proof.
  intros Ht. unfold lockedCents. split.
  - replace (targetFreq * Rpower 2 (IZR c / 1200) / targetFreq)
      with (Rpower 2 (IZR c / 1200)) by (field; lra).
    rewrite Math_log2_Rpower.
    replace (1200 * (IZR c / 1200)) with (IZR c) by (field; lra).
    apply Math_round_IZR.
  - replace (2 * targetFreq / targetFreq) with (2 * 1) by (field; lra).
    rewrite Math_log2_double, Math_log2_1 by lra.
    replace (1200 * (1 + 0)) with (IZR 1200) by (simpl; lra).
    apply Math_round_IZR.
Qed.

Lemma lockedCents_of_cents_witness :
  lockedCents (110 * Rpower 2 (IZR 37 / 1200)) 110 = 37%Z.
Proof.
  assert (H : 0 < 110) by lra.
  apply (lockedCents_of_cents 110 37 H).
Defined.

Lemma ratio_bounds (f targetFreq p : R) :
  0 < targetFreq ->
  (targetFreq * p <= f <-> p <= f / targetFreq) /\
  (f <= targetFreq * p <-> f / targetFreq <= p) /\
  (f < targetFreq * p <-> f / targetFreq < p) /\
  (targetFreq * p < f <-> p < f / targetFreq).
Proof.
  intros Ht.
  assert (He : f = targetFreq * (f / targetFreq)) by (field; lra).
  repeat split; intros H.
  - apply Rmult_le_reg_l with targetFreq; [lra|]. now rewrite <- He.
  - rewrite He. apply Rmult_le_compat_l; [lra | exact H].
  - apply Rmult_le_reg_l with targetFreq; [lra|]. now rewrite <- He.
  - rewrite He. apply Rmult_le_compat_l; [lra | exact H].
  - apply Rmult_lt_reg_l with targetFreq; [lra|]. now rewrite <- He.
  - rewrite He. apply Rmult_lt_compat_l; [lra | exact H].
  - apply Rmult_lt_reg_l with targetFreq; [lra|]. now rewrite <- He.
  - rewrite He. apply Rmult_lt_compat_l; [lra | exact H].
Qed.

(** X12.  The in-tune band in locked mode, in Hz, for a positive target and
    a positive frequency.  A frequency within 5 cents of the target,
    [target * 2 ^ (-5 / 1200) <= f <= target * 2 ^ (5 / 1200)], reads in
    tune; a frequency that reads in tune is less than 6 cents from the
    target, [target * 2 ^ (-6 / 1200) < f < target * 2 ^ (6 / 1200)].  In
    between, at 5.5 cents, [Math.round] decides. *)
Theorem lockedCents_in_tune_band (f targetFreq : R) :
  0 < targetFreq -> 0 < f ->
  (targetFreq * Rpower 2 (-5 / 1200) <= f <= targetFreq * Rpower 2 (5 / 1200) ->
   isInTune_of (lockedCents f targetFreq) = true) /\
  (isInTune_of (lockedCents f targetFreq) = true ->
   targetFreq * Rpower 2 (-6 / 1200) < f < targetFreq * Rpower 2 (6 / 1200)).
Proof.
  intros Ht Hf.
  assert (Hq : 0 < f / targetFreq) by (apply Rdiv_lt_0_compat; lra).
  assert (Hin : isInTune_of (lockedCents f targetFreq) = true <->
                IZR (-5) - / 2 <= 1200 * Math_log2 (f / targetFreq) /\
                1200 * Math_log2 (f / targetFreq) < IZR 5 + / 2).
  { rewrite isInTune_of_iff. unfold lockedCents.
    rewrite Math_round_ge_iff, Math_round_le_iff. reflexivity. }
  set (x := Math_log2 (f / targetFreq)) in *.
  split.
  - intros [Hlo Hhi]. apply Hin.
    apply (ratio_bounds f targetFreq _ Ht) in Hlo.
    apply (ratio_bounds f targetFreq _ Ht) in Hhi.
    apply Math_log2_le in Hlo; [|apply Rpower_2_positive].
    apply Math_log2_le in Hhi; [|exact Hq].
    rewrite Math_log2_Rpower in Hlo, Hhi. fold x in Hlo, Hhi. lra.
  - intros H. apply Hin in H. destruct H as [Hlo Hhi]. split.
    + apply (ratio_bounds f targetFreq _ Ht).
      apply Rnot_le_lt. intros Hle.
      apply Math_log2_le in Hle; [|exact Hq].
      rewrite Math_log2_Rpower in Hle. fold x in Hle. lra.
    + apply (ratio_bounds f targetFreq _ Ht).
      apply (Math_log2_lt_iff _ _ Hq). fold x. lra.
Qed.

Lemma lockedCents_in_tune_band_witness :
  isInTune_of (lockedCents 110 110) = true /\
  110 * Rpower 2 (-6 / 1200) < 110 < 110 * Rpower 2 (6 / 1200).
Proof.
  assert (H : 0 < 110) by lra.
  destruct (lockedCents_in_tune_band 110 110 H H) as [Hin Hout].
  assert (Hb : 110 * Rpower 2 (-5 / 1200) <= 110 <= 110 * Rpower 2 (5 / 1200)).
  { assert (H1 : Rpower 2 (-5 / 1200) <= 1).
    { rewrite <- (Rpower_O 2) by lra. apply Rle_Rpower; lra. }
    assert (H2 : 1 <= Rpower 2 (5 / 1200)).
    { rewrite <- (Rpower_O 2) at 1 by lra. apply Rle_Rpower; lra. }
    lra. }
  split; [exact (Hin Hb) | exact (Hout (Hin Hb))].
Defined.

(** ** The meter *)

Lemma mapi_from_length {A B : Type} (f : nat -> A -> B) (l : list A) (start : nat) :
  List.length (mapi_from start f l) = List.length l.
Proof.
  revert start. induction l as [|x l IH]; intros start; simpl; [reflexivity|].
  now rewrite IH.
Qed.

Lemma mapi_from_nth_error {A B : Type} (f : nat -> A -> B) (l : list A) (start i : nat) :
  nth_error (mapi_from start f l) i =
  match nth_error l i with
  | Some x => Some (f (start + i)%nat x)
  | None => None
  end.
Proof.
  revert start i. induction l as [|x l IH]; intros start i.
  - destruct i; reflexivity.
  - destruct i as [|i]; simpl.
    + now rewrite Nat.add_0_r.
    + rewrite IH. now rewrite Nat.add_succ_r.
Qed.

Lemma mapi_length {A B : Type} (f : nat -> A -> B) (l : list A) :
  List.length (mapi f l) = List.length l.
Proof. apply mapi_from_length. Qed.

Lemma mapi_nth_error {A B : Type} (f : nat -> A -> B) (l : list A) (i : nat) :
  nth_error (mapi f l) i =
  match nth_error l i with
  | Some x => Some (f i x)
  | None => None
  end.
Proof. unfold mapi. now rewrite mapi_from_nth_error. Qed.

Lemma segmentIndex_of_formula (c : Z) (n : nat) :
  (1 <= n)%nat ->
  segmentIndex_of c n = (((c + 50) * (Z.of_nat n - 1) + 50) / 100)%Z.
Proof.
  intros Hn. unfold segmentIndex_of, Math_round.
  rewrite INR_IZR_INZ.
  replace ((IZR c + 50) / (100 / (IZR (Z.of_nat n) - 1)) + / 2)
    with (IZR ((c + 50) * (Z.of_nat n - 1) + 50) / IZR 100).
  - apply (Math_floor_div _ 100). lia.
  - rewrite plus_IZR, mult_IZR, plus_IZR, minus_IZR.
    destruct (Nat.eq_dec n 1) as [->|Hne].
    + simpl. replace (1 - 1) with 0 by lra.
      unfold Rdiv. rewrite Rinv_0, !Rmult_0_r, Rinv_0, Rmult_0_r. lra.
    + assert (1 < IZR (Z.of_nat n)) by (apply (IZR_lt 1); lia).
      simpl. field. lra.
Qed.

(** X13.  For a meter of [n >= 1] segments the segment index of the clamped
    cents always lies in [[0, n - 1]], so the second clamp of
    [updateDisplay] never changes it; it is 0 at -50 cents and below,
    [n - 1] at 50 cents and above, and grows with the cents.  On the meter
    of 25 segments it is [floor((24 * (c + 50) + 50) / 100)] for the
    clamped cents [c]: 0 cents is the centre, index 12. *)
Theorem segmentIndex_in_meter (cents : Z) (n : nat) :
  (1 <= n)%nat ->
  let clampedCents := Z.max (-50) (Z.min 50 cents) in
  let segmentIndex := segmentIndex_of clampedCents n in
  (0 <= segmentIndex <= Z.of_nat n - 1)%Z /\
  Z.max 0 (Z.min (Z.of_nat n - 1) segmentIndex) = segmentIndex /\
  ((cents <= -50)%Z -> segmentIndex = 0%Z) /\
  ((50 <= cents)%Z -> segmentIndex = (Z.of_nat n - 1)%Z) /\
  (forall cents', (cents <= cents')%Z ->
     (segmentIndex <= segmentIndex_of (Z.max (-50) (Z.min 50 cents')) n)%Z) /\
  (n = 25%nat -> segmentIndex = ((24 * (clampedCents + 50) + 50) / 100)%Z).
Proof.
  intros Hn. cbv zeta.
  rewrite (segmentIndex_of_formula _ n Hn).
  set (c := Z.max (-50) (Z.min 50 cents)).
  set (k := (Z.of_nat n - 1)%Z).
  assert (Hc : (-50 <= c <= 50)%Z) by (subst c; lia).
  assert (Hk : (0 <= k)%Z) by (subst k; lia).
  assert (Hrange : (0 <= ((c + 50) * k + 50) / 100 <= k)%Z).
  { split.
    - apply Z.div_pos; nia.
    - apply Z.lt_succ_r. apply Z.div_lt_upper_bound; nia. }
  split; [exact Hrange|]. split; [lia|].
  split.
  { intros Hlow. replace c with (-50)%Z by (subst c; lia).
    replace ((-50 + 50) * k + 50)%Z with 50%Z by lia. reflexivity. }
  split.
  { intros Hhigh. replace c with 50%Z by (subst c; lia).
    replace ((50 + 50) * k + 50)%Z with (k * 100 + 50)%Z by lia.
    rewrite Z.div_add_l by lia. change (50 / 100)%Z with 0%Z. lia. }
  split.
  { intros cents' Hle. rewrite (segmentIndex_of_formula _ n Hn). fold k.
    apply Z.div_le_mono; [lia|]. subst c. nia. }
  intros Hn25. subst k. rewrite Hn25. f_equal. lia.
Qed.

Lemma segmentIndex_in_meter_witness :
  segmentIndex_of (Z.max (-50) (Z.min 50 0)) 25 = 12%Z /\
  segmentIndex_of (Z.max (-50) (Z.min 50 (-70))) 25 = 0%Z /\
  segmentIndex_of (Z.max (-50) (Z.min 50 1200)) 25 = 24%Z.
Proof.
  assert (H : (1 <= 25)%nat) by lia.
  split; [|split].
  - destruct (segmentIndex_in_meter 0 25 H) as [_ [_ [_ [_ [_ He]]]]].
    rewrite (He eq_refl). reflexivity.
  - destruct (segmentIndex_in_meter (-70) 25 H) as [_ [_ [H0 _]]].
    apply H0. lia.
  - destruct (segmentIndex_in_meter 1200 25 H) as [_ [_ [_ [H1 _]]]].
    rewrite H1 by lia. reflexivity.
Defined.

Lemma segmentIndex_of_range (c : Z) (n : nat) :
  (1 <= n)%nat -> (-50 <= c <= 50)%Z ->
  (0 <= segmentIndex_of c n <= Z.of_nat n - 1)%Z.
Proof.
  intros Hn Hc. rewrite (segmentIndex_of_formula _ n Hn). split.
  - apply Z.div_pos; nia.
  - apply Z.lt_succ_r. apply Z.div_lt_upper_bound; nia.
Qed.

Lemma paint_meter_nth (t : bool) (center idx : Z) (segs : list bool) (i : nat) :
  (i < List.length segs)%nat ->
  nth i (paint_meter t center idx segs) false =
  if t then (Z.of_nat i =? center)%Z
  else if (idx <? center)%Z
       then (idx <=? Z.of_nat i)%Z && (Z.of_nat i <=? center - 1)%Z
       else (center + 1 <=? Z.of_nat i)%Z && (Z.of_nat i <=? idx)%Z.
Proof.
  intros Hi. unfold paint_meter.
  apply nth_error_nth. rewrite mapi_nth_error.
  destruct (nth_error segs i) eqn:He; [reflexivity|].
  apply nth_error_None in He. lia.
Qed.

Lemma centerIndex_half (n : nat) : Math_floor (INR n / 2) = (Z.of_nat n / 2)%Z.
Proof. rewrite INR_IZR_INZ. apply (Math_floor_div _ 2). lia. Qed.

(** X14.  What [updateDisplay] leaves on a meter of at least one segment,
    with [center = floor(n / 2)] and [index] the segment index of the
    clamped cents: the number of segments is unchanged; when the reading is
    in tune exactly the centre segment is lit; otherwise the centre is dark
    and the lit segments are exactly the run from the one next to the
    centre to [index], on the flat side when [index < center] and on the
    sharp side otherwise. *)
Theorem updateDisplay_meter (f : R) (s : Session) (cents : Z) :
  segments s <> [] ->
  cents_of f s = Some cents ->
  exists s',
    updateDisplay f s = Done s' /\
    List.length (segments s') = List.length (segments s) /\
    let center := (Z.of_nat (List.length (segments s)) / 2)%Z in
    let index := segmentIndex_of (Z.max (-50) (Z.min 50 cents))
                                 (List.length (segments s)) in
    forall i : nat, (i < List.length (segments s))%nat ->
      (nth i (segments s') false = true <->
       if isInTune_of cents then Z.of_nat i = center
       else if (index <? center)%Z
            then (index <= Z.of_nat i < center)%Z
            else (center < Z.of_nat i <= index)%Z).
Proof.
  intros Hne Hc.
  destruct (updateDisplay_cents f s cents Hc) as [s' [Hd [_ [_ Hm]]]].
  destruct (Hm Hne) as [_ Hs].
  exists s'. split; [exact Hd|].
  assert (Hn : (1 <= List.length (segments s))%nat).
  { destruct (segments s); [contradiction | simpl; lia]. }
  pose proof (segmentIndex_of_range (Z.max (-50) (Z.min 50 cents)) _ Hn ltac:(lia)) as Hr.
  rewrite centerIndex_half in Hs.
  replace (Z.max 0 (Z.min (Z.of_nat (List.length (segments s)) - 1)
             (segmentIndex_of (Z.max (-50) (Z.min 50 cents)) (List.length (segments s)))))
    with (segmentIndex_of (Z.max (-50) (Z.min 50 cents)) (List.length (segments s)))
    in Hs by lia.
  split.
  { rewrite Hs. unfold paint_meter. apply mapi_length. }
  cbv zeta. intros i Hi. rewrite Hs, (paint_meter_nth _ _ _ _ _ Hi).
  destruct (isInTune_of cents).
  - apply Z.eqb_eq.
  - destruct (_ <? _)%Z.
    + rewrite andb_true_iff, !Z.leb_le. lia.
    + rewrite andb_true_iff, !Z.leb_le. lia.
Qed.

Lemma updateDisplay_meter_witness :
  exists s',
    updateDisplay 110 (tuningSession 44100 (Some 1%nat) (Some 110)) = Done s' /\
    List.length (segments s') = 25%nat.
Proof.
  destruct (updateDisplay_meter 110 (tuningSession 44100 (Some 1%nat) (Some 110))
              (lockedCents 110 110.00))
    as [s' [Hd [Hl _]]].
  - discriminate.
  - reflexivity.
  - exists s'. split; [exact Hd | exact Hl].
Defined.

Lemma meterSegmentClasses_sides (i : nat) :
  (i < 25)%nat ->
  ((i < 12)%nat -> nth_error meterSegmentClasses i = Some (Flat (shade_of (12 - i)))) /\
  (i = 12%nat -> nth_error meterSegmentClasses i = Some Center) /\
  ((12 < i)%nat -> nth_error meterSegmentClasses i = Some (Sharp (shade_of (i - 12)))).
Proof.
  intros Hi.
  do 25 (destruct i as [|i]; [repeat split; intros; try lia; reflexivity|]).
  lia.
Qed.

(** X15.  [initializeMeter] puts 25 dark segments on an empty meter: twelve
    flat ones, the centre at index 12, twelve sharp ones, shaded alike at
    equal distances from the centre.  On that meter [updateDisplay] lights
    the centre segment alone when the reading is in tune; for a flat
    reading that is not in tune it lights the flat segment next to the
    centre and only flat segments, for a sharp one the sharp segment next to
    the centre and only sharp segments. *)
Theorem updateDisplay_meter_25 (f : R) (s : Session) (cents : Z) :
  segments s = [] ->
  cents_of f s = Some cents ->
  segments (initializeMeter s) = repeat false 25 /\
  exists s',
    updateDisplay f (initializeMeter s) = Done s' /\
    (forall i, (i < 25)%nat -> nth i (segments s') false = true ->
       nth_error meterSegmentClasses i =
       Some (if isInTune_of cents then Center
             else if (cents <? 0)%Z then Flat (shade_of (12 - i))
                  else Sharp (shade_of (i - 12)))) /\
    (isInTune_of cents = true -> nth 12 (segments s') false = true) /\
    (isInTune_of cents = false -> (cents < 0)%Z -> nth 11 (segments s') false = true) /\
    (isInTune_of cents = false -> (0 < cents)%Z -> nth 13 (segments s') false = true).
Proof.
  intros Hempty Hc.
  assert (Hsegs : segments (initializeMeter s) = repeat false 25).
  { unfold initializeMeter. simpl. rewrite Hempty. reflexivity. }
  split; [exact Hsegs|].
  assert (Hc' : cents_of f (initializeMeter s) = Some cents) by exact Hc.
  destruct (updateDisplay_cents f (initializeMeter s) cents Hc') as [s' [Hd [_ [_ Hm]]]].
  assert (Hne : segments (initializeMeter s) <> []) by (rewrite Hsegs; discriminate).
  destruct (Hm Hne) as [_ Hs].
  exists s'. split; [exact Hd|].
  rewrite Hsegs in Hs. rewrite repeat_length in Hs.
  rewrite centerIndex_half in Hs.
  rewrite (segmentIndex_of_formula _ 25 ltac:(lia)) in Hs.
  change (Z.of_nat 25 / 2)%Z with 12%Z in Hs.
  change (Z.of_nat 25 - 1)%Z with 24%Z in Hs.
  set (c := Z.max (-50) (Z.min 50 cents)) in *.
  set (idx := (((c + 50) * 24 + 50) / 100)%Z) in *.
  assert (Hlit : forall i, (i < 25)%nat ->
            nth i (segments s') false =
            if isInTune_of cents then (Z.of_nat i =? 12)%Z
            else if (Z.max 0 (Z.min 24 idx) <? 12)%Z
                 then (Z.max 0 (Z.min 24 idx) <=? Z.of_nat i)%Z && (Z.of_nat i <=? 12 - 1)%Z
                 else (12 + 1 <=? Z.of_nat i)%Z && (Z.of_nat i <=? Z.max 0 (Z.min 24 idx))%Z).
  { intros i Hi. rewrite Hs. apply paint_meter_nth. rewrite repeat_length. lia. }
  pose proof (isInTune_of_iff cents) as Htune.
  assert (Hflat : (cents < -5)%Z -> (idx <= 11)%Z).
  { intros H. subst idx. apply Z.lt_succ_r. apply Z.div_lt_upper_bound; subst c; lia. }
  assert (Hsharp : (5 < cents)%Z -> (13 <= idx)%Z).
  { intros H. subst idx. apply Z.div_le_lower_bound; subst c; lia. }
  destruct (isInTune_of cents) eqn:Ht.
  - split.
    { intros i Hi Hl. rewrite Hlit in Hl by lia. apply Z.eqb_eq in Hl.
      apply (meterSegmentClasses_sides i Hi). lia. }
    split; [intros _; rewrite Hlit by lia; reflexivity|].
    split; intros; discriminate.
  - assert (Hout : (cents < -5 \/ 5 < cents)%Z).
    { destruct (Z.lt_ge_cases cents (-5)) as [|H1]; [now left|].
      destruct (Z.lt_ge_cases 5 cents) as [|H2]; [now right|].
      assert (Hin : (-5 <= cents <= 5)%Z) by lia. apply Htune in Hin. discriminate. }
    destruct Hout as [Hlow|Hhigh].
    + specialize (Hflat Hlow).
      replace (Z.max 0 (Z.min 24 idx) <? 12)%Z with true in Hlit
        by (symmetry; apply Z.ltb_lt; lia).
      replace (cents <? 0)%Z with true by (symmetry; apply Z.ltb_lt; lia).
      split.
      { intros i Hi Hl. rewrite Hlit in Hl by lia.
        rewrite andb_true_iff, !Z.leb_le in Hl.
        apply (meterSegmentClasses_sides i Hi). lia. }
      split; [discriminate|]. split; [|intros; lia].
      intros _ _. rewrite Hlit by lia. apply andb_true_iff. rewrite !Z.leb_le. lia.
    + specialize (Hsharp Hhigh).
      replace (Z.max 0 (Z.min 24 idx) <? 12)%Z with false in Hlit
        by (symmetry; apply Z.ltb_ge; lia).
      replace (cents <? 0)%Z with false by (symmetry; apply Z.ltb_ge; lia).
      split.
      { intros i Hi Hl. rewrite Hlit in Hl by lia.
        rewrite andb_true_iff, !Z.leb_le in Hl.
        apply (meterSegmentClasses_sides i Hi). lia. }
      split; [discriminate|]. split; [intros; lia|].
      intros _ _. rewrite Hlit by lia. apply andb_true_iff. rewrite !Z.leb_le. lia.
Qed.

Lemma updateDisplay_meter_25_witness :
  exists s',
    updateDisplay 440 (initializeMeter (blankPage 6)) = Done s' /\
    nth 12 (segments s') false = true.
Proof.
  destruct (updateDisplay_meter_25 440 (blankPage 6) (ni_cents (getNoteFromFrequency 440)))
    as [_ [s' [Hd [_ [Hc _]]]]].
  - reflexivity.
  - reflexivity.
  - exists s'. split; [exact Hd|]. apply Hc.
    rewrite getNoteFromFrequency_A4. reflexivity.
Defined.

Lemma closest_step_next (f : R) (k : nat) (d : R) (e : nat * GuitarString) :
  closest_step f (Some k, Some d) e =
  if Rlt_dec (stringDistance f (snd e)) d
  then (Some (fst e), Some (stringDistance f (snd e)))
  else (Some k, Some d).
Proof.
  unfold closest_step, Rltb, stringDistance. simpl.
  destruct (Rlt_dec _ _); reflexivity.
Qed.

Lemma closest_fold (f : R) (l : list (nat * GuitarString)) :
  forall (k0 : nat) (g0 : GuitarString),
  exists (k : nat) (g : GuitarString),
    fold_left (closest_step f) l (Some k0, Some (stringDistance f g0)) =
      (Some k, Some (stringDistance f g)) /\
    ((k = k0 /\ g = g0 /\
      Forall (fun e => stringDistance f g0 <= stringDistance f (snd e)) l)
     \/
     (exists pre post,
         l = pre ++ (k, g) :: post /\
         stringDistance f g < stringDistance f g0 /\
         Forall (fun e => stringDistance f g < stringDistance f (snd e)) pre /\
         Forall (fun e => stringDistance f g <= stringDistance f (snd e)) post)).
Proof.
  induction l as [|e l IH]; intros k0 g0.
  - exists k0, g0. split; [reflexivity|]. left. auto.
  - cbn [fold_left]. rewrite closest_step_next.
    destruct (Rlt_dec (stringDistance f (snd e)) (stringDistance f g0)) as [Hlt|Hge].
    + destruct (IH (fst e) (snd e)) as [k [g [Hf [[Hk [Hg Hall]] | [pre [post [Hl [Hd [Hpre Hpost]]]]]]]]].
      * exists k, g. split; [exact Hf|]. right. exists [], l. subst k g.
        repeat split; [destruct e; reflexivity | exact Hlt | constructor | exact Hall].
      * exists k, g. split; [exact Hf|]. right. exists (e :: pre), post.
        repeat split; [rewrite Hl; reflexivity | lra | | exact Hpost].
        constructor; [exact Hd | exact Hpre].
    + apply Rnot_lt_le in Hge.
      destruct (IH k0 g0) as [k [g [Hf [[Hk [Hg Hall]] | [pre [post [Hl [Hd [Hpre Hpost]]]]]]]]].
      * exists k, g. split; [exact Hf|]. left.
        repeat split; [exact Hk | exact Hg |]. constructor; assumption.
      * exists k, g. split; [exact Hf|]. right. exists (e :: pre), post.
        repeat split; [rewrite Hl; reflexivity | exact Hd | | exact Hpost].
        constructor; [lra | exact Hpre].
Qed.

Lemma map_snd_combine_seq {A : Type} (tbl : list A) (a : nat) :
  map snd (combine (seq a (List.length tbl)) tbl) = tbl.
Proof.
  revert a. induction tbl as [|x t IH]; intros a; cbn; [reflexivity|]. now rewrite IH.
Qed.

Lemma combine_seq_split {A : Type} (tbl : list A) :
  forall (a : nat) (pre post : list (nat * A)) (k : nat) (g : A),
    combine (seq a (List.length tbl)) tbl = pre ++ (k, g) :: post ->
    k = (a + List.length pre)%nat /\
    nth_error tbl (List.length pre) = Some g /\
    firstn (List.length pre) tbl = map snd pre /\
    tbl = map snd pre ++ g :: map snd post.
Proof.
  induction tbl as [|x tbl IH]; intros a pre post k g H.
  - destruct pre; discriminate.
  - cbn [List.length seq combine] in H. destruct pre as [|p pre].
    + cbn [app] in H. injection H as Hk Hg Hpost. subst k g post.
      split; [cbn; lia|]. split; [reflexivity|]. split; [reflexivity|].
      cbn [map app]. now rewrite map_snd_combine_seq.
    + cbn [app] in H. injection H as Hp Hrest.
      destruct (IH (S a) pre post k g Hrest) as [Hk [Hn [Hf Ht]]].
      repeat split.
      * cbn. lia.
      * exact Hn.
      * cbn. rewrite Hf. subst p. reflexivity.
      * cbn. subst p. cbn. now rewrite <- Ht.
Qed.

(** The search ends on the string at the least distance, the first of them
    when several are as close. *)
Lemma closest_spec (f : R) :
  exists (k : nat) (g : GuitarString),
    closest f = (Some k, Some (stringDistance f g)) /\
    nth_error GUITAR_STRINGS k = Some g /\
    Forall (fun g' => stringDistance f g <= stringDistance f g') GUITAR_STRINGS /\
    Forall (fun g' => stringDistance f g < stringDistance f g') (firstn k GUITAR_STRINGS).
Proof.
  unfold closest.
  remember (combine (seq 0 (List.length GUITAR_STRINGS)) GUITAR_STRINGS) as L eqn:HL.
  assert (Hmap : map snd L = GUITAR_STRINGS) by (subst L; apply map_snd_combine_seq).
  destruct L as [|[j0 g0] l] eqn:HLl; [discriminate|].
  assert (Hj0 : j0 = 0%nat) by (cbv in HL; congruence).
  cbn [fold_left].
  change (closest_step f (None, None) (j0, g0)) with (Some j0, Some (stringDistance f g0)).
  destruct (closest_fold f l j0 g0)
    as [k [g [Hf [[Hk [Hg Hall]] | [pre [post [Hl [Hd [Hpre Hpost]]]]]]]]].
  - exists k, g. subst k g j0. split; [exact Hf|].
    rewrite <- Hmap. cbn [map snd].
    split; [reflexivity|]. split.
    + constructor; [lra|]. apply Forall_map. exact Hall.
    + constructor.
  - exists k, g. split; [exact Hf|].
    assert (Hsplit : combine (seq 0 (List.length GUITAR_STRINGS)) GUITAR_STRINGS =
                     ((j0, g0) :: pre) ++ (k, g) :: post).
    { rewrite <- HL, Hl. reflexivity. }
    destruct (combine_seq_split GUITAR_STRINGS 0 _ _ _ _ Hsplit) as [Hk [Hn [Hfn Ht]]].
    cbn [List.length] in Hk, Hn, Hfn. cbn [Nat.add] in Hk. subst k.
    split; [exact Hn|]. split.
    + rewrite Ht. cbn [map snd app]. constructor; [lra|].
      apply Forall_app. split; [apply Forall_map; eapply Forall_impl; [|exact Hpre]; cbn; intros; lra|].
      constructor; [lra|]. apply Forall_map. exact Hpost.
    + rewrite Hfn. cbn [map snd]. constructor; [exact Hd|].
      apply Forall_map. exact Hpre.
Qed.

Lemma stringDistance_nonneg (f : R) (g : GuitarString) : 0 <= stringDistance f g.
Proof. apply Rabs_pos. Qed.

Lemma stringDistance_zero_iff (f : R) (g : GuitarString) :
  0 < f -> 0 < gs_freq g -> (stringDistance f g = 0 <-> f = gs_freq g).
Proof.
  intros Hf Hg. unfold stringDistance, Math_log2. pose proof ln_2_positive as H2.
  assert (Hq : 0 < f / gs_freq g) by (apply Rdiv_lt_0_compat; lra).
  split; intros H.
  - assert (Hz : 1200 * (ln (f / gs_freq g) / ln 2) = 0).
    { destruct (Req_dec (1200 * (ln (f / gs_freq g) / ln 2)) 0) as [|Hne]; [assumption|].
      apply Rabs_no_R0 in Hne. contradiction. }
    assert (Hln : ln (f / gs_freq g) = ln 1).
    { rewrite ln_1. apply Rmult_eq_reg_r with (/ ln 2); [|apply Rinv_neq_0_compat; lra].
      unfold Rdiv in Hz. lra. }
    apply ln_inv in Hln; [|assumption|lra].
    apply Rmult_eq_compat_r with (r := gs_freq g) in Hln.
    replace (f / gs_freq g * gs_freq g) with f in Hln by (field; lra). lra.
  - rewrite H. replace (gs_freq g / gs_freq g) with 1 by (field; lra).
    rewrite ln_1. unfold Rdiv. rewrite Rmult_0_l, Rmult_0_r. apply Rabs_R0.
Qed.

Lemma GUITAR_STRINGS_cases (i : nat) (g : GuitarString) :
  nth_error GUITAR_STRINGS i = Some g ->
  (i = 0%nat /\ gs_freq g = 82.41) \/ (i = 1%nat /\ gs_freq g = 110.00) \/
  (i = 2%nat /\ gs_freq g = 146.83) \/ (i = 3%nat /\ gs_freq g = 196.00) \/
  (i = 4%nat /\ gs_freq g = 246.94) \/ (i = 5%nat /\ gs_freq g = 329.63).
Proof.
  intros H.
  destruct i as [|[|[|[|[|[|i]]]]]]; cbn in H;
    try (injection H as <-; cbn; tauto).
  destruct i; discriminate.
Qed.

Lemma GUITAR_STRINGS_distinct (i j : nat) (gi gj : GuitarString) :
  nth_error GUITAR_STRINGS i = Some gi -> nth_error GUITAR_STRINGS j = Some gj ->
  gs_freq gi = gs_freq gj -> i = j.
Proof.
  intros Hi Hj He.
  apply GUITAR_STRINGS_cases in Hi. apply GUITAR_STRINGS_cases in Hj.
  decompose [and or] Hi; decompose [and or] Hj; subst i j; try reflexivity;
    exfalso; lra.
Qed.

Lemma closest_at_string (i : nat) (gi : GuitarString) :
  nth_error GUITAR_STRINGS i = Some gi ->
  closest (gs_freq gi) = (Some i, Some 0).
Proof.
  intros Hi.
  destruct (closest_spec (gs_freq gi)) as [k [g [Hc [Hk [Hall _]]]]].
  pose proof (GUITAR_STRINGS_positive i gi Hi) as Hpi.
  pose proof (GUITAR_STRINGS_positive k g Hk) as Hpk.
  assert (Hdi : stringDistance (gs_freq gi) gi = 0)
    by (apply stringDistance_zero_iff; auto).
  assert (Hle : stringDistance (gs_freq gi) g <= stringDistance (gs_freq gi) gi).
  { rewrite Forall_forall in Hall. apply Hall. eapply nth_error_In. exact Hi. }
  pose proof (stringDistance_nonneg (gs_freq gi) g) as Hnn.
  assert (Hd0 : stringDistance (gs_freq gi) g = 0) by lra.
  rewrite Hc, Hd0. f_equal. f_equal.
  apply (stringDistance_zero_iff _ g Hpi Hpk) in Hd0.
  apply (GUITAR_STRINGS_distinct k i g gi Hk Hi). congruence.
Qed.

(** X16.  In free mode the string [updateStringIndicators] picks is one of
    the six, at the least distance in cents from the frequency, and the
    first of them when several are equally close.  Playing exactly the
    frequency of a string picks that string, at distance 0. *)
Theorem closest_is_nearest_string (f : R) :
  exists (k : nat) (g : GuitarString),
    closest f = (Some k, Some (stringDistance f g)) /\
    (k < 6)%nat /\ nth_error GUITAR_STRINGS k = Some g /\
    (forall j g', nth_error GUITAR_STRINGS j = Some g' ->
                  stringDistance f g <= stringDistance f g' /\
                  ((j < k)%nat -> stringDistance f g < stringDistance f g')) /\
    (forall i gi, nth_error GUITAR_STRINGS i = Some gi -> f = gs_freq gi ->
                  k = i /\ stringDistance f g = 0).
Proof.
  destruct (closest_spec f) as [k [g [Hc [Hk [Hall Hfirst]]]]].
  exists k, g. split; [exact Hc|].
  assert (Hk6 : (k < List.length GUITAR_STRINGS)%nat)
    by (apply nth_error_Some; rewrite Hk; discriminate).
  cbn [List.length GUITAR_STRINGS] in Hk6.
  split; [exact Hk6|]. split; [exact Hk|].
  assert (Hmin : forall j g', nth_error GUITAR_STRINGS j = Some g' ->
            stringDistance f g <= stringDistance f g' /\
            ((j < k)%nat -> stringDistance f g < stringDistance f g')).
  { intros j g' Hj. split.
    - rewrite Forall_forall in Hall. apply Hall. eapply nth_error_In. exact Hj.
    - intros Hlt. rewrite Forall_forall in Hfirst. apply Hfirst.
      apply (nth_error_In _ j). rewrite nth_error_firstn.
      replace (j <? k)%nat with true by (symmetry; apply Nat.ltb_lt; lia). exact Hj. }
  split; [exact Hmin|].
  intros i gi Hi Hf. subst f.
  rewrite (closest_at_string i gi Hi) in Hc. injection Hc as Hik Hd.
  split; [congruence | congruence].
Qed.

(** X17.  What [updateStringIndicators] leaves on the buttons.  One target
    index is concerned: the locked string in locked mode, the nearest string
    in free mode, where it is shown only when nearer than 100 cents and
    counts as in tune only when the reading is in tune and the string is
    nearer than 5 cents.  Every button keeps its [locked] class; the target
    gets [in-tune] or [active], never both; every other button gets
    neither. *)
Theorem updateStringIndicators_marks (f : R) (isInTune : bool) (s : Session) :
  exists (target : nat) (shown tuned : bool),
    (forall locked, lockedStringIndex s = Some locked ->
                    target = locked /\ shown = true /\ tuned = isInTune) /\
    (lockedStringIndex s = None ->
     exists g, closest f = (Some target, Some (stringDistance f g)) /\
               shown = Rltb (stringDistance f g) 100 /\
               tuned = isInTune && Rltb (stringDistance f g) (IZR IN_TUNE_CENTS)) /\
    List.length (stringButtons (updateStringIndicators f isInTune s)) =
      List.length (stringButtons s) /\
    forall i b,
      nth_error (stringButtons s) i = Some b ->
      nth_error (stringButtons (updateStringIndicators f isInTune s)) i =
      Some {| btn_active := (i =? target)%nat && shown && negb tuned;
              btn_in_tune := (i =? target)%nat && shown && tuned;
              btn_locked := btn_locked b |}.
Proof.
  unfold updateStringIndicators.
  destruct (lockedStringIndex s) as [locked|] eqn:Hl.
  - exists locked, true, isInTune.
    split; [intros l' H; injection H as <-; auto|].
    split; [discriminate|].
    split; [simpl; apply mapi_length|].
    intros i b Hb. simpl. rewrite mapi_nth_error, Hb.
    destruct (i =? locked)%nat, isInTune; reflexivity.
  - destruct (closest_spec f) as [k [g [Hc _]]]. rewrite Hc.
    exists k, (Rltb (stringDistance f g) 100),
           (isInTune && Rltb (stringDistance f g) (IZR IN_TUNE_CENTS)).
    split; [discriminate|].
    split; [intros _; exists g; auto|].
    split; [simpl; apply mapi_length|].
    intros i b Hb. simpl. rewrite mapi_nth_error, Hb.
    destruct (i =? k)%nat, (Rltb (stringDistance f g) 100),
      (isInTune && Rltb (stringDistance f g) (IZR IN_TUNE_CENTS)); reflexivity.
Qed.

(** In free mode, playing exactly the frequency of an open string marks
    the button of that string, [in-tune] when the reading is in tune and
    [active] otherwise, and clears the marks of the five others. *)
Lemma updateStringIndicators_at_string
    (i : nat) (g : GuitarString) (isInTune : bool) (s : Session) :
  lockedStringIndex s = None ->
  nth_error GUITAR_STRINGS i = Some g ->
  forall j b,
    nth_error (stringButtons s) j = Some b ->
    nth_error (stringButtons (updateStringIndicators (gs_freq g) isInTune s)) j =
    Some {| btn_active := (j =? i)%nat && negb isInTune;
            btn_in_tune := (j =? i)%nat && isInTune;
            btn_locked := btn_locked b |}.
Proof.
  intros Hl Hi j b Hb. unfold updateStringIndicators.
  rewrite Hl, (closest_at_string i g Hi). simpl.
  rewrite mapi_nth_error, Hb.
  replace (Rltb 0 100) with true by (symmetry; apply Rltb_true; lra).
  replace (Rltb 0 (IZR IN_TUNE_CENTS)) with true
    by (symmetry; apply Rltb_true; unfold IN_TUNE_CENTS; lra).
  destruct (j =? i)%nat, isInTune; reflexivity.
Qed.

Lemma locked_kept_refl (bs : list StringButton) : locked_kept bs bs.
Proof. split; [reflexivity|]. intros i b H. exists b. auto. Qed.

Lemma locked_kept_trans (a b c : list StringButton) :
  locked_kept a b -> locked_kept b c -> locked_kept a c.
Proof.
  intros [Hl1 H1] [Hl2 H2]. split; [congruence|].
  intros i x Hx. destruct (H2 i x Hx) as [y [Hy Hxy]].
  destruct (H1 i y Hy) as [z [Hz Hyz]]. exists z. split; [assumption|congruence].
Qed.

Lemma locked_kept_mapi (f : nat -> StringButton -> StringButton) (bs : list StringButton) :
  (forall i b, btn_locked (f i b) = btn_locked b) -> locked_kept bs (mapi f bs).
Proof.
  intros Hf. split; [apply mapi_length|].
  intros i b' H. rewrite mapi_nth_error in H.
  destruct (nth_error bs i) as [b|]; [|discriminate].
  injection H as <-. exists b. auto.
Qed.

Lemma locked_kept_map (f : StringButton -> StringButton) (bs : list StringButton) :
  (forall b, btn_locked (f b) = btn_locked b) -> locked_kept bs (map f bs).
Proof.
  intros Hf. split; [apply length_map|].
  intros i b' H. rewrite nth_error_map in H.
  destruct (nth_error bs i) as [b|]; [|discriminate].
  injection H as <-. exists b. auto.
Qed.

Lemma updateStringIndicators_locked_kept (f : R) (t : bool) (s : Session) :
  locked_kept (stringButtons s) (stringButtons (updateStringIndicators f t s)).
Proof.
  unfold updateStringIndicators.
  destruct (lockedStringIndex s); [|destruct (closest f)]; simpl;
    apply locked_kept_mapi; intros i b;
    repeat match goal with |- context [if ?c then _ else _] => destruct c end;
    reflexivity.
Qed.

Lemma updateDisplay_locked_kept (f : R) (s : Session) :
  locked_kept (stringButtons s) (stringButtons (state_of (updateDisplay f s))).
Proof.
  unfold updateDisplay.
  destruct (lockedStringIndex s) as [locked|] eqn:Hlock;
    [destruct (nth_error GUITAR_STRINGS locked) eqn:Hg|]; simpl;
    try apply locked_kept_refl;
    match goal with
    | |- context [(?n =? 0)%nat] => destruct (n =? 0)%nat; simpl
    end;
    try apply locked_kept_refl;
    match goal with
    | |- context [updateStringIndicators ?f ?t ?s0] =>
        apply (updateStringIndicators_locked_kept f t s0)
    end.
Qed.

Lemma detectPitch_locked_kept (buffer : list R) (s : Session) :
  locked_kept (stringButtons s) (stringButtons (state_of (detectPitch buffer s))).
Proof.
  unfold detectPitch.
  destruct (isListening s); simpl; [|apply locked_kept_refl].
  destruct (Rgtb (rms_of buffer) MIN_VOLUME).
  - destruct (audioContext s) as [sampleRate|]; [|apply locked_kept_refl].
    destruct (Req_dec_T (autoCorrelate buffer sampleRate) (-1)); [apply locked_kept_refl|].
    match goal with
    | |- context [updateDisplay ?f ?s0] =>
        pose proof (updateDisplay_locked_kept f s0) as H;
        destruct (updateDisplay f s0); simpl in *; exact H
    end.
  - simpl. apply locked_kept_map. reflexivity.
Qed.

(** ** The invariant *)

Lemma autoCorrelate_above_80 (buffer : list R) (sampleRate : R) :
  autoCorrelate buffer sampleRate <> -1 -> 80 < autoCorrelate buffer sampleRate.
Proof.
  intros Hne.
  destruct (Rlt_dec 0.2 (bestCorrelation (scan buffer sampleRate))) as [Hc|Hc];
    [|exfalso; apply Hne; apply autoCorrelate_rejects; tauto].
  destruct (Z.lt_ge_cases 0 (bestOffset (scan buffer sampleRate))) as [Ho|Ho];
    [|exfalso; apply Hne; apply autoCorrelate_rejects; lia].
  rewrite (autoCorrelate_accepts _ _ Hc Ho).
  destruct (scan_tracked buffer sampleRate) as [[Hb _] | [Hr _]]; [lia|].
  set (L := bestOffset (scan buffer sampleRate)) in *.
  assert (HL : 0 < IZR L) by now apply (IZR_lt 0).
  pose proof (Math_floor_bounds (sampleRate / 80)) as H80.
  fold (maxPeriod_of sampleRate) in H80.
  assert (Hhi : IZR L + 1 <= IZR (maxPeriod_of sampleRate)).
  { rewrite <- plus_IZR. apply IZR_le. lia. }
  apply Rmult_lt_reg_r with (IZR L); [exact HL|].
  replace (sampleRate / IZR L * IZR L) with sampleRate by (field; lra). lra.
Qed.

Lemma smooth_between (previous frequency : R) :
  Rmin previous frequency <= smooth (Some previous) frequency <= Rmax previous frequency.
Proof.
  simpl. unfold EMA_ALPHA, Rmin, Rmax.
  destruct (Rle_dec previous frequency); lra.
Qed.

(** A session is fit for [detectPitch] when it satisfies [session_ok] but
    for the pending frame, which [startListening] has not requested yet
    when it runs the first [detectPitch]. *)
Lemma detectPitch_keeps_ok_from (buffer : list R) (s : Session) :
  (isListening s = true -> audioContext s <> None) ->
  (isListening s = false ->
   audioContext s = None /\ animationId s = None /\ smoothedFrequency s = None) ->
  (List.length (stringButtons s) <= List.length GUITAR_STRINGS)%nat ->
  (forall i, lockedStringIndex s = Some i -> (i < List.length (stringButtons s))%nat) ->
  (forall i b, nth_error (stringButtons s) i = Some b ->
               btn_locked b = same_index i (lockedStringIndex s)) ->
  (forall x, smoothedFrequency s = Some x -> 80 < x) ->
  exists s', detectPitch buffer s = Done s' /\ session_ok s' /\
             isListening s' = isListening s /\ audioContext s' = audioContext s /\
             lockedStringIndex s' = lockedStringIndex s.
Proof.
  intros Hctx Hidle Hbtn Hlock Hclass Hsm.
  pose proof (detectPitch_locked_kept buffer s) as [Hlen Hkept].
  assert (Hclass' : forall s', stringButtons s' = stringButtons (state_of (detectPitch buffer s)) ->
            lockedStringIndex s' = lockedStringIndex s ->
            forall i b, nth_error (stringButtons s') i = Some b ->
                        btn_locked b = same_index i (lockedStringIndex s')).
  { intros s' Hb Hl i b Hi. rewrite Hb in Hi. destruct (Hkept i b Hi) as [b0 [Hb0 He]].
    rewrite He, Hl. now apply Hclass. }
  destruct (isListening s) eqn:Hlis.
  - (* listening *)
    destruct (audioContext s) as [sampleRate|] eqn:Hctxs;
      [|exfalso; now apply (Hctx eq_refl)].
    destruct (Rlt_dec MIN_VOLUME (rms_of buffer)) as [Hloud|Hquiet].
    + destruct (Req_dec_T (autoCorrelate buffer sampleRate) (-1)) as [Hnone|Hfound].
      * rewrite (detectPitch_no_pitch _ _ _ Hlis Hctxs Hloud Hnone) in *.
        eexists. split; [reflexivity|]. split; [|simpl; auto].
        split; simpl; rewrite ?Hctxs; try congruence; try discriminate; auto.
      * pose proof (detectPitch_pitch _ _ _ Hlis Hctxs Hloud Hfound) as Hdp.
        cbv zeta in Hdp.
        set (sm := smooth (smoothedFrequency s) (autoCorrelate buffer sampleRate)) in *.
        set (s1 := set_smoothedFrequency (Some sm) (set_scans (S (scans s)) s)) in *.
        assert (Hok1 : lock_ok s1).
        { intros i Hi. specialize (Hlock i Hi). simpl in Hi. lia. }
        destruct (updateDisplay_done sm s1 Hok1) as [s2 Hud].
        pose proof (updateDisplay_frame sm s1) as Hfr. cbv zeta in Hfr.
        rewrite Hud in Hdp, Hfr. simpl in Hdp, Hfr.
        destruct Hfr as [Hc2 [Hl2 [Hk2 [Hs2 _]]]].
        rewrite Hdp in Hclass', Hlen. simpl in Hclass', Hlen.
        exists (requestFrame s2). split; [exact Hdp|].
        assert (H80 : 80 < sm).
        { pose proof (autoCorrelate_above_80 _ _ Hfound) as Hf80. subst sm.
          destruct (smoothedFrequency s) as [p|] eqn:Hp; simpl; [|exact Hf80].
          specialize (Hsm p eq_refl). unfold EMA_ALPHA. lra. }
        split; [|simpl; rewrite Hl2, Hc2, Hk2; auto].
        split; simpl; rewrite ?Hl2, ?Hc2, ?Hk2, ?Hs2, ?Hctxs;
          try congruence; try discriminate; try lia.
        -- simpl in Hbtn. lia.
        -- intros i Hi. specialize (Hlock i Hi). lia.
        -- intros i b Hi. rewrite <- Hk2. apply (Hclass' (requestFrame s2) eq_refl Hk2 i b Hi).
    + apply Rnot_lt_le in Hquiet.
      rewrite (detectPitch_below_gate _ _ Hlis Hquiet) in *.
      eexists. split; [reflexivity|]. split; [|simpl; auto].
      simpl in Hlen.
      simpl in Hbtn.
      split; simpl; rewrite ?Hctxs; try congruence; try discriminate; try lia.
      * intros i Hi. specialize (Hlock i Hi). lia.
      * apply (Hclass' _ eq_refl eq_refl).
  - (* idle: nothing happens *)
    rewrite (detectPitch_idle _ _ Hlis). exists s. split; [reflexivity|].
    split; [|auto].
    split; try assumption; try congruence.
    intros _. now apply Hidle.
Qed.

Lemma session_ok_detectPitch (buffer : list R) (s : Session) :
  session_ok s ->
  exists s', detectPitch buffer s = Done s' /\ session_ok s' /\
             isListening s' = isListening s /\ audioContext s' = audioContext s /\
             lockedStringIndex s' = lockedStringIndex s.
Proof.
  intros [H1 H2 H3 H4 H5 H6 H7]. now apply detectPitch_keeps_ok_from.
Qed.

Lemma session_ok_stopListening (s : Session) :
  session_ok s -> session_ok (stopListening s).
Proof.
  intros [H1 H2 H3 H4 H5 H6 H7].
  split; simpl; try discriminate; auto.
  - now rewrite length_map.
  - intros i Hi. rewrite length_map. auto.
  - intros i b Hb. rewrite nth_error_map in Hb.
    destruct (nth_error (stringButtons s) i) as [b0|] eqn:Hb0; [|discriminate].
    injection Hb as <-. simpl. now apply H6.
Qed.

Lemma updateStringIndicators_status (f : R) (t : bool) (s : Session) :
  status (updateStringIndicators f t s) = status s /\
  statusError (updateStringIndicators f t s) = statusError s /\
  startBtnListening (updateStringIndicators f t s) = startBtnListening s /\
  mediaStream (updateStringIndicators f t s) = mediaStream s.
Proof.
  unfold updateStringIndicators.
  destruct (lockedStringIndex s); [|destruct (closest f)]; simpl; auto.
Qed.

Lemma updateDisplay_status (f : R) (s : Session) :
  status (state_of (updateDisplay f s)) = status s /\
  statusError (state_of (updateDisplay f s)) = statusError s /\
  startBtnListening (state_of (updateDisplay f s)) = startBtnListening s /\
  mediaStream (state_of (updateDisplay f s)) = mediaStream s.
Proof.
  unfold updateDisplay.
  destruct (lockedStringIndex s) as [locked|] eqn:Hlock;
    [destruct (nth_error GUITAR_STRINGS locked) eqn:Hg|]; simpl; auto;
    match goal with
    | |- context [(?n =? 0)%nat] => destruct (n =? 0)%nat; simpl; auto
    end;
    match goal with
    | |- context [updateStringIndicators ?f ?t ?s0] =>
        apply (updateStringIndicators_status f t s0)
    end.
Qed.

Lemma detectPitch_status (buffer : list R) (s : Session) :
  status (state_of (detectPitch buffer s)) = status s /\
  statusError (state_of (detectPitch buffer s)) = statusError s /\
  startBtnListening (state_of (detectPitch buffer s)) = startBtnListening s /\
  mediaStream (state_of (detectPitch buffer s)) = mediaStream s.
Proof.
  unfold detectPitch.
  destruct (isListening s); simpl; auto.
  destruct (Rgtb (rms_of buffer) MIN_VOLUME); simpl; auto.
  destruct (audioContext s) as [sampleRate|]; simpl; auto.
  destruct (Req_dec_T (autoCorrelate buffer sampleRate) (-1)); simpl; auto.
  match goal with
  | |- context [updateDisplay ?f ?s0] =>
      pose proof (updateDisplay_status f s0) as H;
      destruct (updateDisplay f s0); simpl in *; exact H
  end.
Qed.

Lemma session_ok_startListening (mic : option R) (buffer : list R) (s : Session) :
  session_ok s -> isListening s = false ->
  session_ok (startListening mic buffer s) /\
  lockedStringIndex (startListening mic buffer s) = lockedStringIndex s /\
  match mic with
  | None => isListening (startListening mic buffer s) = false /\
            status (startListening mic buffer s) = StatusDenied /\
            statusError (startListening mic buffer s) = true
  | Some sampleRate =>
      isListening (startListening mic buffer s) = true /\
      audioContext (startListening mic buffer s) = Some sampleRate /\
      status (startListening mic buffer s) = StatusListening /\
      statusError (startListening mic buffer s) = false
  end.
Proof.
  intros Hok Hidle. destruct Hok as [H1 H2 H3 H4 H5 H6 H7].
  destruct (H3 Hidle) as [Hc [Ha Hs]].
  unfold startListening. destruct mic as [sampleRate|].
  - set (s0 := set_status StatusListening false
                 (updateUI (set_capture (Some sampleRate) true true (animationId s) s))).
    assert (Hpre : exists s', detectPitch buffer s0 = Done s' /\ session_ok s' /\
                     isListening s' = isListening s0 /\ audioContext s' = audioContext s0 /\
                     lockedStringIndex s' = lockedStringIndex s0).
    { apply detectPitch_keeps_ok_from; subst s0; simpl.
      - discriminate.
      - discriminate.
      - exact H4.
      - exact H5.
      - exact H6.
      - intros x. rewrite Hs. discriminate. }
    destruct Hpre as [s' [Hd [Hok' [Hl' [Hc' Hk']]]]].
    pose proof (detectPitch_status buffer s0) as [Hst [Hse _]].
    rewrite Hd in *. simpl in Hst, Hse.
    split; [exact Hok'|]. split; [exact Hk'|].
    split; [exact Hl'|]. split; [exact Hc'|]. split; [exact Hst | exact Hse].
  - split; [|simpl; auto].
    split; simpl; auto.
Qed.

(** ** Locking a string *)

Lemma toggleStringLock_keeps_ok (index : nat) (s : Session) :
  session_ok s -> (index < List.length (stringButtons s))%nat ->
  exists s',
    toggleStringLock index s = Done s' /\ session_ok s' /\
    lockedStringIndex s' =
      (if same_index index (lockedStringIndex s) then None else Some index) /\
    List.length (stringButtons s') = List.length (stringButtons s) /\
    isListening s' = isListening s /\ audioContext s' = audioContext s /\
    animationId s' = animationId s /\
    smoothedFrequency s' = smoothedFrequency s /\ segments s' = segments s /\
    noteText s' = noteText s /\ hzText s' = hzText s /\ centsText s' = centsText s /\
    noteInTune s' = noteInTune s.
Proof.
  intros [H1 H2 H3 H4 H5 H6 H7] Hidx. unfold toggleStringLock.
  assert (Hlockall : forall s0,
            isListening s0 = isListening s -> audioContext s0 = audioContext s ->
            animationId s0 = animationId s -> smoothedFrequency s0 = smoothedFrequency s ->
            lockedStringIndex s0 = Some index ->
            stringButtons s0 = mapi (fun i btn => set_locked (i =? index)%nat btn)
                                    (stringButtons s) ->
            session_ok s0).
  { intros s0 E1 E2 E3 E4 E5 E6.
    split; rewrite ?E1, ?E2, ?E3, ?E4, ?E5, ?E6, ?mapi_length; auto.
    - intros i Hi. injection Hi as <-. exact Hidx.
    - intros i b Hb. rewrite mapi_nth_error in Hb.
      destruct (nth_error (stringButtons s) i); [|discriminate].
      injection Hb as <-. reflexivity. }
  destruct (lockedStringIndex s) as [locked|] eqn:Hl.
  - destruct (Nat.eqb_spec locked index) as [->|Hne].
    + simpl. replace (index <? List.length (stringButtons s))%nat with true
        by (symmetry; apply Nat.ltb_lt; exact Hidx).
      eexists. split; [reflexivity|]. simpl. rewrite Nat.eqb_refl, mapi_length.
      split; [|repeat split].
      split; simpl; rewrite ?mapi_length; auto; try discriminate.
      intros i b Hb. rewrite mapi_nth_error in Hb.
      destruct (nth_error (stringButtons s) i) as [b0|] eqn:Hb0; [|discriminate].
      injection Hb as <-. specialize (H6 i b0 Hb0). simpl in H6.
      destruct (Nat.eqb_spec i index); [reflexivity | exact H6].
    + eexists. split; [reflexivity|]. simpl. rewrite mapi_length.
      replace (index =? locked)%nat with false by (symmetry; apply Nat.eqb_neq; congruence).
      split; [apply Hlockall; reflexivity | repeat split].
  - eexists. split; [reflexivity|]. simpl. rewrite mapi_length.
    split; [apply Hlockall; reflexivity | repeat split].
Qed.

(** X18.  A click on an existing string button never throws.  It locks
    that string, or unlocks it when it was the locked one; afterwards a
    button carries the [locked] class exactly when it is the locked string,
    so at most one does; the capture, the smoothing and the readings on the
    page are not touched. *)
Theorem toggleStringLock_exclusive (index : nat) (s : Session) :
  session_ok s -> (index < List.length (stringButtons s))%nat ->
  exists s',
    toggleStringLock index s = Done s' /\
    lockedStringIndex s' =
      (if same_index index (lockedStringIndex s) then None else Some index) /\
    (forall i b, nth_error (stringButtons s') i = Some b ->
                 (btn_locked b = true <-> lockedStringIndex s' = Some i)) /\
    List.length (stringButtons s') = List.length (stringButtons s) /\
    isListening s' = isListening s /\
    smoothedFrequency s' = smoothedFrequency s /\ segments s' = segments s /\
    noteText s' = noteText s /\ hzText s' = hzText s /\ centsText s' = centsText s.
Proof.
  intros Hok Hidx.
  destruct (toggleStringLock_keeps_ok index s Hok Hidx)
    as [s' [Hd [Hok' [Hl [Hn [E1 [_ [_ [E4 [E5 [E6 [E7 [E8 _]]]]]]]]]]]]].
  exists s'. split; [exact Hd|]. split; [exact Hl|].
  split; [|auto 10].
  intros i b Hb. rewrite (ok_locked_class s' Hok' i b Hb).
  destruct (lockedStringIndex s') as [k|]; simpl.
  - rewrite Nat.eqb_eq. split; congruence.
  - split; discriminate.
Qed.

Lemma toggleStringLock_exclusive_witness :
  exists s',
    toggleStringLock 3 (tuningSession 44100 (Some 1%nat) (Some 110)) = Done s' /\
    lockedStringIndex s' = Some 3%nat.
Proof.
  destruct (toggleStringLock_exclusive 3 (tuningSession 44100 (Some 1%nat) (Some 110)))
    as [s' [Hd [Hl _]]].
  - split; simpl; try discriminate; try lia.
    + intros i Hi. injection Hi as <-. lia.
    + intros i b Hb.
      do 6 (destruct i as [|i]; [injection Hb as <-; reflexivity|]).
      destruct i; discriminate.
    + intros x Hx. injection Hx as <-. lra.
  - simpl. lia.
  - exists s'. split; [exact Hd | exact Hl].
Defined.

Lemma tuningSession_ok (sampleRate : R) (lock : option nat) (smoothed : option R) :
  (forall k, lock = Some k -> (k < 6)%nat) ->
  (forall x, smoothed = Some x -> 80 < x) ->
  session_ok (tuningSession sampleRate lock smoothed).
Proof.
  intros Hk Hx. split; simpl; try discriminate; try lia; auto.
  intros i b Hb.
  do 6 (destruct i as [|i]; [injection Hb as <-; reflexivity|]).
  destruct i; discriminate.
Qed.

Lemma Session_eta (s : Session) :
  s = {| audioContext := audioContext s; mediaStream := mediaStream s;
         isListening := isListening s; animationId := animationId s;
         nextFrame := nextFrame s; lockedStringIndex := lockedStringIndex s;
         smoothedFrequency := smoothedFrequency s;
         noteText := noteText s; noteInTune := noteInTune s;
         octaveText := octaveText s; hzText := hzText s; centsText := centsText s;
         segments := segments s; stringButtons := stringButtons s;
         startBtnListening := startBtnListening s; status := status s;
         statusError := statusError s; scans := scans s |}.
Proof. destruct s; reflexivity. Qed.

Lemma unlock_after_lock (index : nat) (bs : list StringButton) :
  (forall i b, nth_error bs i = Some b -> btn_locked b = false) ->
  mapi (fun i btn => if (i =? index)%nat then set_locked false btn else btn)
       (mapi (fun i btn => set_locked (i =? index)%nat btn) bs) = bs.
Proof.
  intros Hun. apply nth_error_ext. intros i.
  rewrite !mapi_nth_error.
  destruct (nth_error bs i) as [b|] eqn:Hb; [|reflexivity].
  specialize (Hun i b Hb). destruct b as [a t l]. simpl in Hun. subst l.
  destruct (i =? index)%nat; reflexivity.
Qed.

(** X19.  Round trip of the lock: with no string locked, clicking an
    existing button twice gives back the very same session; the first click
    locks the string, the second unlocks it. *)
Theorem toggleStringLock_twice (index : nat) (s : Session) :
  session_ok s -> lockedStringIndex s = None ->
  (index < List.length (stringButtons s))%nat ->
  exists s1,
    toggleStringLock index s = Done s1 /\
    lockedStringIndex s1 = Some index /\
    toggleStringLock index s1 = Done s.
Proof.
  intros Hok Hnone Hidx.
  exists (set_stringButtons
            (mapi (fun i btn => set_locked (i =? index)%nat btn) (stringButtons s))
            (set_lockedStringIndex (Some index) s)).
  split; [unfold toggleStringLock; rewrite Hnone; reflexivity|].
  split; [reflexivity|].
  unfold toggleStringLock. simpl. rewrite Nat.eqb_refl, mapi_length.
  replace (index <? List.length (stringButtons s))%nat with true
    by (symmetry; apply Nat.ltb_lt; exact Hidx).
  f_equal. etransitivity; [|symmetry; apply Session_eta].
  unfold set_stringButtons, set_lockedStringIndex. simpl.
  rewrite unlock_after_lock; [rewrite Hnone; reflexivity|].
  intros i b Hb. rewrite (ok_locked_class s Hok i b Hb), Hnone. reflexivity.
Qed.

Lemma toggleStringLock_twice_witness :
  exists s1,
    toggleStringLock 2 (tuningSession 44100 None (Some 110)) = Done s1 /\
    toggleStringLock 2 s1 = Done (tuningSession 44100 None (Some 110)).
Proof.
  destruct (toggleStringLock_twice 2 (tuningSession 44100 None (Some 110)))
    as [s1 [H1 [_ H2]]].
  - apply tuningSession_ok; [discriminate|]. intros x Hx. injection Hx as <-. lra.
  - reflexivity.
  - simpl. lia.
  - exists s1. split; [exact H1 | exact H2].
Defined.

(** ** Runs of events *)

Lemma handle_keeps_ok (e : Event) (s : Session) :
  session_ok s -> exists s', handle e s = Done s' /\ session_ok s'.
Proof.
  intros Hok. destruct e as [index | mic buffer | buffer]; simpl.
  - destruct (Nat.ltb_spec index (List.length (stringButtons s))) as [Hlt|Hge].
    + destruct (toggleStringLock_keeps_ok index s Hok Hlt) as [s' [Hd [Hok' _]]].
      exists s'. auto.
    + exists s. auto.
  - eexists. split; [reflexivity|]. unfold toggleListening.
    destruct (isListening s) eqn:Hl.
    + now apply session_ok_stopListening.
    + now apply session_ok_startListening.
  - destruct (animationId s).
    + destruct (session_ok_detectPitch buffer s Hok) as [s' [Hd [Hok' _]]].
      exists s'. auto.
    + exists s. auto.
Qed.

(** X20.  Starting from a session as the page has it between two events,
    no sequence of clicks and animation frames makes a handler throw, and
    the session stays well formed: while listening an audio context exists
    and a frame is pending, while idle there is neither and no smoothed
    value is kept; the locked index names an existing button and one of the
    six strings; any smoothed frequency is above 80 Hz. *)
Theorem run_never_throws (events : list Event) (s : Session) :
  session_ok s ->
  exists s', run events s = Done s' /\ session_ok s' /\
             List.length (stringButtons s') = List.length (stringButtons s) /\
             forall i, lockedStringIndex s' = Some i ->
                       exists g, nth_error GUITAR_STRINGS i = Some g.
Proof.
  revert s. induction events as [|e rest IH]; intros s Hok.
  - exists s. split; [reflexivity|]. split; [exact Hok|]. split; [reflexivity|].
    intros i Hi. pose proof (ok_lock s Hok i Hi). pose proof (ok_buttons s Hok).
    destruct (nth_error GUITAR_STRINGS i) as [g|] eqn:Hg; [eauto|].
    apply nth_error_None in Hg. lia.
  - destruct (handle_keeps_ok e s Hok) as [s1 [Hd Hok1]].
    destruct (IH s1 Hok1) as [s' [Hr [Hok' [Hlen Hlock]]]].
    exists s'. simpl. rewrite Hd. simpl. split; [exact Hr|]. split; [exact Hok'|].
    split; [|exact Hlock]. rewrite Hlen.
    destruct e as [index | mic buffer | buffer]; simpl in Hd.
    + destruct (Nat.ltb_spec index (List.length (stringButtons s))) as [Hlt|Hge].
      * destruct (toggleStringLock_keeps_ok index s Hok Hlt) as [s2 [Hd2 [_ [_ [Hn _]]]]].
        congruence.
      * congruence.
    + injection Hd as <-. unfold toggleListening.
      destruct (isListening s) eqn:Hl.
      * simpl. apply length_map.
      * unfold startListening. destruct mic as [sampleRate|]; [|reflexivity].
        match goal with
        | |- context [detectPitch buffer ?s0] =>
            pose proof (detectPitch_locked_kept buffer s0) as [Hk _];
            destruct (detectPitch buffer s0); simpl in *; exact Hk
        end.
    + destruct (animationId s).
      * pose proof (detectPitch_locked_kept buffer s) as [Hk _].
        rewrite Hd in Hk. exact Hk.
      * congruence.
Qed.

Lemma run_never_throws_witness :
  exists s',
    run [Frame clickWindow; ClickString 3; ClickStart None []; Frame onsetWindow]
        (tuningSession 44100 (Some 1%nat) (Some 110)) = Done s'.
Proof.
  destruct (run_never_throws
              [Frame clickWindow; ClickString 3; ClickStart None []; Frame onsetWindow]
              (tuningSession 44100 (Some 1%nat) (Some 110)))
    as [s' [Hr _]].
  - apply tuningSession_ok.
    + intros k Hk. injection Hk as <-. lia.
    + intros x Hx. injection Hx as <-. lra.
  - exists s'. exact Hr.
Defined.

(** ** Stopping *)

Lemma Session_ext (s t : Session) :
  audioContext s = audioContext t -> mediaStream s = mediaStream t ->
  isListening s = isListening t -> animationId s = animationId t ->
  nextFrame s = nextFrame t -> lockedStringIndex s = lockedStringIndex t ->
  smoothedFrequency s = smoothedFrequency t ->
  noteText s = noteText t -> noteInTune s = noteInTune t ->
  octaveText s = octaveText t -> hzText s = hzText t -> centsText s = centsText t ->
  segments s = segments t -> stringButtons s = stringButtons t ->
  startBtnListening s = startBtnListening t -> status s = status t ->
  statusError s = statusError t -> scans s = scans t ->
  s = t.
Proof.
  destruct s, t; simpl; intros; subst; reflexivity.
Qed.

Lemma handle_Frame_no_request (buffer : list R) (s : Session) :
  animationId s = None -> handle (Frame buffer) s = Done s.
Proof. intros H. unfold handle. rewrite H. reflexivity. Qed.

(** X21.  Stopping twice is the same as stopping once; and a frame callback
    that still runs after a stop returns at once: it changes nothing, runs
    no scan and requests no further frame. *)
Theorem stopListening_is_final (s : Session) (buffer : list R) :
  stopListening (stopListening s) = stopListening s /\
  detectPitch buffer (stopListening s) = Done (stopListening s) /\
  handle (Frame buffer) (stopListening s) = Done (stopListening s) /\
  animationId (stopListening s) = None /\
  scans (stopListening s) = scans s.
Proof.
  split.
  { apply Session_ext.
    all: try (simpl; reflexivity).
    - simpl. unfold clear_segments. rewrite map_map. reflexivity.
    - simpl. rewrite map_map. reflexivity. }
  split; [apply detectPitch_idle; reflexivity|].
  split; [apply handle_Frame_no_request; reflexivity|].
  split; reflexivity.
Qed.

(** ** Starting *)

(** X22.  From a well-formed idle session, a click on the start button
    whose microphone request is granted leaves the session listening on the
    new context, a frame pending, the status "Listening", the error mark
    removed and the button in its stop state; a refused request leaves it
    idle with the status "denied" and the error mark.  Either way the
    locked string is kept.  A second click after a granted start stops
    again: idle, no context, no frame, no smoothed value. *)
Theorem toggleListening_cycle
    (s : Session) (mic : option R) (buffer : list R)
    (mic2 : option R) (buffer2 : list R) :
  session_ok s -> isListening s = false ->
  let s1 := toggleListening mic buffer s in
  session_ok s1 /\
  lockedStringIndex s1 = lockedStringIndex s /\
  (mic = None ->
   isListening s1 = false /\ status s1 = StatusDenied /\ statusError s1 = true /\
   segments s1 = segments s /\ stringButtons s1 = stringButtons s /\
   noteText s1 = noteText s) /\
  (forall sampleRate, mic = Some sampleRate ->
   isListening s1 = true /\ audioContext s1 = Some sampleRate /\
   animationId s1 <> None /\
   status s1 = StatusListening /\ statusError s1 = false /\
   startBtnListening s1 = true /\
   let s2 := toggleListening mic2 buffer2 s1 in
   s2 = stopListening s1 /\ isListening s2 = false /\ audioContext s2 = None /\
   animationId s2 = None /\ smoothedFrequency s2 = None /\
   startBtnListening s2 = false /\
   lockedStringIndex s2 = lockedStringIndex s).
Proof.
  intros Hok Hidle. cbv zeta.
  assert (Heq : toggleListening mic buffer s = startListening mic buffer s).
  { unfold toggleListening. rewrite Hidle. reflexivity. }
  rewrite Heq.
  destruct (session_ok_startListening mic buffer s Hok Hidle) as [Hok1 [Hk1 Hm]].
  split; [exact Hok1|]. split; [exact Hk1|]. split.
  - intros ->. destruct Hm as [Hl [Hst He]].
    split; [exact Hl|]. split; [exact Hst|]. split; [exact He|].
    split; [reflexivity|]. split; reflexivity.
  - intros sampleRate ->. destruct Hm as [Hl [Hc [Hst He]]].
    split; [exact Hl|]. split; [exact Hc|].
    split; [exact (ok_frame _ Hok1 Hl)|].
    split; [exact Hst|]. split; [exact He|].
    split.
    { unfold startListening.
      match goal with
      | |- context [detectPitch buffer ?s0] =>
          pose proof (detectPitch_status buffer s0) as [_ [_ [Hb _]]];
          destruct (detectPitch buffer s0); simpl in Hb |- *; exact Hb
      end. }
    assert (Heq2 : toggleListening mic2 buffer2 (startListening (Some sampleRate) buffer s) =
                   stopListening (startListening (Some sampleRate) buffer s)).
    { unfold toggleListening. rewrite Hl. reflexivity. }
    rewrite Heq2.
    split; [reflexivity|].
    split; [reflexivity|]. split; [reflexivity|]. split; [reflexivity|].
    split; [reflexivity|]. split; [reflexivity|].
    exact Hk1.
Qed.

Lemma toggleListening_cycle_witness :
  lockedStringIndex
    (toggleListening (Some 44100) clickWindow
       (stopListening (tuningSession 44100 (Some 1%nat) (Some 110)))) = Some 1%nat.
Proof.
  apply (toggleListening_cycle
           (stopListening (tuningSession 44100 (Some 1%nat) (Some 110)))
           (Some 44100) clickWindow None []).
  - apply session_ok_stopListening. apply tuningSession_ok.
    + intros k Hk. injection Hk as <-. lia.
    + intros x Hx. injection Hx as <-. lra.
  - reflexivity.
Defined.

(** ** What a tick with a pitch shows *)

(** X23.  On a well-formed listening session, a tick that finds a pitch
    returns; the Hz field shows the smoothed frequency, not the raw
    estimate; that value lies between the previous smoothed value and the
    raw one (it is the raw one after a reset) and is above 80 Hz; the cents
    shown are those of the smoothed frequency in the current mode. *)
Theorem detectPitch_shows_smoothed (buffer : list R) (s : Session) (sampleRate : R) :
  session_ok s ->
  isListening s = true -> audioContext s = Some sampleRate ->
  MIN_VOLUME < rms_of buffer -> autoCorrelate buffer sampleRate <> -1 ->
  exists s' y,
    detectPitch buffer s = Done s' /\
    smoothedFrequency s' = Some y /\ hzText s' = Some y /\
    80 < y /\
    (smoothedFrequency s = None -> y = autoCorrelate buffer sampleRate) /\
    (forall x, smoothedFrequency s = Some x ->
               Rmin x (autoCorrelate buffer sampleRate) <= y <=
               Rmax x (autoCorrelate buffer sampleRate)) /\
    (exists cents, cents_of y s = Some cents /\ centsText s' = CentsSigned cents) /\
    scans s' = S (scans s).
Proof.
  intros Hok Hl Hc Hloud Hfound.
  pose proof (detectPitch_pitch _ _ _ Hl Hc Hloud Hfound) as Hdp. cbv zeta in Hdp.
  set (raw := autoCorrelate buffer sampleRate) in *.
  set (sm := smooth (smoothedFrequency s) raw) in *.
  set (s1 := set_smoothedFrequency (Some sm) (set_scans (S (scans s)) s)) in *.
  assert (Hcents : exists cents, cents_of sm s1 = Some cents).
  { unfold cents_of. simpl. destruct (lockedStringIndex s) as [i|] eqn:Hi; [|eauto].
    pose proof (ok_lock s Hok i Hi). pose proof (ok_buttons s Hok).
    destruct (nth_error GUITAR_STRINGS i) eqn:Hg; [eauto|].
    apply nth_error_None in Hg. lia. }
  destruct Hcents as [cents Hcents].
  destruct (updateDisplay_cents sm s1 cents Hcents) as [s2 [Hud [Hct [Hhz _]]]].
  pose proof (updateDisplay_frame sm s1) as Hfr. cbv zeta in Hfr.
  rewrite Hud in Hdp, Hfr. simpl in Hdp, Hfr.
  destruct Hfr as [_ [_ [_ [Hs2 [Hsc _]]]]].
  exists (requestFrame s2), sm.
  split; [exact Hdp|]. simpl.
  split; [exact Hs2|]. split; [exact Hhz|].
  pose proof (autoCorrelate_above_80 _ _ Hfound) as H80. fold raw in H80.
  split.
  { subst sm. destruct (smoothedFrequency s) as [p|] eqn:Hp; simpl; [|exact H80].
    pose proof (ok_smoothed s Hok p Hp). unfold EMA_ALPHA. lra. }
  split; [intros Hn; subst sm; rewrite Hn; reflexivity|].
  split; [intros x Hx; subst sm; rewrite Hx; apply smooth_between|].
  split; [|exact Hsc].
  exists cents. split; [|exact Hct]. exact Hcents.
Qed.

Lemma detectPitch_shows_smoothed_witness :
  exists s' y,
    detectPitch clickWindow (tuningSession 44100 (Some 1%nat) (Some 110)) = Done s' /\
    hzText s' = Some y /\ 80 < y.
Proof.
  destruct (detectPitch_shows_smoothed clickWindow
              (tuningSession 44100 (Some 1%nat) (Some 110)) 44100)
    as [s' [y [Hd [_ [Hhz [H80 _]]]]]].
  - apply tuningSession_ok.
    + intros k Hk. injection Hk as <-. lia.
    + intros x Hx. injection Hx as <-. lra.
  - reflexivity.
  - reflexivity.
  - exact rms_of_clickWindow.
  - rewrite autoCorrelate_clickWindow. lra.
  - exists s', y. auto.
Defined.

(** ** The open strings in free mode *)

Lemma pow_200_bounds (y : R) :
  399 / 400 < y < 401 / 400 -> / 2 < y ^ 200 < 2.
Proof.
  intros [Hl Hu].
  assert (Hlo : / 2 < (399 / 400) ^ 200).
  { unfold Rdiv. rewrite Rpow_mult_distr, pow_inv.
    assert (Hd : 0 < 400 ^ 200) by (apply pow_lt; lra).
    apply Rmult_lt_reg_r with (2 * 400 ^ 200); [lra|].
    replace (/ 2 * (2 * 400 ^ 200)) with (400 ^ 200) by (field; lra).
    replace (399 ^ 200 * / 400 ^ 200 * (2 * 400 ^ 200)) with (2 * 399 ^ 200)
      by (field; lra).
    rewrite !pow_IZR, <- mult_IZR. apply IZR_lt. reflexivity. }
  assert (Hhi : (401 / 400) ^ 200 < 2).
  { unfold Rdiv. rewrite Rpow_mult_distr, pow_inv.
    assert (Hd : 0 < 400 ^ 200) by (apply pow_lt; lra).
    apply Rmult_lt_reg_r with (400 ^ 200); [lra|].
    replace (401 ^ 200 * / 400 ^ 200 * 400 ^ 200) with (401 ^ 200) by (field; lra).
    rewrite !pow_IZR, <- mult_IZR. apply IZR_lt. reflexivity. }
  split.
  - apply Rlt_le_trans with (1 := Hlo). apply pow_incr. lra.
  - apply Rle_lt_trans with (2 := Hhi). apply pow_incr. lra.
Qed.

(** A positive frequency whose twelfth power of the ratio to A4 is within
    1/400 of [2 ^ -e] lies less than half a cent from the note [e]
    semitones below A4. *)
Lemma getNoteFromFrequency_near (f : R) (e : nat) :
  0 < f ->
  399 / 400 < (f / 440) ^ 12 * 2 ^ e < 401 / 400 ->
  ni_midi (getNoteFromFrequency f) = (69 - Z.of_nat e)%Z /\
  ni_cents (getNoteFromFrequency f) = 0%Z.
Proof.
  intros Hf Hy. pose proof ln_2_positive as H2.
  assert (Hq : 0 < f / 440) by (apply Rdiv_lt_0_compat; lra).
  assert (Hq12 : 0 < (f / 440) ^ 12) by (apply pow_lt; exact Hq).
  assert (H2e : 0 < 2 ^ e) by (apply pow_lt; lra).
  set (y := (f / 440) ^ 12 * 2 ^ e) in *.
  assert (Hy0 : 0 < y) by (apply Rmult_lt_0_compat; assumption).
  destruct (pow_200_bounds y Hy) as [Hlo Hhi].
  apply ln_increasing in Hlo; [|lra].
  apply ln_increasing in Hhi; [|apply pow_lt; exact Hy0].
  rewrite ln_Rinv in Hlo by lra.
  rewrite (ln_pow y Hy0) in Hlo, Hhi.
  assert (Hlny : ln y = 12 * ln (f / 440) + INR e * ln 2).
  { unfold y. rewrite ln_mult by assumption. rewrite !ln_pow by lra.
    simpl (INR 12). ring. }
  replace (INR 200) with 200 in Hlo, Hhi by (rewrite INR_IZR_INZ; reflexivity).
  set (L := Math_log2 (f / 440)).
  assert (HL : ln (f / 440) = L * ln 2) by (unfold L, Math_log2; field; lra).
  rewrite Hlny, HL in Hlo, Hhi.
  assert (Hb : - / 200 < 12 * L + INR e < / 200).
  { split; apply Rmult_lt_reg_r with (200 * ln 2); nra. }
  rewrite INR_IZR_INZ in Hb.
  unfold getNoteFromFrequency, A4_FREQ, A4_MIDI. simpl. fold L.
  assert (Hm : Math_round (12 * L + 69) = (69 - Z.of_nat e)%Z).
  { unfold Math_round. apply Math_floor_unique. rewrite minus_IZR. lra. }
  rewrite Hm. split; [reflexivity|].
  unfold Math_round. apply (Math_floor_unique _ 0). rewrite minus_IZR. lra.
Qed.

Lemma getNoteFromFrequency_by_midi (f : R) :
  ni_note (getNoteFromFrequency f) =
    nth (Z.to_nat (ni_midi (getNoteFromFrequency f) mod 12)) NOTE_NAMES ""%string /\
  ni_octave (getNoteFromFrequency f) = (ni_midi (getNoteFromFrequency f) / 12 - 1)%Z.
Proof.
  unfold getNoteFromFrequency. simpl.
  rewrite noteIndex_of_mod, (Math_floor_div _ 12) by lia. split; reflexivity.
Qed.

(** The same for a frequency of [p / 100] Hz, by a comparison of integers. *)
Lemma open_string_reading (p : Z) (e : nat) (f : R) (note : string) (octave : Z) :
  f = IZR p / 100 ->
  (0 <? p)%Z = true ->
  (399 * 44000 ^ 12 <? 400 * (p ^ 12 * 2 ^ Z.of_nat e))%Z = true ->
  (400 * (p ^ 12 * 2 ^ Z.of_nat e) <? 401 * 44000 ^ 12)%Z = true ->
  nth (Z.to_nat ((69 - Z.of_nat e) mod 12)) NOTE_NAMES ""%string = note ->
  ((69 - Z.of_nat e) / 12 - 1)%Z = octave ->
  ni_note (getNoteFromFrequency f) = note /\
  ni_octave (getNoteFromFrequency f) = octave /\
  ni_cents (getNoteFromFrequency f) = 0%Z.
Proof.
  intros -> Hp Hlo Hhi Hn Ho.
  apply Z.ltb_lt in Hp, Hlo, Hhi.
  apply IZR_lt in Hp, Hlo, Hhi.
  change 12%Z with (Z.of_nat 12) in Hlo, Hhi.
  rewrite !mult_IZR, <- !pow_IZR in Hlo, Hhi.
  assert (Hf : 0 < IZR p / 100) by lra.
  assert (Hd : 0 < 44000 ^ 12) by (apply pow_lt; lra).
  assert (Hy : 399 / 400 < (IZR p / 100 / 440) ^ 12 * 2 ^ e < 401 / 400).
  { replace (IZR p / 100 / 440) with (IZR p * / 44000) by (field; lra).
    rewrite Rpow_mult_distr, pow_inv.
    split; apply Rmult_lt_reg_r with (400 * 44000 ^ 12); try lra;
      replace (IZR p ^ 12 * / 44000 ^ 12 * 2 ^ e * (400 * 44000 ^ 12))
        with (400 * (IZR p ^ 12 * 2 ^ e)) by (field; lra);
      lra. }
  destruct (getNoteFromFrequency_near (IZR p / 100) e Hf Hy) as [Hm Hc].
  destruct (getNoteFromFrequency_by_midi (IZR p / 100)) as [Hnote Hoct].
  rewrite Hnote, Hoct, Hm. auto.
Qed.

Ltac open_string p e :=
  apply (open_string_reading p e); [lra | reflexivity ..].

(** Each of the six open strings, at the frequency the table gives for it,
    is less than half a cent from the note the table names. *)
Lemma open_string_note (i : nat) (g : GuitarString) :
  nth_error GUITAR_STRINGS i = Some g ->
  ni_note (getNoteFromFrequency (gs_freq g)) = gs_note g /\
  ni_octave (getNoteFromFrequency (gs_freq g)) = gs_octave g /\
  ni_cents (getNoteFromFrequency (gs_freq g)) = 0%Z.
Proof.
  intros H.
  destruct i as [|[|[|[|[|[|i]]]]]]; cbn in H;
    try (injection H as <-; cbn [gs_freq gs_note gs_octave]).
  - open_string 8241%Z 29%nat.
  - open_string 11000%Z 24%nat.
  - open_string 14683%Z 19%nat.
  - open_string 19600%Z 14%nat.
  - open_string 24694%Z 10%nat.
  - open_string 32963%Z 5%nat.
  - destruct i; discriminate.
Qed.

(** X25.  The table of strings agrees with the note arithmetic: each of the
    six open strings, at the frequency the table gives for it, reads in
    free mode as its own note name and octave, with 0 cents, in tune; its
    MIDI number is [12 * (octave + 1)] plus the index of its name. *)
Theorem open_strings_read_in_tune (i : nat) (g : GuitarString) :
  nth_error GUITAR_STRINGS i = Some g ->
  let info := getNoteFromFrequency (gs_freq g) in
  ni_note info = gs_note g /\ ni_octave info = gs_octave g /\
  ni_cents info = 0%Z /\ isInTune_of (ni_cents info) = true /\
  nth_error NOTE_NAMES (Z.to_nat (ni_midi info - 12 * (gs_octave g + 1))) =
    Some (gs_note g).
Proof.
  intros H info. destruct (open_string_note i g H) as [Hn [Ho Hc]].
  fold info in Hn, Ho, Hc. rewrite Hn, Ho, Hc.
  repeat (split; [reflexivity|]).
  destruct (getNoteFromFrequency_by_midi (gs_freq g)) as [Hnote Hoct].
  fold info in Hnote, Hoct. rewrite Hn in Hnote. rewrite Ho in Hoct.
  clearbody info.
  pose proof (Z.mod_pos_bound (ni_midi info) 12 ltac:(lia)) as Hb.
  pose proof (Z.div_mod (ni_midi info) 12 ltac:(lia)) as Hdm.
  replace (ni_midi info - 12 * (gs_octave g + 1))%Z with (ni_midi info mod 12)%Z by lia.
  destruct (nth_error NOTE_NAMES (Z.to_nat (ni_midi info mod 12))) as [n|] eqn:He.
  - rewrite (nth_error_nth _ _ _ He) in Hnote. congruence.
  - apply nth_error_None in He. simpl in He. lia.
Qed.

Lemma open_strings_read_in_tune_witness :
  let info := getNoteFromFrequency 196.00 in
  ni_note info = "G"%string /\ ni_octave info = 3%Z /\
  ni_cents info = 0%Z /\ isInTune_of (ni_cents info) = true /\
  nth_error NOTE_NAMES (Z.to_nat (ni_midi info - 12 * (3 + 1))) = Some "G"%string.
Proof.
  apply (open_strings_read_in_tune 3
           {| gs_note := "G"; gs_octave := 3; gs_freq := 196.00; gs_label := "G" |}
           eq_refl).
Defined.

(** X24.  Playing an open string at the frequency of the table, in free
    mode: [updateDisplay] returns; the page shows the note and the octave
    of that string, the frequency, and 0 cents; on a meter with segments
    the note is marked in tune, the centre segment alone is lit, the button
    of that string is marked [in-tune], and no other button is marked. *)
Theorem updateDisplay_open_string (i : nat) (g : GuitarString) (s : Session) :
  lockedStringIndex s = None ->
  nth_error GUITAR_STRINGS i = Some g ->
  exists s',
    updateDisplay (gs_freq g) s = Done s' /\
    noteText s' = Some (gs_note g) /\ octaveText s' = Some (gs_octave g) /\
    hzText s' = Some (gs_freq g) /\ centsText s' = CentsSigned 0 /\
    (segments s <> [] ->
     noteInTune s' = true /\
     List.length (segments s') = List.length (segments s) /\
     (forall k, (k < List.length (segments s))%nat ->
        (nth k (segments s') false = true <->
         Z.of_nat k = (Z.of_nat (List.length (segments s)) / 2)%Z)) /\
     (forall j b, nth_error (stringButtons s) j = Some b ->
        nth_error (stringButtons s') j =
        Some {| btn_active := false; btn_in_tune := (j =? i)%nat;
                btn_locked := btn_locked b |})).
Proof.
  intros Hl Hi. destruct (open_string_note i g Hi) as [Hn [Ho Hc]].
  unfold updateDisplay. rewrite Hl, Hn, Ho, Hc. cbn zeta. simpl segments.
  destruct (List.length (segments s) =? 0)%nat eqn:He.
  - eexists. split; [reflexivity|]. simpl.
    repeat (split; [reflexivity|]).
    intros Hne. apply Nat.eqb_eq in He. destruct (segments s); [contradiction|discriminate].
  - eexists. split; [reflexivity|].
    match goal with
    | |- context [updateStringIndicators ?f ?t ?s0] =>
        pose proof (updateStringIndicators_frame f t s0) as Hfr; cbn zeta in Hfr;
        destruct Hfr as [_ [_ [_ [_ [_ [_ [_ [Hnt [Hot [Hhz [Hct [Hit Hsg]]]]]]]]]]]];
        pose proof (updateStringIndicators_at_string i g t s0) as Hbtn
    end.
    rewrite Hnt, Hot, Hhz, Hct, Hit, Hsg. simpl.
    do 4 (split; [reflexivity|]).
    intros _. split; [reflexivity|].
    split; [apply mapi_length|].
    split.
    + intros k Hk. rewrite paint_meter_nth by exact Hk.
      change (isInTune_of 0) with true. cbn match.
      rewrite centerIndex_half. apply Z.eqb_eq.
    + intros j b Hb. simpl in Hbtn. rewrite (Hbtn Hl Hi j b Hb).
      change (isInTune_of 0) with true.
      rewrite andb_false_r, andb_true_r. reflexivity.
Qed.

Lemma updateDisplay_open_string_witness :
  exists s',
    updateDisplay 110.00 (tuningSession 44100 None (Some 110)) = Done s' /\
    noteText s' = Some "A"%string /\ octaveText s' = Some 2%Z /\
    hzText s' = Some 110.00 /\ centsText s' = CentsSigned 0 /\
    noteInTune s' = true /\
    nth 12 (segments s') false = true /\
    nth_error (stringButtons s') 1 =
      Some {| btn_active := false; btn_in_tune := true; btn_locked := false |} /\
    nth_error (stringButtons s') 4 =
      Some {| btn_active := false; btn_in_tune := false; btn_locked := false |}.
Proof.
  destruct (updateDisplay_open_string 1
              {| gs_note := "A"; gs_octave := 2; gs_freq := 110.00; gs_label := "A" |}
              (tuningSession 44100 None (Some 110)) eq_refl eq_refl)
    as [s' [Hd [Hn [Ho [Hh [Hc Hm]]]]]].
  assert (Hne : segments (tuningSession 44100 None (Some 110)) <> []) by discriminate.
  destruct (Hm Hne) as [Hit [_ [Hseg Hbtn]]].
  exists s'. repeat (split; [assumption|]).
  split; [apply (Hseg 12%nat); [simpl; lia | reflexivity]|].
  split.
  - apply (Hbtn 1%nat {| btn_active := false; btn_in_tune := true; btn_locked := false |}).
    reflexivity.
  - apply (Hbtn 4%nat {| btn_active := false; btn_in_tune := false; btn_locked := false |}).
    reflexivity.
Defined.

(** ** The display after a reset *)

Lemma map_const_mapi {A B : Type} (f : nat -> A -> B) (c : B -> B) (l : list A)
    (g : A -> B) :
  (forall i x, c (f i x) = g x) ->
  map c (mapi f l) = map g l.
Proof.
  intros H. unfold mapi. generalize 0%nat.
  induction l as [|x l IH]; intros start; simpl; [reflexivity|].
  now rewrite H, IH.
Qed.

Lemma clear_segments_mapi (f : nat -> bool -> bool) (l : list bool) :
  clear_segments (mapi f l) = clear_segments l.
Proof. unfold clear_segments. now apply map_const_mapi. Qed.

Lemma clear_button_marks (b : StringButton) (flag tuned : bool) :
  clear_button (let btn := clear_button b in
                if flag then (if tuned then add_in_tune btn else add_active btn)
                else btn) = clear_button b.
Proof. destruct flag, tuned; reflexivity. Qed.

Lemma resetDisplay_updateStringIndicators (f : R) (t : bool) (s : Session) :
  resetDisplay (updateStringIndicators f t s) = resetDisplay s.
Proof.
  unfold updateStringIndicators.
  destruct (lockedStringIndex s) as [locked|] eqn:Hl; [|destruct (closest f) as [c d]];
    (apply Session_ext; simpl; try reflexivity);
    apply map_const_mapi; intros; apply clear_button_marks.
Qed.

(** X26.  [resetDisplay] wipes whatever [updateDisplay] wrote: resetting
    after a reading gives the same page as resetting before it.  The reset
    page shows no note, no frequency, the cents "0"; every segment is dark
    and no button is marked [active] or [in-tune], while every button keeps
    its [locked] class and the lock itself is kept.  Resetting twice is
    resetting once. *)
Theorem resetDisplay_forgets_reading (f : R) (s : Session) :
  resetDisplay (state_of (updateDisplay f s)) = resetDisplay s /\
  resetDisplay (resetDisplay s) = resetDisplay s /\
  noteText (resetDisplay s) = None /\ hzText (resetDisplay s) = None /\
  centsText (resetDisplay s) = CentsReset /\ noteInTune (resetDisplay s) = false /\
  segments (resetDisplay s) = repeat false (List.length (segments s)) /\
  lockedStringIndex (resetDisplay s) = lockedStringIndex s /\
  stringButtons (resetDisplay s) =
    map (fun b => {| btn_active := false; btn_in_tune := false;
                     btn_locked := btn_locked b |}) (stringButtons s).
Proof.
  split.
  { split_updateDisplay f s; try reflexivity.
    - rewrite resetDisplay_updateStringIndicators.
      apply Session_ext; simpl; try reflexivity. apply clear_segments_mapi.
    - rewrite resetDisplay_updateStringIndicators.
      apply Session_ext; simpl; try reflexivity. apply clear_segments_mapi. }
  split.
  { apply Session_ext; simpl; try reflexivity.
    - unfold clear_segments. rewrite map_map. reflexivity.
    - rewrite map_map. reflexivity. }
  repeat (split; [reflexivity|]).
  split; [|split; reflexivity].
  simpl. unfold clear_segments. induction (segments s); simpl; congruence.
Qed.

(** * autoCorrelate on binary64 numbers *)

(** ** The order of binary64 numbers *)

Lemma SFltb_irrefl (x : SpecFloat.spec_float) : SpecFloat.SFltb x x = false.
Proof.
  unfold SpecFloat.SFltb.
  destruct x as [s|s| |s m e]; simpl; try reflexivity; destruct s; try reflexivity.
  - rewrite Z.compare_refl. change (Pos.compare_cont Eq m m) with (Pos.compare m m).
    now rewrite Pos.compare_refl.
  - rewrite Z.compare_refl. change (Pos.compare_cont Eq m m) with (Pos.compare m m).
    now rewrite Pos.compare_refl.
Qed.

Lemma SFltb_SFleb (x y : SpecFloat.spec_float) :
  SpecFloat.SFltb x y = true -> SpecFloat.SFleb x y = true.
Proof.
  unfold SpecFloat.SFltb, SpecFloat.SFleb.
  destruct (SpecFloat.SFcompare x y) as [[| |]|]; intros H; try discriminate; reflexivity.
Qed.

Ltac order_cases :=
  repeat match goal with
         | |- context [Z.compare ?a ?b] => destruct (Z.compare_spec a b)
         | H : context [Z.compare ?a ?b] |- _ => destruct (Z.compare_spec a b)
         | |- context [Pos.compare ?a ?b] => destruct (Pos.compare_spec a b)
         | H : context [Pos.compare ?a ?b] |- _ => destruct (Pos.compare_spec a b)
         end;
  simpl in *; try discriminate; try reflexivity; try lia.

Lemma SFltb_SFleb_trans (a x y : SpecFloat.spec_float) :
  SpecFloat.SFltb a x = true -> SpecFloat.SFleb x y = true -> SpecFloat.SFltb a y = true.
Proof.
  unfold SpecFloat.SFltb, SpecFloat.SFleb.
  destruct a as [sa|sa| |sa ma ea], x as [sx|sx| |sx mx ex], y as [sy|sy| |sy my ey];
    simpl; try discriminate; try reflexivity;
    try destruct sa; try destruct sx; try destruct sy;
    simpl; try discriminate; try reflexivity;
    change (Pos.compare_cont Eq) with Pos.compare in *;
    intros H1 H2; order_cases.
Qed.

Lemma gt64_irrefl (a : PrimFloat.float) : Binary64.gt a a = false.
Proof. unfold Binary64.gt. rewrite FloatAxioms.ltb_spec. apply SFltb_irrefl. Qed.

Lemma gt64_ge64 (a b : PrimFloat.float) : Binary64.gt a b = true -> Binary64.ge a b = true.
Proof.
  unfold Binary64.gt, Binary64.ge. rewrite FloatAxioms.ltb_spec, FloatAxioms.leb_spec.
  apply SFltb_SFleb.
Qed.

(** [x > a] and [y >= x] give [y > a]. *)
Lemma gt64_ge64_trans (a x y : PrimFloat.float) :
  Binary64.gt x a = true -> Binary64.ge y x = true -> Binary64.gt y a = true.
Proof.
  unfold Binary64.gt, Binary64.ge.
  rewrite !FloatAxioms.ltb_spec, FloatAxioms.leb_spec. apply SFltb_SFleb_trans.
Qed.

Lemma gt64_trans (a x y : PrimFloat.float) :
  Binary64.gt x a = true -> Binary64.gt y x = true -> Binary64.gt y a = true.
Proof. intros H1 H2. apply (gt64_ge64_trans a x y H1). now apply gt64_ge64. Qed.

(** What is not above [a] does not reach anything above [a]. *)
Lemma not_gt64_not_ge64 (a x y : PrimFloat.float) :
  Binary64.gt x a = true -> Binary64.gt y a = false -> Binary64.ge y x = false.
Proof.
  intros H1 H2. destruct (Binary64.ge y x) eqn:H; [|reflexivity].
  rewrite (gt64_ge64_trans a x y H1 H) in H2. discriminate.
Qed.

Lemma not_ge64_not_gt64 (x y : PrimFloat.float) :
  Binary64.ge y x = false -> Binary64.gt y x = false.
Proof.
  intros H. destruct (Binary64.gt y x) eqn:Hg; [|reflexivity].
  rewrite (gt64_ge64 _ _ Hg) in H. discriminate.
Qed.

(** ** The three accumulators are the three sums *)

Lemma fold_accumulate (buffer : list PrimFloat.float) (offset : Z) (xs : list nat)
    (acc : Binary64.Sums) :
  fold_left (Binary64.accumulate buffer offset) xs acc =
  {| Binary64.sum :=
       fold_left (fun a i => PrimFloat.add a
                    (PrimFloat.mul (Binary64.sample buffer (Z.of_nat i))
                                   (Binary64.sample buffer (Z.of_nat i + offset))))
                 xs (Binary64.sum acc);
     Binary64.sumSq1 :=
       fold_left (fun a i => PrimFloat.add a
                    (PrimFloat.mul (Binary64.sample buffer (Z.of_nat i))
                                   (Binary64.sample buffer (Z.of_nat i))))
                 xs (Binary64.sumSq1 acc);
     Binary64.sumSq2 :=
       fold_left (fun a i => PrimFloat.add a
                    (PrimFloat.mul (Binary64.sample buffer (Z.of_nat i + offset))
                                   (Binary64.sample buffer (Z.of_nat i + offset))))
                 xs (Binary64.sumSq2 acc) |}.
Proof.
  revert acc. induction xs as [|i xs IH]; intros acc; simpl.
  - destruct acc; reflexivity.
  - rewrite IH. reflexivity.
Qed.

Lemma scan_step_spec (buffer : list PrimFloat.float) (M : Z) (b : Binary64.Best) (o : Z) :
  Binary64.scan_step buffer M b o =
  if Binary64.gt (Binary64.lag_norm buffer M o) PrimFloat.zero then
    if Binary64.gt (Binary64.normalized_correlation buffer M o) (Binary64.bestCorrelation b)
    then {| Binary64.bestOffset := o;
            Binary64.bestCorrelation := Binary64.normalized_correlation buffer M o |}
    else b
  else b.
Proof.
  unfold Binary64.scan_step, Binary64.correlate. rewrite fold_accumulate. reflexivity.
Qed.

(** ** The scan tracks the first maximum *)

Lemma tracked64_step (buffer : list float) (M lo : Z) (n : nat) (b : Binary64.Best) :
  Binary64.tracked buffer M lo (lo + Z.of_nat n) b ->
  Binary64.tracked buffer M lo (lo + Z.of_nat (S n))
                   (Binary64.scan_step buffer M b (lo + Z.of_nat n)).
Proof.
  intros IH. set (o := (lo + Z.of_nat n)%Z) in *.
  assert (Hsplit : forall l, (lo <= l < lo + Z.of_nat (S n))%Z ->
                             (lo <= l < o)%Z \/ l = o) by (subst o; lia).
  rewrite scan_step_spec. unfold PrimFloat.zero, Binary64.gt in *.
  set (c := Binary64.normalized_correlation buffer M) in *.
  set (v := fun l => (0 <? Binary64.lag_norm buffer M l)%float) in *.
  change (0 <? Binary64.lag_norm buffer M o)%float with (v o).
  destruct (v o) eqn:Hn.
  - destruct (Binary64.bestCorrelation b <? c o)%float eqn:Hc.
    + (* a new best *)
      right. simpl.
      assert (Hprev : forall l, (lo <= l < o)%Z -> v l = true ->
                                (Binary64.bestCorrelation b <? c l)%float = false).
      { destruct IH as [[_ [-> Hall]] | [_ [_ [_ [_ [Hall _]]]]]]; exact Hall. }
      assert (Hfirst : forall l, (lo <= l < o)%Z -> v l = true ->
                                 (c o <=? c l)%float = false).
      { intros l Hl Hv.
        exact (not_gt64_not_ge64 (Binary64.bestCorrelation b) (c o) (c l) Hc (Hprev l Hl Hv)). }
      split; [subst o; lia|]. split; [exact Hn|]. split; [reflexivity|].
      split.
      { destruct IH as [[_ [Hb _]] | [_ [_ [_ [Hgt _]]]]].
        - now rewrite <- Hb.
        - exact (gt64_trans _ _ _ Hgt Hc). }
      split; [|exact Hfirst].
      intros l Hl Hv. destruct (Hsplit l Hl) as [Hl' | ->].
      * exact (not_ge64_not_gt64 _ _ (Hfirst l Hl' Hv)).
      * apply gt64_irrefl.
    + (* not above the best so far *)
      destruct IH as [[Ho [Hb Hall]] | [Hr [Hv [He [Hgt [Hall Hfirst]]]]]].
      * left. split; [exact Ho|]. split; [exact Hb|].
        intros l Hl Hvl. destruct (Hsplit l Hl) as [Hl' | ->]; [auto | now rewrite <- Hb].
      * right. repeat split; try assumption; try lia.
        intros l Hl Hvl. destruct (Hsplit l Hl) as [Hl' | ->]; [auto | exact Hc].
  - (* skipped: the norm is not positive *)
    destruct IH as [[Ho [Hb Hall]] | [Hr [Hv [He [Hgt [Hall Hfirst]]]]]].
    + left. split; [exact Ho|]. split; [exact Hb|].
      intros l Hl Hvl. destruct (Hsplit l Hl) as [Hl' | ->]; [auto | unfold v in Hn; congruence].
    + right. repeat split; try assumption; try lia.
      intros l Hl Hvl. destruct (Hsplit l Hl) as [Hl' | ->]; [auto | unfold v in Hn; congruence].
Qed.

Lemma tracked64_range (buffer : list float) (M lo hi : Z) :
  Binary64.tracked buffer M lo hi
    (fold_left (Binary64.scan_step buffer M) (offsets lo hi) Binary64.initialBest).
Proof.
  destruct (Z.le_gt_cases hi lo) as [Hle|Hlt].
  - rewrite offsets_empty by assumption. left. repeat split. intros l Hl. lia.
  - replace hi with (lo + Z.of_nat (Z.to_nat (hi - lo)))%Z by lia.
    induction (Z.to_nat (hi - lo)) as [|n IH].
    + rewrite offsets_empty by lia. left. repeat split. intros l Hl. lia.
    + rewrite offsets_snoc, fold_left_app. simpl. now apply tracked64_step.
Qed.

Lemma scan_tracked64 (buffer : list float) (sampleRate : float) (minPeriod maxPeriod : Z) :
  Binary64.Math_floor (sampleRate / 400)%float = Some minPeriod ->
  Binary64.Math_floor (sampleRate / 80)%float = Some maxPeriod ->
  Binary64.tracked buffer (Binary64.MAX_SAMPLES_of buffer) minPeriod
                   (Z.min (Binary64.MAX_SAMPLES_of buffer) maxPeriod)
                   (Binary64.scan buffer sampleRate).
Proof.
  intros Hlo Hhi. unfold Binary64.scan. rewrite Hlo, Hhi. apply tracked64_range.
Qed.

Lemma scan_not_finite (buffer : list float) (sampleRate : float) :
  Binary64.Math_floor (sampleRate / 400)%float = None \/
  Binary64.Math_floor (sampleRate / 80)%float = None ->
  Binary64.scan buffer sampleRate = Binary64.initialBest.
Proof.
  intros [H | H]; unfold Binary64.scan; rewrite H; [reflexivity|].
  destruct (Binary64.Math_floor (sampleRate / 400)%float); reflexivity.
Qed.

(** ** Signs: a frequency that is found is not the "not found" value *)

Lemma binary_round_aux_sign (s : bool) (m e : Z) (l : SpecFloat.location) :
  match SpecFloat.binary_round_aux prec emax s m e l with
  | S754_zero s' | S754_infinity s' | S754_finite s' _ _ => s' = s
  | S754_nan => True
  end.
Proof.
  unfold SpecFloat.binary_round_aux.
  destruct (SpecFloat.shr_fexp prec emax m e l) as [mrs e'].
  destruct (SpecFloat.shr_fexp prec emax _ e' SpecFloat.loc_Exact) as [mrs' e''].
  destruct (SpecFloat.shr_m mrs'); [reflexivity | | exact I].
  destruct (e'' <=? emax - prec)%Z; reflexivity.
Qed.

Lemma div_sign (x y : float) :
  Prim2SF (x / y)%float <> S754_nan ->
  Binary64.negative (x / y)%float = xorb (Binary64.negative x) (Binary64.negative y).
Proof.
  unfold Binary64.negative. rewrite div_spec. unfold SF64div, SpecFloat.SFdiv.
  destruct (Prim2SF x) as [sx|sx| |sx mx ex], (Prim2SF y) as [sy|sy| |sy my ey];
    try reflexivity; try (intros H; now contradiction H).
  destruct (SpecFloat.SFdiv_core_binary prec emax (Z.pos mx) ex (Z.pos my) ey) as [[mz ez] lz].
  pose proof (binary_round_aux_sign (xorb sx sy) mz ez lz) as Hs.
  destruct (SpecFloat.binary_round_aux prec emax (xorb sx sy) mz ez lz);
    intros H; try exact Hs. now contradiction H.
Qed.

Lemma of_Z_not_negative (z : Z) : Binary64.negative (Binary64.of_Z z) = false.
Proof.
  unfold Binary64.negative, Binary64.of_Z. rewrite of_uint63_spec.
  pose proof (Uint63.to_Z_bounded (Uint63Axioms.of_Z z)) as [Hb _].
  destruct (Uint63Axioms.to_Z (Uint63Axioms.of_Z z)) as [|p|p]; [reflexivity| |lia].
  unfold SpecFloat.binary_normalize, SpecFloat.binary_round.
  destruct (SpecFloat.shl_align _ _ _) as [mz ez].
  pose proof (binary_round_aux_sign false (Z.pos mz) ez SpecFloat.loc_Exact) as Hs.
  destruct (SpecFloat.binary_round_aux prec emax false (Z.pos mz) ez SpecFloat.loc_Exact);
    auto.
Qed.

Lemma Math_floor_positive (x : float) (z : Z) :
  Binary64.Math_floor x = Some z -> (0 < z)%Z ->
  Binary64.negative x = false /\ Prim2SF x <> S754_nan.
Proof.
  unfold Binary64.Math_floor, Binary64.negative.
  destruct (Prim2SF x) as [s|s| |s m e]; intros H Hz; try discriminate.
  - injection H as <-. lia.
  - injection H as <-. split; [|discriminate].
    destruct s; [|reflexivity]. exfalso.
    assert (0 <= Z.shiftl (SpecFloat.cond_Zopp true (Z.pos m)) e)%Z by lia.
    apply Z.shiftl_nonneg in H. simpl in H. lia.
Qed.

Lemma scan_positive_lag64 (buffer : list float) (sampleRate : float) :
  (0 < Binary64.bestOffset (Binary64.scan buffer sampleRate))%Z ->
  Binary64.negative sampleRate = false.
Proof.
  intros Hpos.
  destruct (Binary64.Math_floor (sampleRate / 400)%float) as [lo|] eqn:Hlo;
    [|rewrite scan_not_finite in Hpos by auto; simpl in Hpos; lia].
  destruct (Binary64.Math_floor (sampleRate / 80)%float) as [hi|] eqn:Hhi;
    [|rewrite scan_not_finite in Hpos by auto; simpl in Hpos; lia].
  destruct (scan_tracked64 buffer sampleRate lo hi Hlo Hhi) as [[Hb _] | [Hr _]].
  - rewrite Hb in Hpos. simpl in Hpos. lia.
  - destruct (Math_floor_positive _ hi Hhi ltac:(lia)) as [Hneg Hnan].
    rewrite (div_sign _ _ Hnan) in Hneg.
    change (Binary64.negative 80%float) with false in Hneg.
    now rewrite xorb_false_r in Hneg.
Qed.

Lemma autoCorrelate64_found_not_NOT_FOUND (buffer : list float) (sampleRate : float) :
  (0 < Binary64.bestOffset (Binary64.scan buffer sampleRate))%Z ->
  (sampleRate / Binary64.of_Z (Binary64.bestOffset (Binary64.scan buffer sampleRate)))%float
  <> Binary64.NOT_FOUND.
Proof.
  intros Hpos Heq. pose proof (scan_positive_lag64 buffer sampleRate Hpos) as Hs.
  assert (Hnan : Prim2SF (sampleRate /
            Binary64.of_Z (Binary64.bestOffset (Binary64.scan buffer sampleRate)))%float
          <> S754_nan).
  { rewrite Heq. discriminate. }
  pose proof (div_sign _ _ Hnan) as Hd.
  rewrite Heq, Hs, of_Z_not_negative in Hd. discriminate.
Qed.

(** ** [Math.floor] and the threshold *)

(** [Binary64.Math_floor] is the floor of the real number the binary64
    number stands for. *)
Lemma Math_floor64_to_R (x : float) (z : Z) :
  Binary64.Math_floor x = Some z -> z = Math_floor (Binary64.to_R x).
Proof.
  unfold Binary64.Math_floor, Binary64.to_R.
  destruct (Prim2SF x) as [s|s| |s m e]; intros H; try discriminate; injection H as <-.
  - symmetry. apply (Math_floor_IZR 0).
  - set (M := SpecFloat.cond_Zopp s (Z.pos m)). destruct e as [|p|p].
    + rewrite Z.shiftl_0_r. simpl. rewrite Rmult_1_r. symmetry. apply Math_floor_IZR.
    + rewrite Z.shiftl_mul_pow2 by lia. simpl powerRZ.
      replace (IZR M * 2 ^ Pos.to_nat p)%R with (IZR (M * 2 ^ Z.pos p)).
      * symmetry. apply Math_floor_IZR.
      * rewrite mult_IZR. f_equal. rewrite <- (positive_nat_Z p). now rewrite <- pow_IZR.
    + change (Z.shiftl M (Z.neg p)) with (Z.shiftr M (Z.pos p)).
      rewrite Z.shiftr_div_pow2 by lia. simpl powerRZ.
      replace (IZR M * / 2 ^ Pos.to_nat p)%R with (IZR M / IZR (2 ^ Z.pos p))%R.
      * symmetry. apply Math_floor_div. apply Z.pow_pos_nonneg; lia.
      * unfold Rdiv. f_equal. f_equal. rewrite <- (positive_nat_Z p). now rewrite <- pow_IZR.
Qed.

(** The threshold is the binary64 number nearest to 2/10: it is
    [m * 2^-55] with [|10 * m - 2 * 2^55| = 4], less than half a step
    of 10. *)
Lemma MIN_CORRELATION_nearest :
  Prim2SF Binary64.MIN_CORRELATION = S754_finite false 7205759403792794 (-55) /\
  (Z.abs (10 * 7205759403792794 - 2 * 2 ^ 55) = 4)%Z.
Proof. split; reflexivity. Qed.

(** C2.  On the binary64 numbers the script computes with, for every
    buffer and sampling rate.  When [sampleRate] is finite the lags scanned
    are those from [floor(sampleRate / 400)] up to, not including,
    [min(floor(N / 2), floor(sampleRate / 80))], and the pair the scan ends
    with tracks the maximum normalized correlation over them ([tracked]):
    the normalized correlation of a lag is the sum of [b[i] * b[i + lag]]
    over [0 <= i < floor(N / 2) - lag] divided by the square root of the
    product of the sums of [b[i]^2] and of [b[i + lag]^2]; lags whose norm
    is not above 0 are passed over; the comparison is a strict
    greater-than, so no earlier lag reaches the best correlation.  When
    [sampleRate] is NaN or infinite nothing is scanned and the pair is
    still (-1, -1).  [autoCorrelate] returns [sampleRate / bestOffset],
    which is not -1, exactly when the best correlation exceeds 0.2 (the
    binary64 number [0x1.999999999999ap-3]) and the best lag is positive,
    and -1 otherwise. *)
Theorem autoCorrelate_tracks_first_maximum (buffer : list float) (sampleRate : float) :
  let MAX_SAMPLES := (Z.of_nat (List.length buffer) / 2)%Z in
  let b := Binary64.scan buffer sampleRate in
  (forall minPeriod maxPeriod,
     Binary64.Math_floor (sampleRate / 400)%float = Some minPeriod ->
     Binary64.Math_floor (sampleRate / 80)%float = Some maxPeriod ->
     minPeriod = Math_floor (Binary64.to_R (sampleRate / 400)%float) /\
     maxPeriod = Math_floor (Binary64.to_R (sampleRate / 80)%float) /\
     Binary64.tracked buffer MAX_SAMPLES minPeriod (Z.min MAX_SAMPLES maxPeriod) b) /\
  (Binary64.Math_floor (sampleRate / 400)%float = None \/
   Binary64.Math_floor (sampleRate / 80)%float = None ->
   Binary64.bestOffset b = (-1)%Z /\ Binary64.bestCorrelation b = (-1)%float) /\
  ((0x1.999999999999ap-3 <? Binary64.bestCorrelation b)%float = true /\
   (0 < Binary64.bestOffset b)%Z ->
   Binary64.autoCorrelate buffer sampleRate
     = (sampleRate / Binary64.of_Z (Binary64.bestOffset b))%float /\
   Binary64.autoCorrelate buffer sampleRate <> (-1)%float) /\
  (~ ((0x1.999999999999ap-3 <? Binary64.bestCorrelation b)%float = true /\
      (0 < Binary64.bestOffset b)%Z) ->
   Binary64.autoCorrelate buffer sampleRate = (-1)%float).
Proof.
  cbv zeta. split.
  { intros lo hi Hlo Hhi.
    split; [exact (Math_floor64_to_R _ _ Hlo)|].
    split; [exact (Math_floor64_to_R _ _ Hhi)|].
    now apply scan_tracked64. }
  split.
  { intros H. rewrite (scan_not_finite _ _ H). split; reflexivity. }
  split.
  - intros [Hc Ho]. unfold Binary64.autoCorrelate, Binary64.gt, Binary64.MIN_CORRELATION.
    rewrite Hc. apply Z.ltb_lt in Ho. rewrite Ho. simpl. split; [reflexivity|].
    apply autoCorrelate64_found_not_NOT_FOUND. now apply Z.ltb_lt.
  - intros H. unfold Binary64.autoCorrelate, Binary64.gt, Binary64.MIN_CORRELATION.
    destruct (_ <? Binary64.bestCorrelation _)%float eqn:Hc; [|reflexivity].
    destruct (0 <? _)%Z eqn:Ho; [|reflexivity].
    exfalso. apply H. split; [reflexivity | now apply Z.ltb_lt].
Qed.

(** At 44100 Hz the lags 110 to 550 are scanned, and lag 441 stands for
    100 Hz. *)
Lemma lag_range_44100_binary64 :
  Binary64.Math_floor (44100 / 400)%float = Some 110%Z /\
  Binary64.Math_floor (44100 / 80)%float = Some 551%Z /\
  (44100 / Binary64.of_Z 441)%float = 100%float.
Proof. repeat split; reflexivity. Qed.

(** ** Rounding shows in the result

    The first eight samples of [roundingWindow] repeat with a period of 4,
    and lag 4 scores exactly 1.  The rounded sums of lag 6 give a
    correlation one unit in the last place above 1, so lag 6 wins: at
    1600 Hz the script answers 266.67 Hz, not 400 Hz. *)

Lemma scan_roundingWindow :
  Binary64.normalized_correlation Binary64.roundingWindow 8 4 = 1%float /\
  Binary64.normalized_correlation Binary64.roundingWindow 8 6 = 0x1.0000000000001p+0%float /\
  Binary64.scan Binary64.roundingWindow 1600 =
    {| Binary64.bestOffset := 6; Binary64.bestCorrelation := 0x1.0000000000001p+0 |} /\
  Binary64.autoCorrelate Binary64.roundingWindow 1600 = (1600 / 6)%float.
Proof. repeat split; vm_compute; reflexivity. Qed.

(** ** Polarity *)

Lemma opp_nan : (- nan)%float = nan.
Proof. apply Prim2SF_inj. rewrite opp_spec. reflexivity. Qed.

Lemma mul_opp_opp (a b : float) : (- a * - b)%float = (a * b)%float.
Proof.
  apply Prim2SF_inj. rewrite !mul_spec, !opp_spec. unfold SF64mul, SpecFloat.SFmul.
  destruct (Prim2SF a) as [sa|sa| |sa ma ea], (Prim2SF b) as [sb|sb| |sb mb eb];
    simpl; try reflexivity; destruct sa, sb; reflexivity.
Qed.

Lemma sample_opp (buffer : list float) (i : Z) :
  Binary64.sample (map PrimFloat.opp buffer) i = (- Binary64.sample buffer i)%float.
Proof.
  unfold Binary64.sample. destruct (i <? 0)%Z; [now rewrite opp_nan|].
  rewrite <- opp_nan at 1. apply map_nth.
Qed.

Lemma accumulate_opp (buffer : list float) (offset : Z) (acc : Binary64.Sums) (i : nat) :
  Binary64.accumulate (map PrimFloat.opp buffer) offset acc i =
  Binary64.accumulate buffer offset acc i.
Proof.
  unfold Binary64.accumulate. rewrite !sample_opp, !mul_opp_opp. reflexivity.
Qed.

Lemma fold_left_pointwise {A B : Type} (f g : A -> B -> A) (xs : list B) (a : A) :
  (forall a x, f a x = g a x) -> fold_left f xs a = fold_left g xs a.
Proof.
  intros H. revert a. induction xs as [|x xs IH]; intros a; simpl; [reflexivity|].
  now rewrite H, IH.
Qed.

Lemma scan_step_opp (buffer : list float) (M : Z) (b : Binary64.Best) (o : Z) :
  Binary64.scan_step (map PrimFloat.opp buffer) M b o = Binary64.scan_step buffer M b o.
Proof.
  unfold Binary64.scan_step, Binary64.correlate.
  rewrite (fold_left_pointwise _ _ _ _ (accumulate_opp buffer o)). reflexivity.
Qed.

(** X1.  Inverting the polarity of the signal changes nothing, on the
    binary64 numbers the script computes with: negating every sample of the
    window leaves the lag and the correlation the scan ends with, and the
    value [autoCorrelate] returns, exactly as they were. *)
Theorem autoCorrelate_polarity_invariant (buffer : list float) (sampleRate : float) :
  Binary64.scan (map PrimFloat.opp buffer) sampleRate = Binary64.scan buffer sampleRate /\
  Binary64.autoCorrelate (map PrimFloat.opp buffer) sampleRate =
  Binary64.autoCorrelate buffer sampleRate.
Proof.
  assert (Hs : Binary64.scan (map PrimFloat.opp buffer) sampleRate =
               Binary64.scan buffer sampleRate).
  { unfold Binary64.scan, Binary64.MAX_SAMPLES_of. rewrite length_map.
    destruct (Binary64.Math_floor (sampleRate / 400)%float); [|reflexivity].
    destruct (Binary64.Math_floor (sampleRate / 80)%float); [|reflexivity].
    apply fold_left_pointwise. intros b o. apply scan_step_opp. }
  split; [exact Hs|]. unfold Binary64.autoCorrelate. now rewrite Hs.
Qed.
